(** * Chroma-key compositing: [advanced_chroma_key] of green_screen_remover.py

    The development embeds the per-frame transform of the script: the
    soft mask (HSV threshold, blur, clip, erosion, dilation), the colour
    decontamination of the green channel and the alpha blend with the
    background.

    Conventions.
    - A frame is a [height x width] grid of pixels, each pixel three
      channels in the order blue, green, red ([ch0], [ch1], [ch2]).
    - [uint8] values are integers ([Z]); [float32] values are the
      rationals ([Q]) they denote.  The arithmetic of lines 49-54 has two
      readings.  The first transform below computes exactly: it is used
      where every float32 operation involved is exact (mask values 0 and
      1, the weights swapped on line 51 at dyadic values, shapes, the
      heap).  The second one, [f32.advanced_chroma_key], rounds the
      result of every float32 operation and makes the check
      [cv2.GaussianBlur] makes on the kernel size; [ieee.binary32] and
      [ieee.binary64] are the roundings of the two IEEE formats.
    - OpenCV and NumPy are libraries the script calls.  [cv2.inRange],
      [cv2.erode], [cv2.dilate] and the NumPy operations follow their
      documentation; the colour conversion and the Gaussian weights are
      parameters of the development. *)

From Stdlib Require Import ZArith QArith Qminmax Qround Qpower Lqa Lia Ascii.
From stdpp Require Import base option list gmap strings.

Local Open Scope Z_scope.

(** ** Arrays *)

Abbreviation image A := (list (list A)).

Record px (A : Type) : Type := Px { ch0 : A; ch1 : A; ch2 : A }.
Arguments Px {A} _ _ _.
Arguments ch0 {A} _.
Arguments ch1 {A} _.
Arguments ch2 {A} _.

Definition px_map {A B} (f : A → B) (p : px A) : px B :=
  Px (f (ch0 p)) (f (ch1 p)) (f (ch2 p)).

Definition px_zip {A B C} (f : A → B → C) (p : px A) (q : px B) : px C :=
  Px (f (ch0 p) (ch0 q)) (f (ch1 p) (ch1 q)) (f (ch2 p) (ch2 q)).

Definition height {A} (a : image A) : nat := length a.

Definition width {A} (a : image A) : nat :=
  match a with
  | [] => O
  | r :: _ => length r
  end.

(** [rect h w a]: the array has shape [(h, w)]. *)
Definition rect {A} (h w : nat) (a : image A) : Prop :=
  length a = h ∧ Forall (λ r, length r = w) a.

Definition at2 {A} (a : image A) (i j : nat) : option A :=
  a !! i ≫= (λ r, r !! j).

Definition map2d {A B} (f : A → B) (a : image A) : image B :=
  fmap (M:=list) (fmap (M:=list) f) a.

Definition zip2d {A B C} (f : A → B → C) (a : image A) (b : image B) : image C :=
  zip_with (zip_with f) a b.

Definition imap2d {A B} (f : nat → nat → A → B) (a : image A) : image B :=
  imap (λ i r, imap (f i) r) a.

(** ** Exceptions and results *)

Inductive exn : Type :=
| cv2_error   (* cv2.error: an OpenCV assertion failed *)
| ValueError. (* NumPy: operands could not be broadcast together *)

Definition result (A : Type) : Type := (exn + A)%type.

Global Instance result_bind : MBind result := λ A B k r,
  match r with
  | inl e => inl e
  | inr a => k a
  end.

(** ** NumPy *)

Module np.

(** [x.astype(np.float32)] on a uint8 value. *)
Definition float32 (v : Z) : Q := inject_Z v.

(** Conversion of a float to an integer as C does it: the fraction is
    dropped (rounding toward zero).  For uint8, a value outside [0, 255]
    is then reduced modulo 256. *)
Definition trunc (q : Q) : Z := Z.quot (Qnum q) (Zpos (Qden q)).

Definition uint8 (q : Q) : Z := trunc q mod 256.

Definition astype_float32 (a : image (px Z)) : image (px Q) :=
  map2d (px_map float32) a.

Definition astype_uint8 (a : image (px Q)) : image (px Z) :=
  map2d (px_map uint8) a.

(** [np.clip(a, lo, hi)] *)
Definition clip (a : image Q) (lo hi : Q) : image Q :=
  map2d (λ v, Qmin (Qmax v lo) hi) a.

(** [np.ones((rows, cols), np.uint8)] *)
Definition ones (rows cols : nat) : image Z :=
  replicate rows (replicate cols 1).

(** [np.stack([m]*3, axis=-1)] *)
Definition stack3 (m : image Q) : image (px Q) :=
  map2d (λ v, Px v v v) m.

(** Strict comparison of floats, as a boolean. *)
Definition gt (x y : Q) : bool := negb (Qle_bool x y).

(** Broadcasting of one axis: equal sizes, or one of them is 1. *)
Definition broadcast_dim (m n : nat) : option nat :=
  if (m =? n)%nat then Some m
  else if (m =? 1)%nat then Some n
  else if (n =? 1)%nat then Some m
  else None.

(** Stretch an axis of size 1 to size [n]; other sizes are left alone. *)
Definition stretch {A} (n : nat) (l : list A) : list A :=
  match l with
  | [x] => replicate n x
  | _ => l
  end.

Definition broadcast_to {A} (h w : nat) (a : image A) : image A :=
  stretch h (fmap (M:=list) (stretch w) a).

(** An elementwise binary operation on two [(_, _, 3)] arrays, with
    broadcasting of the first two axes. *)
Definition binop {A B C} (f : A → B → C) (a : image A) (b : image B)
  : result (image C) :=
  match broadcast_dim (height a) (height b),
        broadcast_dim (width a) (width b) with
  | Some h, Some w =>
      inr (zip2d f (broadcast_to h w a) (broadcast_to h w b))
  | _, _ => inl ValueError
  end.

(** [a[m]] with a boolean array [m] of the shape of [a]: the selected
    elements in row-major order. *)
Fixpoint take_where {A} (m : list bool) (l : list A) : list A :=
  match m, l with
  | b :: m', x :: l' =>
      if b then x :: take_where m' l' else take_where m' l'
  | _, _ => []
  end.

Definition getitem_bool {A} (a : image A) (m : image bool) : list A :=
  concat (zip_with take_where m a).

(** [a[m] = vs]: the values are written to the selected positions in
    row-major order.  In the script [vs] is computed from arrays indexed
    by the same [m], so there is one value per selected position. *)
Fixpoint put_where {A} (m : list bool) (l : list A) (vs : list A)
  : list A * list A :=
  match m, l with
  | b :: m', x :: l' =>
      if b then
        match vs with
        | v :: vs' => let '(r, rest) := put_where m' l' vs' in (v :: r, rest)
        | [] => (x :: l', [])
        end
      else let '(r, rest) := put_where m' l' vs in (x :: r, rest)
  | _, _ => (l, vs)
  end.

Fixpoint setitem_bool {A} (a : image A) (m : image bool) (vs : list A)
  : image A :=
  match m, a with
  | mr :: m', r :: a' =>
      let '(r', rest) := put_where mr r vs in r' :: setitem_bool a' m' rest
  | _, _ => a
  end.

End np.

(** ** OpenCV *)

Module cv2.

(** [cv2.inRange(src, lowerb, upperb)]: 255 where every channel lies in
    the inclusive range, 0 elsewhere. *)
Definition in_range (lo hi p : px Z) : bool :=
  (ch0 lo <=? ch0 p) && (ch0 p <=? ch0 hi) &&
  (ch1 lo <=? ch1 p) && (ch1 p <=? ch1 hi) &&
  (ch2 lo <=? ch2 p) && (ch2 p <=? ch2 hi).

Definition inRange (src : image (px Z)) (lowerb upperb : px Z) : image Z :=
  map2d (λ p, if in_range lowerb upperb p then 255 else 0) src.

(** The largest finite float32; the value OpenCV gives to pixels outside
    the image during an erosion (and its negation during a dilation), so
    that they never win the minimum (maximum). *)
Definition FLT_MAX : Q := inject_Z (2 ^ 128 - 2 ^ 104).

(** Offsets, relative to the anchor at the kernel centre, of the
    non-zero entries of a structuring element. *)
Definition offsets (kernel : image Z) : list (Z * Z) :=
  let ai := Z.of_nat (height kernel) / 2 in
  let aj := Z.of_nat (width kernel) / 2 in
  concat (imap (λ i r,
    omap id (imap (λ j k,
      if (k =? 0) then None
      else Some (Z.of_nat i - ai, Z.of_nat j - aj)) r)) kernel).

(** The pixel at a signed position, [border] outside the image. *)
Definition at_border (src : image Q) (border : Q) (i j : Z) : Q :=
  if (i <? 0) || (j <? 0) then border
  else default border (at2 src (Z.to_nat i) (Z.to_nat j)).

Definition neighbours (src : image Q) (border : Q) (offs : list (Z * Z))
  (i j : nat) : list Q :=
  fmap (M:=list) (λ d, at_border src border (Z.of_nat i + d.1) (Z.of_nat j + d.2)) offs.

Definition erode1 (kernel : image Z) (src : image Q) : image Q :=
  imap2d (λ i j _,
    foldr Qmin FLT_MAX (neighbours src FLT_MAX (offsets kernel) i j)) src.

Definition dilate1 (kernel : image Z) (src : image Q) : image Q :=
  imap2d (λ i j _,
    foldr Qmax (- FLT_MAX)%Q
      (neighbours src (- FLT_MAX)%Q (offsets kernel) i j)) src.

(** [cv2.erode(src, kernel, iterations=n)] *)
Definition erode (src : image Q) (kernel : image Z) (iterations : nat)
  : image Q :=
  Nat.iter iterations (erode1 kernel) src.

(** [cv2.dilate(src, kernel, iterations=n)] *)
Definition dilate (src : image Q) (kernel : image Z) (iterations : nat)
  : image Q :=
  Nat.iter iterations (dilate1 kernel) src.

(** An array with no element. *)
Definition empty {A} (a : image A) : bool :=
  (height a =? 0)%nat || (width a =? 0)%nat.

End cv2.

(** ** The transform *)

Section ChromaKey.

(** The conversion [cv2.cvtColor(_, cv2.COLOR_BGR2HSV)] applies to each
    pixel of a uint8 frame. *)
Variable BGR2HSV : px Z → px Z.

(** [GaussianBlur_at k src i j]: the value at row [i], column [j] of
    [cv2.GaussianBlur(src, (k, k), 0)]. *)
Variable GaussianBlur_at : nat → image Q → nat → nat → Q.

(** OpenCV rejects an empty source. *)
Definition cvtColor (src : image (px Z)) : result (image (px Z)) :=
  if cv2.empty src then inl cv2_error else inr (map2d BGR2HSV src).

(** The blurred array has the shape of its source. *)
Definition GaussianBlur (src : image Q) (ksize : nat) : image Q :=
  imap2d (λ i j _, GaussianBlur_at ksize src i j) src.

(** Lines 37-39: the thresholded mask, scaled to floats. *)
Definition threshold_mask (frame : image (px Z)) (green_lower green_upper : px Z)
  : result (image Q) :=
  hsv ← cvtColor frame;
  inr (map2d (λ v, np.float32 v / 255)%Q
         (cv2.inRange hsv green_lower green_upper)).

(** Lines 40-41: feathering and clipping. *)
Definition feather_mask (mask : image Q) (feather_radius : nat) : image Q :=
  let mask := GaussianBlur mask feather_radius in
  np.clip mask 0 1.

(** Lines 43-45: morphological cleanup. *)
Definition cleanup_mask (mask : image Q) : image Q :=
  let kernel := np.ones 3 3 in
  let mask := cv2.erode mask kernel 1 in
  cv2.dilate mask kernel 2.

(** Lines 37-45: the value of [mask] when the decontamination starts. *)
Definition soft_mask (frame : image (px Z)) (green_lower green_upper : px Z)
  (feather_radius : nat) : result (image Q) :=
  mask ← threshold_mask frame green_lower green_upper;
  inr (cleanup_mask (feather_mask mask feather_radius)).

Definition channel {A} (c : px A → A) (a : image (px A)) : image A :=
  map2d c a.

(** The array with channel 1 replaced by the plane [g]. *)
Definition with_ch1 {A} (a : image (px A)) (g : image A) : image (px A) :=
  zip2d (λ p v, Px (ch0 p) v (ch2 p)) a g.

(** Line 50.  The three arrays have the shape of the frame, so the
    comparisons and the conjunction are elementwise. *)
Definition spill_mask_of (green red_blue mask : image Q) : image bool :=
  zip2d andb (zip2d np.gt green red_blue) (map2d (λ m, np.gt m 0.05%Q) mask).

(** Lines 47-51: the value of [frame_no_spill] after the masked
    assignment to its green channel. *)
Definition decontaminate (frame : image (px Z)) (mask : image Q)
  (spill_suppress : Q) : image (px Q) :=
  let frame_no_spill := np.astype_float32 frame in
  let green := channel ch1 frame_no_spill in
  let red_blue :=
    map2d (λ v, v / 2)%Q
      (zip2d Qplus (channel ch0 frame_no_spill) (channel ch2 frame_no_spill)) in
  let spill_mask := spill_mask_of green red_blue mask in
  let rhs :=
    zip_with Qplus
      (fmap (M:=list) (λ v, v * (1 - spill_suppress))%Q
         (np.getitem_bool red_blue spill_mask))
      (fmap (M:=list) (λ v, v * spill_suppress)%Q
         (np.getitem_bool (channel ch1 frame_no_spill) spill_mask)) in
  with_ch1 frame_no_spill
    (np.setitem_bool (channel ch1 frame_no_spill) spill_mask rhs).

(** Line 54: the alpha blend.  NumPy broadcasts the operands of each
    product and of the sum. *)
Definition alpha_blend (frame_no_spill : image (px Q)) (mask_3c : image (px Q))
  (bg32 : image (px Q)) : result (image (px Q)) :=
  fg ← np.binop (px_zip Qmult) frame_no_spill
         (map2d (px_map (λ m, 1 - m)%Q) mask_3c);
  back ← np.binop (px_zip Qmult) bg32 mask_3c;
  np.binop (px_zip Qplus) fg back.

(** The function on array values: what it returns for the contents of
    [frame] and [bg]. *)
Definition advanced_chroma_key (frame bg : image (px Z))
  (green_lower green_upper : px Z) (feather_radius : nat)
  (spill_suppress : Q) : result (image (px Z)) :=
  mask ← soft_mask frame green_lower green_upper feather_radius;
  let frame_no_spill := decontaminate frame mask spill_suppress in
  let mask_3c := np.stack3 mask in
  res ← alpha_blend frame_no_spill mask_3c (np.astype_float32 bg);
  inr (np.astype_uint8 res).

(** *** The function on the heap of arrays

    The script receives references to arrays, and one statement writes
    into an array in place.  Here arrays live in a heap; [frame.copy()],
    [astype] and the final conversion allocate, [frame_no_spill[..., 1]]
    is a view that shares the storage of [frame_no_spill]. *)

Inductive ndarray : Type :=
| U8x3 (a : image (px Z))    (* dtype uint8, shape (h, w, 3) *)
| F32x3 (a : image (px Q)).  (* dtype float32, shape (h, w, 3) *)

Definition values (n : ndarray) : image (px Q) :=
  match n with
  | U8x3 a => np.astype_float32 a
  | F32x3 a => a
  end.

(** A computation on the heap: [None] when a reference is dangling or an
    array has a dtype the model does not cover, otherwise the result (a
    value or a raised exception) and the heap left behind. *)
Definition M (A : Type) : Type :=
  gmap positive ndarray → option (result A * gmap positive ndarray).

Definition ret {A} (a : A) : M A := λ σ, Some (inr a, σ).

Definition raise {A} (e : exn) : M A := λ σ, Some (inl e, σ).

Definition bind {A B} (m : M A) (k : A → M B) : M B := λ σ,
  match m σ with
  | Some (inr a, σ') => k a σ'
  | Some (inl e, σ') => Some (inl e, σ')
  | None => None
  end.

Definition lift {A} (r : result A) : M A :=
  match r with
  | inl e => raise e
  | inr a => ret a
  end.

Definition load (l : positive) : M ndarray := λ σ,
  match σ !! l with
  | Some n => Some (inr n, σ)
  | None => None
  end.

Definition load_u8 (l : positive) : M (image (px Z)) := λ σ,
  match σ !! l with
  | Some (U8x3 a) => Some (inr a, σ)
  | _ => None
  end.

Definition alloc (n : ndarray) : M positive := λ σ,
  let l := fresh (dom σ) in Some (inr l, <[l := n]> σ).

Definition store (l : positive) (n : ndarray) : M unit := λ σ,
  Some (inr tt, <[l := n]> σ).

(** [a.copy()] *)
Definition copy (l : positive) : M positive :=
  bind (load l) alloc.

(** [a.astype(np.float32)]: always a new array. *)
Definition astype_float32 (l : positive) : M positive :=
  bind (load l) (λ n, alloc (F32x3 (values n))).

(** Reading [a[..., c]]. *)
Definition getitem_channel (c : px Q → Q) (l : positive) : M (image Q) :=
  bind (load l) (λ n, ret (channel c (values n))).

(** [a[..., 1][m] = vs]: the view writes through to [a]; values assigned
    into a uint8 array are converted. *)
Definition setitem_ch1_bool (l : positive) (m : image bool) (vs : list Q)
  : M unit :=
  bind (load l) (λ n,
    store l
      match n with
      | F32x3 a =>
          F32x3 (with_ch1 a (np.setitem_bool (channel ch1 a) m vs))
      | U8x3 a =>
          U8x3 (with_ch1 a
                  (np.setitem_bool (channel ch1 a) m
                     (fmap (M:=list) np.uint8 vs)))
      end).

Definition advanced_chroma_key_heap (frame bg : positive)
  (green_lower green_upper : px Z) (feather_radius : nat)
  (spill_suppress : Q) : M positive :=
  bind (load_u8 frame) (λ src,
  bind (lift (soft_mask src green_lower green_upper feather_radius)) (λ mask,
  bind (copy frame) (λ frame_copy,
  bind (astype_float32 frame_copy) (λ frame_no_spill,
  bind (getitem_channel ch1 frame_no_spill) (λ green,
  bind (getitem_channel ch0 frame_no_spill) (λ c0,
  bind (getitem_channel ch2 frame_no_spill) (λ c2,
  let red_blue := map2d (λ v, v / 2)%Q (zip2d Qplus c0 c2) in
  let spill_mask := spill_mask_of green red_blue mask in
  bind (getitem_channel ch1 frame_no_spill) (λ g1,
  let rhs :=
    zip_with Qplus
      (fmap (M:=list) (λ v, v * (1 - spill_suppress))%Q
         (np.getitem_bool red_blue spill_mask))
      (fmap (M:=list) (λ v, v * spill_suppress)%Q
         (np.getitem_bool g1 spill_mask)) in
  bind (setitem_ch1_bool frame_no_spill spill_mask rhs) (λ _,
  let mask_3c := np.stack3 mask in
  bind (load frame_no_spill) (λ fns,
  bind (astype_float32 bg) (λ bg32,
  bind (load bg32) (λ b,
  bind (lift (alpha_blend (values fns) mask_3c (values b))) (λ res,
  alloc (U8x3 (np.astype_uint8 res))))))))))))))).

End ChromaKey.

(** *** Per-pixel reading of the array code

    The array statements of lines 47-55 act on each pixel separately;
    these are the pixel functions they are proved to compute. *)

(** The spill condition of line 50 at one pixel. *)
Definition spill_px (p : px Q) (m : Q) : bool :=
  np.gt (ch1 p) ((ch0 p + ch2 p) / 2)%Q && np.gt m 0.05%Q.

(** Lines 47-51 at one pixel of the frame with mask value [m]. *)
Definition decontaminate_px (spill_suppress : Q) (p : px Z) (m : Q) : px Q :=
  let q := px_map np.float32 p in
  let red_blue := ((ch0 q + ch2 q) / 2)%Q in
  Px (ch0 q)
     (if spill_px q m
      then (red_blue * (1 - spill_suppress) + ch1 q * spill_suppress)%Q
      else ch1 q)
     (ch2 q).

(** Line 54 at one pixel. *)
Definition blend_px (f : px Q) (m : Q) (b : px Q) : px Q :=
  px_zip Qplus (px_zip Qmult f (px_map (λ m, 1 - m)%Q (Px m m m)))
    (px_zip Qmult b (Px m m m)).

(** The blend formula of the specification's step 6, for comparison with
    line 51: [avgRedBlue * spillSuppression + oldGreen * (1 - spillSuppression)]. *)
Definition spec_new_green (spill_suppress avg_red_blue old_green : Q) : Q :=
  (avg_red_blue * spill_suppress + old_green * (1 - spill_suppress))%Q.

(** Every channel of [p] lies in the inclusive range [lo, hi]. *)
Definition within (lo hi p : px Z) : Prop :=
  ch0 lo ≤ ch0 p ≤ ch0 hi ∧ ch1 lo ≤ ch1 p ≤ ch1 hi ∧ ch2 lo ≤ ch2 p ≤ ch2 hi.

(** A uint8 sample. *)
Definition is_uint8 (v : Z) : Prop := 0 ≤ v ≤ 255.

Definition px_all {A} (P : A → Prop) (p : px A) : Prop :=
  P (ch0 p) ∧ P (ch1 p) ∧ P (ch2 p).

Definition all2d {A} (P : A → Prop) (a : image A) : Prop :=
  Forall (Forall P) a.

Definition unit_interval (q : Q) : Prop := (0 <= q <= 1)%Q.

Definition byte_range (q : Q) : Prop := (0 <= q <= 255)%Q.

(** ** Instances of the OpenCV parameters

    Used to run the transform on concrete frames. *)

Module ref.

(** Rounding to the nearest integer. *)
Definition round (q : Q) : Z := Qfloor (q + (1 # 2))%Q.

(** The 8-bit BGR to HSV conversion as OpenCV documents it:
    [V = max], [S = 255 (V - min) / V], [H] half the hue angle in
    degrees. *)
Definition BGR2HSV (p : px Z) : px Z :=
  let b := ch0 p in
  let g := ch1 p in
  let r := ch2 p in
  let v := Z.max r (Z.max g b) in
  let mn := Z.min r (Z.min g b) in
  let diff := inject_Z (v - mn) in
  let s := if v =? 0 then 0%Q else (255 * diff / inject_Z v)%Q in
  let hue :=
    if v =? mn then 0%Q
    else if v =? r then (60 * inject_Z (g - b) / diff)%Q
    else if v =? g then (120 + 60 * inject_Z (b - r) / diff)%Q
    else (240 + 60 * inject_Z (r - g) / diff)%Q in
  let hue := if Qle_bool 0 hue then hue else (hue + 360)%Q in
  Px (round (hue / 2)) (round s) v.

(** The fixed Gaussian coefficients OpenCV uses for kernel sizes 1, 3,
    5 and 7 when sigma is 0.  Larger sizes evaluate the exponential and
    are not tabulated. *)
Definition small_gaussian_tab (ksize : nat) : list Q :=
  match ksize with
  | 1%nat => [1%Q]
  | 3%nat => [1 # 4; 1 # 2; 1 # 4]%Q
  | 5%nat => [1 # 16; 1 # 4; 3 # 8; 1 # 4; 1 # 16]%Q
  | 7%nat => [1 # 32; 7 # 64; 7 # 32; 9 # 32; 7 # 32; 7 # 64; 1 # 32]%Q
  | _ => []
  end.

(** BORDER_REFLECT_101: [... c b | a b c d | c b ...]. *)
Definition reflect101 (len : nat) (p : Z) : nat :=
  if (len <=? 1)%nat then O
  else
    let period := 2 * (Z.of_nat len - 1) in
    let q := p mod period in
    Z.to_nat (if q <? Z.of_nat len then q else period - q).

Definition Qsum (l : list Q) : Q := foldr Qplus 0%Q l.

(** The separable filter at one position. *)
Definition GaussianBlur_at (ksize : nat) (src : image Q) (i j : nat) : Q :=
  let k := small_gaussian_tab ksize in
  let r := Z.of_nat (ksize / 2) in
  Qsum (imap (λ a ka,
    Qsum (imap (λ b kb,
      (ka * kb *
       default 0%Q
         (at2 src
            (reflect101 (height src) (Z.of_nat i + Z.of_nat a - r))
            (reflect101 (width src) (Z.of_nat j + Z.of_nat b - r))))%Q) k)) k).

(** The defaults of the script, lines 11-14. *)
Definition GREEN_LOWER : px Z := Px 40 100 50.
Definition GREEN_UPPER : px Z := Px 80 255 255.

End ref.

(** ** Sample frames *)

Module sample.

(** Pure green: HSV (60, 255, 255), inside the default key range. *)
Definition green : px Z := Px 0 255 0.

(** Dark green: HSV (60, 255, 40), outside the key range (value below
    50), with green above the red/blue average. *)
Definition dark : px Z := Px 0 40 0.

Definition black : px Z := Px 0 0 0.

Definition grey : px Z := Px 9 9 9.

(** One row: three key pixels, then three dark green ones. *)
Definition strip : image (px Z) := [[green; green; green; dark; dark; dark]].

Definition black_strip : image (px Z) :=
  [[black; black; black; black; black; black]].

(** A 2x2 frame of key pixels and a 1x1 background. *)
Definition square : image (px Z) := [[green; green]; [green; green]].

Definition dot : image (px Z) := [[grey]].


(** A heap with a frame at reference 1 and a background at reference 2. *)
Definition heap (frame bg : image (px Z)) : gmap positive ndarray :=
  <[1%positive := U8x3 frame]> (<[2%positive := U8x3 bg]> ∅).

End sample.

(** ** The rest of the script: background loading and the main loop

    The capture devices, the image file, the keyboard and the clock are
    the world the script runs in.  A capture is the sequence of frames
    it will deliver; the keyboard is the value [cv2.waitKey] returns in
    each iteration; the video writer and the preview window are
    represented by the frames sent to them.  The two resizing functions
    (PIL's and OpenCV's) are parameters. *)

(** [a[:, :, ::-1]]: the last axis reversed. *)
Definition reverse_channels {A} (p : px A) : px A :=
  Px (ch2 p) (ch1 p) (ch0 p).

(** [np.zeros_like(a)] *)
Definition zeros_like (a : image (px Z)) : image (px Z) :=
  map2d (λ _, Px 0 0 0) a.

(** [ord(c)] *)
Definition ord (c : Ascii.ascii) : Z := Z.of_N (Ascii.N_of_ascii c).

(** Lines 13-14. *)
Definition FEATHER_RADIUS : nat := 15.
Definition SPILL_SUPPRESS : Q := 0.7%Q.

(** Lines 22-23. *)
Definition SNAPSHOT_FOLDER : string := "snapshot".

(** [os.path.join(folder, name)] with the POSIX separator. *)
Definition path_join (folder name : string) : string :=
  folder +:+ "/" +:+ name.

(** A [cv2.VideoCapture]: the frames of the stream and the index of the
    next one. *)
Record VideoCapture : Type :=
  { frames : list (image (px Z)); pos : nat }.

(** [cap.read()]: the next frame, if there is one ([ret] is then true). *)
Definition read (cap : VideoCapture) : option (image (px Z)) * VideoCapture :=
  match frames cap !! pos cap with
  | Some f => (Some f, {| frames := frames cap; pos := S (pos cap) |})
  | None => (None, cap)
  end.

(** [cap.set(cv2.CAP_PROP_POS_FRAMES, 0)] *)
Definition rewind (cap : VideoCapture) : VideoCapture :=
  {| frames := frames cap; pos := 0 |}.

(** What the script does to the outside, in order. *)
Inductive event : Type :=
| Print (line : string)
| Imshow (f : image (px Z))                  (* cv2.imshow *)
| Write (f : image (px Z))                   (* out.write *)
| Imwrite (path : string) (f : image (px Z)). (* cv2.imwrite *)

(** An exception that leaves [main]. *)
Inductive failure : Type :=
| ImageOpenError            (* Image.open could not read the file *)
| KeyingError (e : exn).    (* raised inside advanced_chroma_key *)

(** The variables of the loop and the events so far. *)
Record loop_state : Type :=
  { bg_mode : nat; bg_vid_cap : VideoCapture; log : list event }.

Inductive control : Type :=
| Continue
| Break
| Raise (e : exn).

Section Script.

Variable BGR2HSV : px Z → px Z.
Variable GaussianBlur_at : nat → image Q → nat → nat → Q.

(** [img.resize((width, height))] of PIL. *)
Variable PIL_resize : image (px Z) → nat → nat → image (px Z).

(** [cv2.resize(img, (width, height))] *)
Variable cv2_resize : image (px Z) → nat → nat → image (px Z).

(** The value of [cv2.waitKey(1)] in iteration [n]. *)
Variable waitKey : nat → Z.

(** The text [datetime.datetime.now().strftime(...)] gives in iteration
    [n]. *)
Variable strftime : nat → string.

(** Lines 60-64.  [file] is the image of the file converted to RGB,
    [None] when it cannot be opened; [frame_shape] is (rows, columns). *)
Definition load_background (file : option (image (px Z)))
  (frame_shape : nat * nat) : failure + image (px Z) :=
  match file with
  | None => inl ImageOpenError
  | Some bg =>
      let bg := PIL_resize bg frame_shape.2 frame_shape.1 in
      inr (map2d reverse_channels bg)
  end.

(** Lines 106-119: the background of one iteration. *)
Definition select_background (bg_mode : nat) (bg_img : image (px Z))
  (bg_vid_cap : VideoCapture) (frame : image (px Z)) (frame_shape : nat * nat)
  : image (px Z) * VideoCapture * list event :=
  if (bg_mode =? 0)%nat then (bg_img, bg_vid_cap, [])
  else if (bg_mode =? 1)%nat then
    let '(bg, vid) := read bg_vid_cap in
    let '(bg, vid) :=
      match bg with
      | None => read (rewind vid)
      | Some _ => (bg, vid)
      end in
    match bg with
    | None =>
        (zeros_like frame, vid,
         [Print "Warning: Could not read background video frame. Using black background."])
    | Some bg => (cv2_resize bg frame_shape.2 frame_shape.1, vid, [])
    end
  else (zeros_like frame, bg_vid_cap, []).

(** Lines 105-136: one iteration of the loop on the frame just read, in
    iteration number [n]. *)
Definition iteration (bg_img : image (px Z)) (frame_shape : nat * nat)
  (n : nat) (frame : image (px Z)) (st : loop_state) : control * loop_state :=
  let '(bg, vid, warning) :=
    select_background (bg_mode st) bg_img (bg_vid_cap st) frame frame_shape in
  match advanced_chroma_key BGR2HSV GaussianBlur_at frame bg
          ref.GREEN_LOWER ref.GREEN_UPPER FEATHER_RADIUS SPILL_SUPPRESS with
  | inl e =>
      (Raise e,
       {| bg_mode := bg_mode st; bg_vid_cap := vid; log := log st ++ warning |})
  | inr result =>
      let log := log st ++ warning ++ [Imshow result; Write result] in
      let key := Z.land (waitKey n) 255 in
      if key =? ord "q"%char then
        (Break, {| bg_mode := bg_mode st; bg_vid_cap := vid; log := log |})
      else if key =? ord "b"%char then
        (Continue,
         {| bg_mode := (bg_mode st + 1) mod 3; bg_vid_cap := vid; log := log |})
      else if key =? ord "s"%char then
        let snapshot_path :=
          path_join SNAPSHOT_FOLDER
            ("snapshot_" +:+ strftime n +:+ ".png") in
        (Continue,
         {| bg_mode := bg_mode st; bg_vid_cap := vid;
            log := log ++ [Imwrite snapshot_path result;
                           Print ("Snapshot saved at " +:+ snapshot_path +:+ ".")] |})
      else
        (Continue, {| bg_mode := bg_mode st; bg_vid_cap := vid; log := log |})
  end.

(** Lines 101-136: the loop over the frames the capture still has. *)
Fixpoint loop (bg_img : image (px Z)) (frame_shape : nat * nat)
  (remaining : list (image (px Z))) (n : nat) (st : loop_state)
  : option exn * loop_state :=
  match remaining with
  | [] => (None, st)
  | frame :: remaining =>
      match iteration bg_img frame_shape n frame st with
      | (Continue, st) => loop bg_img frame_shape remaining (S n) st
      | (Break, st) => (None, st)
      | (Raise e, st) => (Some e, st)
      end
  end.

(** Lines 73-139.  [cap] is what [cv2.VideoCapture(INPUT_VIDEO)] will
    deliver, [None] when it does not open; [file] is the background
    image file, [video] the frames of the background video (none when
    that file does not open).  [INPUT_VIDEO] is 0, not a string, so the
    audio block of lines 141-148 is not run. *)
Definition main (cap : option (list (image (px Z))))
  (file : option (image (px Z))) (video : list (image (px Z)))
  : option failure * list event :=
  match cap with
  | None => (None, [Print "Error: Cannot open video source."])
  | Some [] => (None, [Print "Error: Cannot read from video source."])
  | Some (frame :: remaining) =>
      let frame_shape := (height frame, width frame) in
      match load_background file frame_shape with
      | inl e => (Some e, [])
      | inr bg_img =>
          let st :=
            {| bg_mode := 0;
               bg_vid_cap := {| frames := video; pos := 0 |};
               log := [Print "Press 'b' to toggle background, 'q' to quit, 's' to save frame."] |} in
          let '(e, st) := loop bg_img frame_shape remaining 0 st in
          (KeyingError <$> e, log st)
      end
  end.

(** The backgrounds chosen by [n] successive iterations in video mode
    (frame of the iteration and warnings printed aside). *)
Fixpoint video_backgrounds (n : nat) (bg_img : image (px Z))
  (vid : VideoCapture) (frame : image (px Z)) (frame_shape : nat * nat)
  : list (image (px Z)) :=
  match n with
  | O => []
  | S n =>
      let '(bg, vid, _) := select_background 1 bg_img vid frame frame_shape in
      bg :: video_backgrounds n bg_img vid frame frame_shape
  end.

(** How many of the [len] iterations from number [n] on see the key
    [c]. *)
Definition presses (c : ascii) (n len : nat) : nat :=
  length (filter (λ i, Z.land (waitKey i) 255 = ord c) (seq n len)).

End Script.

(** The frames sent to the writer, to the window and to snapshot files. *)
Definition written (l : list event) : list (image (px Z)) :=
  omap (λ e, match e with Write f => Some f | _ => None end) l.

Definition shown (l : list event) : list (image (px Z)) :=
  omap (λ e, match e with Imshow f => Some f | _ => None end) l.

Definition snapshots (l : list event) : list (image (px Z)) :=
  omap (λ e, match e with Imwrite _ f => Some f | _ => None end) l.

(** ** A world to run the script in *)

Module world.

(** Nearest-neighbour resizing to [cols] columns and [rows] rows. *)
Definition resize (img : image (px Z)) (cols rows : nat) : image (px Z) :=
  fmap (M:=list) (λ i,
    fmap (M:=list) (λ j,
      default (Px 0 0 0)
        (at2 img (i * height img / rows) (j * width img / cols)))
      (seq 0 cols))
    (seq 0 rows).

(** The blur with a 1x1 kernel, which leaves the array as it is. *)
Definition no_blur (ksize : nat) (src : image Q) (i j : nat) : Q :=
  default 0%Q (at2 src i j).

(** Nobody touches the keyboard: [cv2.waitKey] returns -1. *)
Definition no_key (n : nat) : Z := -1.

(** 'b' is pressed in every iteration. *)
Definition always_b (n : nat) : Z := ord "b"%char.

(** 'q' is pressed in iteration 1 (the second one). *)
Definition q_at_1 (n : nat) : Z := if (n =? 1)%nat then ord "q"%char else -1.

Definition clock (n : nat) : string := "20240101_000000".

(** A 1x2 camera frame of key green and a 1x2 frame of red. *)
Definition green_frame : image (px Z) := [[Px 0 255 0; Px 0 255 0]].

Definition red_frame : image (px Z) := [[Px 0 0 255; Px 0 0 255]].

(** A 1x1 background file (RGB) and a background video of two 1x1
    frames. *)
Definition file : image (px Z) := [[Px 10 20 30]].

Definition video : list (image (px Z)) := [[[Px 1 1 1]]; [[Px 2 2 2]]].

End world.

(** ** Rounding to a binary floating-point format

    A finite float is the rational it denotes.  [round prec emin] rounds
    a rational to the nearest number [k * 2 ^ e] with [|k| < 2 ^ prec]
    and [emin <= e], ties to the even [k]: the rounding of an IEEE 754
    binary format with [prec] significant bits whose smallest subnormal
    is [2 ^ emin].  Overflow to infinity is left out; the values of
    lines 47-55 stay far below it. *)

Module ieee.

Definition pow2 (k : Z) : Q := (2 ^ k)%Q.

(** [exponent q], for positive [q], is the integer [e] with
    [2 ^ e <= q < 2 ^ (e + 1)]. *)
Definition exponent (q : Q) : Z :=
  let e0 := Z.log2 (Qnum q) - Z.log2 (Zpos (Qden q)) - 1 in
  if Qle_bool (pow2 (e0 + 1)) q then e0 + 1 else e0.

(** The nearest integer, the even one of the two at a tie. *)
Definition nearest_even (q : Q) : Z :=
  let f := Qfloor q in
  match (q - inject_Z f ?= 1 # 2)%Q with
  | Lt => f
  | Gt => f + 1
  | Eq => if Z.even f then f else f + 1
  end.

Definition round_pos (prec emin : Z) (q : Q) : Q :=
  let e := Z.max (exponent q - (prec - 1)) emin in
  Qred (inject_Z (nearest_even (q / pow2 e)) * pow2 e)%Q.

Definition round (prec emin : Z) (q : Q) : Q :=
  match (q ?= 0)%Q with
  | Eq => 0%Q
  | Gt => round_pos prec emin q
  | Lt => (- round_pos prec emin (- q))%Q
  end.

(** float32, and the double precision of a Python float. *)
Definition binary32 : Q → Q := round 24 (-149).
Definition binary64 : Q → Q := round 53 (-1074).

End ieee.

(** What the proofs below use of a rounding: on non-negative numbers it
    keeps the sign and moves its argument by at most the relative error
    [u] plus the absolute error [η] (the latter covers the subnormal
    range). *)
Record rounding (u η : Q) (rnd : Q → Q) : Prop := Rounding {
  rounding_nonneg : ∀ x, (0 <= x → 0 <= rnd x)%Q;
  rounding_upper : ∀ x, (0 <= x → rnd x <= x * (1 + u) + η)%Q;
  rounding_lower : ∀ x, (0 <= x → x * (1 - u) - η <= rnd x)%Q }.

(** Half an ulp of 1 and half the smallest subnormal, for the two
    formats. *)
Definition float32_rounding (rnd : Q → Q) : Prop :=
  rounding (ieee.pow2 (-24)) (ieee.pow2 (-150)) rnd.

Definition float64_rounding (rnd : Q → Q) : Prop :=
  rounding (ieee.pow2 (-53)) (ieee.pow2 (-1075)) rnd.

(** ** The transform with float32 rounding

    Every float32 operation of lines 49-54 rounds its exact result with
    [rnd]; the subtraction [1 - spill_suppress] of line 51 is one on
    Python floats and rounds with [rnd64], and a Python float that meets
    a float32 array is first converted to float32.  The quotients of
    line 39 are 0/255 and 255/255, which no rounding changes, and the
    minima and maxima of lines 41-45 return one of their arguments: the
    stages of the mask are the ones above.  [cv2.GaussianBlur] accepts
    an odd positive kernel size only. *)

Module f32.
Section Rounded.

Variable BGR2HSV : px Z → px Z.
Variable GaussianBlur_at : nat → image Q → nat → nat → Q.

(** Rounding to float32, and to the double precision of Python floats. *)
Variable rnd : Q → Q.
Variable rnd64 : Q → Q.

Definition add (x y : Q) : Q := rnd (x + y).
Definition sub (x y : Q) : Q := rnd (x - y).
Definition mul (x y : Q) : Q := rnd (x * y).
Definition div (x y : Q) : Q := rnd (x / y).

(** [x.astype(np.uint8)] on a float32 value: the fraction is dropped;
    what fits a 32-bit integer is reduced modulo 256, anything larger
    becomes 0. *)
Definition uint8 (q : Q) : Z :=
  let t := np.trunc q in
  if (- 2 ^ 31 <=? t) && (t <? 2 ^ 31) then t mod 256 else 0.

Definition astype_uint8 (a : image (px Q)) : image (px Z) :=
  map2d (px_map uint8) a.

(** Line 40, with the check on the kernel size. *)
Definition GaussianBlur (src : image Q) (ksize : nat) : result (image Q) :=
  if Nat.odd ksize then inr (GaussianBlur GaussianBlur_at src ksize)
  else inl cv2_error.

(** Lines 37-45. *)
Definition soft_mask (frame : image (px Z)) (green_lower green_upper : px Z)
  (feather_radius : nat) : result (image Q) :=
  mask ← threshold_mask BGR2HSV frame green_lower green_upper;
  mask ← GaussianBlur mask feather_radius;
  let mask := np.clip mask 0 1 in
  inr (cleanup_mask mask).

(** Line 50.  The Python float 0.05 is compared as a float32. *)
Definition spill_mask_of (green red_blue mask : image Q) : image bool :=
  zip2d andb (zip2d np.gt green red_blue)
    (map2d (λ m, np.gt m (rnd 0.05%Q)) mask).

(** Lines 47-51. *)
Definition decontaminate (frame : image (px Z)) (mask : image Q)
  (spill_suppress : Q) : image (px Q) :=
  let frame_no_spill := np.astype_float32 frame in
  let green := channel ch1 frame_no_spill in
  let red_blue :=
    map2d (λ v, div v 2)
      (zip2d add (channel ch0 frame_no_spill) (channel ch2 frame_no_spill)) in
  let spill_mask := spill_mask_of green red_blue mask in
  let rhs :=
    zip_with add
      (fmap (M:=list) (λ v, mul v (rnd (rnd64 (1 - spill_suppress))))
         (np.getitem_bool red_blue spill_mask))
      (fmap (M:=list) (λ v, mul v (rnd spill_suppress))
         (np.getitem_bool (channel ch1 frame_no_spill) spill_mask)) in
  with_ch1 frame_no_spill
    (np.setitem_bool (channel ch1 frame_no_spill) spill_mask rhs).

(** Line 54. *)
Definition alpha_blend (frame_no_spill : image (px Q)) (mask_3c : image (px Q))
  (bg32 : image (px Q)) : result (image (px Q)) :=
  fg ← np.binop (px_zip mul) frame_no_spill
         (map2d (px_map (λ m, sub 1 m)) mask_3c);
  back ← np.binop (px_zip mul) bg32 mask_3c;
  np.binop (px_zip add) fg back.

(** Lines 37-55. *)
Definition advanced_chroma_key (frame bg : image (px Z))
  (green_lower green_upper : px Z) (feather_radius : nat)
  (spill_suppress : Q) : result (image (px Z)) :=
  mask ← soft_mask frame green_lower green_upper feather_radius;
  let frame_no_spill := decontaminate frame mask spill_suppress in
  let mask_3c := np.stack3 mask in
  res ← alpha_blend frame_no_spill mask_3c (np.astype_float32 bg);
  inr (astype_uint8 res).

(** The array statements at one pixel: line 50, lines 47-51, line 54. *)
Definition spill_px (p : px Q) (m : Q) : bool :=
  np.gt (ch1 p) (div (add (ch0 p) (ch2 p)) 2) && np.gt m (rnd 0.05%Q).

Definition decontaminate_px (spill_suppress : Q) (p : px Z) (m : Q) : px Q :=
  let q := px_map np.float32 p in
  let red_blue := div (add (ch0 q) (ch2 q)) 2 in
  Px (ch0 q)
     (if spill_px q m
      then add (mul red_blue (rnd (rnd64 (1 - spill_suppress))))
             (mul (ch1 q) (rnd spill_suppress))
      else ch1 q)
     (ch2 q).

Definition blend (f m b : Q) : Q := add (mul f (sub 1 m)) (mul b m).

Definition blend_px (f : px Q) (m : Q) (b : px Q) : px Q :=
  Px (blend (ch0 f) m (ch0 b)) (blend (ch1 f) m (ch1 b))
     (blend (ch2 f) m (ch2 b)).

End Rounded.
End f32.

(** A float32 value the conversion to uint8 does not wrap. *)
Definition below_256 (q : Q) : Prop := (0 <= q < 256)%Q.

(** A finite float32 value. *)
Definition finite (q : Q) : Prop := (- cv2.FLT_MAX <= q <= cv2.FLT_MAX)%Q.

(** ** Minimum and maximum over a 3x3 window

    What an erosion (a dilation) pass with the full 3x3 structuring
    element is to compute at a pixel: the least (greatest) of the values
    at the pixel and at its neighbours inside the array, at most nine
    positions. *)

Definition near (a b : nat) : Prop := (a ≤ b + 1 ∧ b ≤ a + 1)%nat.

Definition window_min (src : image Q) (i j : nat) (v : Q) : Prop :=
  (∀ i' j' y, near i i' → near j j' → at2 src i' j' = Some y → v <= y)%Q
  ∧ ∃ i' j' y, near i i' ∧ near j j' ∧ at2 src i' j' = Some y ∧ (v == y)%Q.

Definition window_max (src : image Q) (i j : nat) (v : Q) : Prop :=
  (∀ i' j' y, near i i' → near j j' → at2 src i' j' = Some y → y <= v)%Q
  ∧ ∃ i' j' y, near i i' ∧ near j j' ∧ at2 src i' j' = Some y ∧ (v == y)%Q.

(** ** Frames for the float32 runs *)

Module sample32.

(** One row: three key pixels, then three pixels [p]. *)
Definition row (p : px Z) : image (px Z) :=
  [[sample.green; sample.green; sample.green; p; p; p]].

(** A pixel outside the key range (value 13) with green above the
    red/blue average, and one (saturation 1) whose green 255 is just
    above its average 254.5. *)
Definition dim : px Z := Px 3 13 3.
Definition pale : px Z := Px 254 255 255.

(** One row of six pixels [p]. *)
Definition flat (p : px Z) : image (px Z) := [[p; p; p; p; p; p]].

(** The Python floats written [0.7] and [0.9999914472513989]. *)
Definition s_0_7 : Q := ieee.binary64 0.7%Q.
Definition s_near_1 : Q := ieee.binary64 0.9999914472513989%Q.

End sample32.

(** ** Arrays: lookups *)

Section Lookup.
Context {A B C : Type}.

Lemma rect_lookup h w (a : image A) i r :
  rect h w a → a !! i = Some r → length r = w.
Proof.
  intros [_ Hall] Hi. rewrite Forall_lookup in Hall. by apply (Hall i).
Qed.

Lemma rect_at2 h w (a : image A) i j :
  rect h w a → (i < h)%nat → (j < w)%nat → is_Some (at2 a i j).
Proof.
  intros Hr Hi Hj. unfold at2.
  destruct (lookup_lt_is_Some_2 a i) as [r Hri]; [destruct Hr; lia|].
  rewrite Hri. simpl. apply lookup_lt_is_Some_2.
  by rewrite (rect_lookup _ _ _ _ _ Hr Hri).
Qed.

Lemma at2_bounds h w (a : image A) i j x :
  rect h w a → at2 a i j = Some x → (i < h)%nat ∧ (j < w)%nat.
Proof.
  intros Hr. unfold at2. destruct (a !! i) as [r|] eqn:Hri; [|done].
  simpl. intros Hj. split.
  - destruct Hr as [<- _]. by eapply lookup_lt_Some.
  - rewrite <- (rect_lookup _ _ _ _ _ Hr Hri). by eapply lookup_lt_Some.
Qed.

Lemma at2_map2d (f : A → B) (a : image A) i j :
  at2 (map2d f a) i j = f <$> at2 a i j.
Proof.
  unfold at2, map2d. rewrite list_lookup_fmap.
  destruct (a !! i) as [r|]; simpl; [|done]. by rewrite list_lookup_fmap.
Qed.

Lemma at2_zip2d (f : A → B → C) (a : image A) (b : image B) i j x y :
  at2 a i j = Some x → at2 b i j = Some y →
  at2 (zip2d f a b) i j = Some (f x y).
Proof.
  unfold at2, zip2d. rewrite lookup_zip_with.
  destruct (a !! i) as [r|]; simpl; [|done].
  destruct (b !! i) as [r'|]; simpl; [|done].
  intros Hx Hy. rewrite lookup_zip_with, Hx. simpl. by rewrite Hy.
Qed.

Lemma at2_imap2d (f : nat → nat → A → B) (a : image A) i j :
  at2 (imap2d f a) i j = f i j <$> at2 a i j.
Proof.
  unfold at2, imap2d. rewrite list_lookup_imap.
  destruct (a !! i) as [r|]; simpl; [|done]. by rewrite list_lookup_imap.
Qed.

Lemma rect_map2d h w (f : A → B) (a : image A) :
  rect h w a → rect h w (map2d f a).
Proof.
  intros [Hh Hw]. split; unfold map2d.
  - by rewrite length_fmap.
  - rewrite Forall_fmap. eapply Forall_impl; [done|].
    intros r Hr. simpl. by rewrite length_fmap.
Qed.

Lemma rect_imap2d h w (f : nat → nat → A → B) (a : image A) :
  rect h w a → rect h w (imap2d f a).
Proof.
  intros [Hh Hw]. split; unfold imap2d.
  - by rewrite length_imap.
  - rewrite Forall_lookup. intros i r. rewrite list_lookup_imap.
    destruct (a !! i) as [r'|] eqn:Hi; simpl; [|done].
    intros [= <-]. rewrite length_imap.
    rewrite Forall_lookup in Hw. by apply (Hw i).
Qed.

Lemma rect_zip2d h w (f : A → B → C) (a : image A) (b : image B) :
  rect h w a → rect h w b → rect h w (zip2d f a b).
Proof.
  intros [Hh Hw] [Hh' Hw']. split; unfold zip2d.
  - rewrite length_zip_with. lia.
  - rewrite Forall_lookup. intros i r. rewrite lookup_zip_with.
    destruct (a !! i) as [ra|] eqn:Ha; simpl; [|done].
    destruct (b !! i) as [rb|] eqn:Hb; simpl; [|done].
    intros [= <-]. rewrite length_zip_with.
    rewrite Forall_lookup in Hw. rewrite Forall_lookup in Hw'.
    specialize (Hw i _ Ha). specialize (Hw' i _ Hb). simpl in *. lia.
Qed.

Lemma all2d_at2 (P : A → Prop) (a : image A) :
  all2d P a ↔ ∀ i j x, at2 a i j = Some x → P x.
Proof.
  unfold all2d, at2. rewrite Forall_lookup. split.
  - intros H i j x. destruct (a !! i) as [r|] eqn:Hi; simpl; [|done].
    intros Hj. specialize (H i r Hi). rewrite Forall_lookup in H. eauto.
  - intros H i r Hi. rewrite Forall_lookup. intros j x Hj.
    apply (H i j x). by rewrite Hi.
Qed.

End Lookup.

Lemma all2d_map2d {A B} (P : A → Prop) (R : B → Prop) (f : A → B) (a : image A) :
  (∀ x, P x → R (f x)) → all2d P a → all2d R (map2d f a).
Proof.
  intros Hf Ha. apply all2d_at2. intros i j y. rewrite at2_map2d.
  destruct (at2 a i j) as [x|] eqn:Hx; simpl; [|done]. intros [= <-].
  apply Hf. rewrite all2d_at2 in Ha. by eapply Ha.
Qed.

Lemma map2d_ext_all2d {A B} (f g : A → B) (a : image A) :
  all2d (λ x, f x = g x) a → map2d f a = map2d g a.
Proof.
  intros Ha. unfold map2d. apply Forall_fmap_ext.
  eapply Forall_impl; [exact Ha|]. intros r Hr. simpl.
  by apply Forall_fmap_ext.
Qed.


Lemma rect_cons {A} h w (r : list A) (a : image A) :
  rect (S h) w (r :: a) ↔ length r = w ∧ rect h w a.
Proof.
  unfold rect. rewrite Forall_cons. simpl. split.
  - intros [Hl [Hr Ha]]. repeat split; [done|lia|done].
  - intros [Hr [Hl Ha]]. repeat split; [lia|done|done].
Qed.

Lemma rect_nil_inv {A} h w (a : image A) : rect h w a → h = O → a = [].
Proof. intros [Hl _] ->. by destruct a. Qed.

(** ** Boolean-mask indexing *)

Section MaskedAssignment.
Context {A : Type} (g : A → A → A).

Lemma take_where_length (m : list bool) (b c : list A) :
  length b = length m → length c = length m →
  length (np.take_where m b) = length (np.take_where m c).
Proof.
  revert b c. induction m as [|mk m IH]; intros [|y b] [|z c]; simpl; try done.
  intros [= Hb] [= Hc]. destruct mk; simpl; auto.
Qed.

Lemma put_where_spec (m : list bool) (l b c rest : list A) :
  length l = length m → length b = length m → length c = length m →
  ∃ r : list A, np.put_where m l
         (zip_with g (np.take_where m b) (np.take_where m c) ++ rest)
       = (r, rest)
     ∧ length r = length m
     ∧ ∀ (j : nat) (mk : bool) (x y z : A), m !! j = Some mk → l !! j = Some x →
         b !! j = Some y → c !! j = Some z →
         r !! j = Some (if mk then g y z else x).
Proof.
  revert l b c. induction m as [|mk m IH]; intros [|x l] [|y b] [|z c];
    simpl; try done.
  - intros _ _ _. exists (@nil A). by split.
  - intros [= Hl] [= Hb] [= Hc].
    destruct (IH l b c Hl Hb Hc) as (r & Hr & Hlen & Hat).
    destruct mk; simpl; rewrite Hr.
    + exists (g y z :: r). split; [done|]. split; [simpl; lia|].
      intros [|j] mk x' y' z'; simpl.
      * by intros [= <-] [= <-] [= <-] [= <-].
      * apply Hat.
    + exists (x :: r). split; [done|]. split; [simpl; lia|].
      intros [|j] mk x' y' z'; simpl.
      * by intros [= <-] [= <-] [= <-] [= <-].
      * apply Hat.
Qed.

Lemma setitem_bool_spec h w (m : image bool) (a b c : image A) :
  rect h w m → rect h w a → rect h w b → rect h w c →
  rect h w (np.setitem_bool a m
              (zip_with g (np.getitem_bool b m) (np.getitem_bool c m)))
  ∧ ∀ (i j : nat) (mk : bool) (x y z : A), at2 m i j = Some mk → at2 a i j = Some x →
      at2 b i j = Some y → at2 c i j = Some z →
      at2 (np.setitem_bool a m
             (zip_with g (np.getitem_bool b m) (np.getitem_bool c m))) i j
      = Some (if mk then g y z else x).
Proof.
  revert h a b c. induction m as [|mr m IH]; intros h a b c Hm Ha Hb Hc.
  - destruct Hm as [<- _].
    rewrite (rect_nil_inv _ _ _ Ha eq_refl). simpl. split; [by split|].
    intros i j mk x y z. unfold at2. by rewrite lookup_nil.
  - destruct h as [|h]; [by destruct Hm|].
    destruct a as [|ra a]; [by destruct Ha|].
    destruct b as [|rb b]; [by destruct Hb|].
    destruct c as [|rc c]; [by destruct Hc|].
    apply rect_cons in Hm as [Hmr Hm]. apply rect_cons in Ha as [Hra Ha].
    apply rect_cons in Hb as [Hrb Hb]. apply rect_cons in Hc as [Hrc Hc].
    unfold np.getitem_bool. simpl. fold (np.getitem_bool b m).
    fold (np.getitem_bool c m).
    rewrite zip_with_app
      by (apply take_where_length; congruence).
    destruct (put_where_spec mr ra rb rc
                (zip_with g (np.getitem_bool b m) (np.getitem_bool c m)))
      as (r & -> & Hlen & Hat); [congruence..|].
    destruct (IH h a b c Hm Ha Hb Hc) as [Hrect Hrest].
    split.
    + apply rect_cons. split; [congruence|done].
    + intros [|i] j mk x y z; unfold at2; simpl.
      * apply Hat.
      * apply Hrest.
Qed.

End MaskedAssignment.

(** ** Broadcasting *)

Lemma stretch_length {A} n (l : list A) : length l = n → np.stretch n l = l.
Proof. intros <-. by destruct l as [|x [|y l]]. Qed.

Lemma broadcast_to_rect {A} h w (a : image A) :
  rect h w a → np.broadcast_to h w a = a.
Proof.
  intros [Hh Hw]. unfold np.broadcast_to.
  assert (fmap (M:=list) (np.stretch w) a = a) as Hfix.
  { clear Hh. induction Hw as [|r a Hr Ha IH]; [done|].
    rewrite fmap_cons, IH. by rewrite stretch_length. }
  rewrite Hfix. by apply stretch_length.
Qed.

Lemma width_rect {A} h w (a : image A) : rect h w a → (0 < h)%nat → width a = w.
Proof.
  intros [Hh Hw] Hpos. destruct a as [|r a]; simpl in *; [lia|].
  by inversion Hw.
Qed.

Lemma broadcast_dim_same n : np.broadcast_dim n n = Some n.
Proof. unfold np.broadcast_dim. by rewrite Nat.eqb_refl. Qed.

Lemma binop_same_shape {A B C} (f : A → B → C) h w (a : image A) (b : image B) :
  rect h w a → rect h w b → np.binop f a b = inr (zip2d f a b).
Proof.
  intros Ha Hb. unfold np.binop, height.
  destruct Ha as [Hh Hw]. destruct Hb as [Hh' Hw'].
  rewrite Hh, Hh', broadcast_dim_same.
  destruct h as [|h].
  - destruct a; [|done]. destruct b; [|done]. done.
  - rewrite (width_rect (S h) w a), (width_rect (S h) w b) by (done || lia).
    rewrite broadcast_dim_same.
    by rewrite !broadcast_to_rect.
Qed.

(** ** Conversion to uint8 *)

Lemma trunc_proper q q' : (q == q')%Q → np.trunc q = np.trunc q'.
Proof.
  unfold Qeq, np.trunc. destruct q as [n d], q' as [n' d']. simpl. intros H.
  rewrite <- (Z.quot_mul_cancel_r n (Zpos d) (Zpos d')) by done.
  rewrite H, (Z.mul_comm (Zpos d) (Zpos d')).
  by rewrite Z.quot_mul_cancel_r.
Qed.

Lemma uint8_proper q q' : (q == q')%Q → np.uint8 q = np.uint8 q'.
Proof. intros H. unfold np.uint8. by rewrite (trunc_proper q q'). Qed.

Lemma trunc_float32 v : np.trunc (np.float32 v) = v.
Proof. unfold np.trunc, np.float32. simpl. apply Z.quot_1_r. Qed.

Lemma uint8_float32 v : is_uint8 v → np.uint8 (np.float32 v) = v.
Proof.
  intros Hv. unfold np.uint8. rewrite trunc_float32.
  apply Z.mod_small. unfold is_uint8 in Hv. lia.
Qed.

Lemma trunc_byte_range q : byte_range q → is_uint8 (np.trunc q).
Proof.
  unfold byte_range, is_uint8, np.trunc, Qle. destruct q as [n d]. simpl.
  intros [H0 H255]. rewrite Z.quot_div_nonneg by lia. split.
  - apply Z.div_pos; lia.
  - apply Z.div_le_upper_bound; lia.
Qed.

(** In the byte range the conversion does not wrap. *)
Lemma uint8_byte_range q : byte_range q → np.uint8 q = np.trunc q.
Proof.
  intros Hq. apply trunc_byte_range in Hq. unfold np.uint8.
  apply Z.mod_small. unfold is_uint8 in Hq. lia.
Qed.

Lemma float32_byte_range v : is_uint8 v → byte_range (np.float32 v).
Proof.
  unfold is_uint8, byte_range, np.float32, Qle. simpl. lia.
Qed.

(** ** Erosion and dilation *)

Lemma offsets_ones3 :
  cv2.offsets (np.ones 3 3)
  = [(-1, -1); (-1, 0); (-1, 1); (0, -1); (0, 0); (0, 1); (1, -1); (1, 0); (1, 1)].
Proof. reflexivity. Qed.

Lemma foldr_Qmin_lower lo b (l : list Q) :
  (lo <= b)%Q → Forall (λ v, lo <= v)%Q l → (lo <= foldr Qmin b l)%Q.
Proof.
  intros Hb Hl. induction Hl as [|v l Hv Hl IH]; simpl; [done|].
  by apply Q.min_glb.
Qed.

Lemma foldr_Qmin_le b (l : list Q) v : v ∈ l → (foldr Qmin b l <= v)%Q.
Proof.
  induction 1 as [v l|v w l Hin IH]; simpl.
  - apply Q.le_min_l.
  - eapply Qle_trans; [apply Q.le_min_r|done].
Qed.

Lemma foldr_Qmax_upper hi b (l : list Q) :
  (b <= hi)%Q → Forall (λ v, v <= hi)%Q l → (foldr Qmax b l <= hi)%Q.
Proof.
  intros Hb Hl. induction Hl as [|v l Hv Hl IH]; simpl; [done|].
  by apply Q.max_lub.
Qed.

Lemma foldr_Qmax_ge b (l : list Q) v : v ∈ l → (v <= foldr Qmax b l)%Q.
Proof.
  induction 1 as [v l|v w l Hin IH]; simpl.
  - apply Q.le_max_l.
  - eapply Qle_trans; [done|apply Q.le_max_r].
Qed.

Lemma at_border_cases (src : image Q) border i j :
  cv2.at_border src border i j = border
  ∨ ∃ i' j', at2 src i' j' = Some (cv2.at_border src border i j).
Proof.
  unfold cv2.at_border. destruct (_ || _); [by left|].
  destruct (at2 src (Z.to_nat i) (Z.to_nat j)) as [x|] eqn:Hx; simpl.
  - right. by exists (Z.to_nat i), (Z.to_nat j).
  - by left.
Qed.

Lemma at_border_centre (src : image Q) border i j x :
  at2 src i j = Some x →
  cv2.at_border src border (Z.of_nat i + 0) (Z.of_nat j + 0) = x.
Proof.
  intros Hx. unfold cv2.at_border. rewrite !Z.add_0_r.
  destruct (Z.ltb_spec (Z.of_nat i) 0); [lia|].
  destruct (Z.ltb_spec (Z.of_nat j) 0); [lia|].
  simpl. by rewrite !Nat2Z.id, Hx.
Qed.

Lemma neighbours_cases (P : Q → Prop) (src : image Q) border offs i j :
  P border → all2d P src →
  Forall P (cv2.neighbours src border offs i j).
Proof.
  intros Hb Hsrc. unfold cv2.neighbours. rewrite Forall_fmap.
  apply Forall_forall. intros d _. simpl.
  destruct (at_border_cases src border (Z.of_nat i + d.1) (Z.of_nat j + d.2))
    as [->|(i' & j' & Hat)]; [done|].
  rewrite all2d_at2 in Hsrc. by eapply Hsrc.
Qed.

Lemma neighbours_centre (src : image Q) border offs i j x :
  (0, 0) ∈ offs → at2 src i j = Some x →
  x ∈ cv2.neighbours src border offs i j.
Proof.
  intros Hin Hx. unfold cv2.neighbours.
  apply list_elem_of_fmap. exists (0, 0). split; [|done].
  simpl. by rewrite (at_border_centre src border i j x).
Qed.

Lemma FLT_MAX_ge_1 : (1 <= cv2.FLT_MAX)%Q.
Proof. unfold cv2.FLT_MAX, Qle. simpl. lia. Qed.

Lemma erode1_unit_interval kernel (src : image Q) :
  (0, 0) ∈ cv2.offsets kernel →
  all2d unit_interval src → all2d unit_interval (cv2.erode1 kernel src).
Proof.
  intros Hc Hsrc. apply all2d_at2. intros i j y.
  unfold cv2.erode1. rewrite at2_imap2d.
  destruct (at2 src i j) as [x|] eqn:Hx; simpl; [|done]. intros [= <-].
  pose proof FLT_MAX_ge_1 as Hmax.
  assert (unit_interval x) as [Hx0 Hx1].
  { rewrite all2d_at2 in Hsrc. by eapply Hsrc. }
  split.
  - apply foldr_Qmin_lower; [lra|].
    apply (neighbours_cases (λ v, 0 <= v)%Q); [lra|].
    eapply Forall_impl; [exact Hsrc|]. intros r Hr.
    eapply Forall_impl; [exact Hr|]. by intros v [Hv _].
  - eapply Qle_trans; [|exact Hx1].
    apply foldr_Qmin_le. by eapply neighbours_centre.
Qed.

Lemma dilate1_unit_interval kernel (src : image Q) :
  (0, 0) ∈ cv2.offsets kernel →
  all2d unit_interval src → all2d unit_interval (cv2.dilate1 kernel src).
Proof.
  intros Hc Hsrc. apply all2d_at2. intros i j y.
  unfold cv2.dilate1. rewrite at2_imap2d.
  destruct (at2 src i j) as [x|] eqn:Hx; simpl; [|done]. intros [= <-].
  pose proof FLT_MAX_ge_1 as Hmax.
  assert (unit_interval x) as [Hx0 Hx1].
  { rewrite all2d_at2 in Hsrc. by eapply Hsrc. }
  split.
  - eapply Qle_trans; [exact Hx0|].
    apply foldr_Qmax_ge. by eapply neighbours_centre.
  - apply foldr_Qmax_upper; [lra|].
    apply (neighbours_cases (λ v, v <= 1)%Q); [lra|].
    eapply Forall_impl; [exact Hsrc|]. intros r Hr.
    eapply Forall_impl; [exact Hr|]. by intros v [_ Hv].
Qed.

Lemma centre_in_ones3 : (0, 0) ∈ cv2.offsets (np.ones 3 3).
Proof. rewrite offsets_ones3. set_solver. Qed.

(** ** The stages of the transform *)

Section Stages.

Variable BGR2HSV : px Z → px Z.
Variable GaussianBlur_at : nat → image Q → nat → nat → Q.


Lemma empty_rect {A} h w (a : image A) :
  rect h w a → (0 < h)%nat → (0 < w)%nat → cv2.empty a = false.
Proof.
  intros Ha Hh Hw. unfold cv2.empty, height.
  rewrite (width_rect h w a Ha Hh). destruct Ha as [-> _].
  apply orb_false_intro; apply Nat.eqb_neq; lia.
Qed.

Lemma cvtColor_rect h w frame :
  rect h w frame → (0 < h)%nat → (0 < w)%nat →
  cvtColor BGR2HSV frame = inr (map2d BGR2HSV frame).
Proof. intros. unfold cvtColor. by erewrite empty_rect. Qed.

Lemma threshold_mask_inv frame lo hi mask :
  threshold_mask BGR2HSV frame lo hi = inr mask →
  mask = map2d (λ v, np.float32 v / 255)%Q
           (cv2.inRange (map2d BGR2HSV frame) lo hi).
Proof.
  unfold threshold_mask, cvtColor.
  destruct (cv2.empty frame); simpl; congruence.
Qed.

Lemma threshold_mask_rect h w frame lo hi mask :
  rect h w frame → threshold_mask BGR2HSV frame lo hi = inr mask → rect h w mask.
Proof.
  intros Hf Hm. apply threshold_mask_inv in Hm as ->.
  unfold cv2.inRange. by repeat apply rect_map2d.
Qed.

Lemma feather_mask_rect h w mask k :
  rect h w mask → rect h w (feather_mask GaussianBlur_at mask k).
Proof.
  intros Hm. unfold feather_mask, np.clip, GaussianBlur.
  by apply rect_map2d, rect_imap2d.
Qed.

Lemma erode_rect h w mask kernel n :
  rect h w mask → rect h w (cv2.erode mask kernel n).
Proof.
  intros Hm. unfold cv2.erode. induction n as [|n IH]; simpl; [done|].
  by apply rect_imap2d.
Qed.

Lemma dilate_rect h w mask kernel n :
  rect h w mask → rect h w (cv2.dilate mask kernel n).
Proof.
  intros Hm. unfold cv2.dilate. induction n as [|n IH]; simpl; [done|].
  by apply rect_imap2d.
Qed.

Lemma cleanup_mask_rect h w mask :
  rect h w mask → rect h w (cleanup_mask mask).
Proof. intros Hm. unfold cleanup_mask. by apply dilate_rect, erode_rect. Qed.

Lemma soft_mask_inv frame lo hi k mask :
  soft_mask BGR2HSV GaussianBlur_at frame lo hi k = inr mask →
  ∃ t, threshold_mask BGR2HSV frame lo hi = inr t
     ∧ mask = cleanup_mask (feather_mask GaussianBlur_at t k).
Proof.
  unfold soft_mask.
  destruct (threshold_mask BGR2HSV frame lo hi) as [e|t]; simpl; [done|].
  intros [= <-]. by exists t.
Qed.

Lemma soft_mask_rect h w frame lo hi k mask :
  rect h w frame → soft_mask BGR2HSV GaussianBlur_at frame lo hi k = inr mask → rect h w mask.
Proof.
  intros Hf Hm. apply soft_mask_inv in Hm as (t & Ht & ->).
  eapply cleanup_mask_rect, feather_mask_rect, threshold_mask_rect; eauto.
Qed.

Lemma soft_mask_total h w frame lo hi k :
  rect h w frame → (0 < h)%nat → (0 < w)%nat →
  ∃ mask, soft_mask BGR2HSV GaussianBlur_at frame lo hi k = inr mask ∧ rect h w mask.
Proof.
  intros Hf Hh Hw. unfold soft_mask, threshold_mask.
  rewrite (cvtColor_rect h w) by done. simpl. eexists. split; [done|].
  apply cleanup_mask_rect, feather_mask_rect.
  unfold cv2.inRange. by repeat apply rect_map2d.
Qed.

(** *** Decontamination, pixel by pixel *)

Lemma decontaminate_rect h w frame mask s :
  rect h w frame → rect h w mask → rect h w (decontaminate frame mask s).
Proof.
  intros Hf Hm. unfold decontaminate.
  rewrite zip_with_fmap_l, zip_with_fmap_r.
  set (fns := np.astype_float32 frame).
  assert (rect h w fns) as Hfns by by apply rect_map2d.
  assert (rect h w (channel ch1 fns)) as Hg by by apply rect_map2d.
  set (rb := map2d _ (zip2d Qplus _ _)).
  assert (rect h w rb) as Hrb.
  { apply rect_map2d, rect_zip2d; by apply rect_map2d. }
  assert (rect h w (spill_mask_of (channel ch1 fns) rb mask)) as Hsm.
  { unfold spill_mask_of. repeat apply rect_zip2d; try done.
    by apply rect_map2d. }
  unfold with_ch1. apply rect_zip2d; [done|].
  by apply setitem_bool_spec.
Qed.

Lemma decontaminate_at h w frame mask s i j p m :
  rect h w frame → rect h w mask →
  at2 frame i j = Some p → at2 mask i j = Some m →
  at2 (decontaminate frame mask s) i j = Some (decontaminate_px s p m).
Proof.
  intros Hf Hm Hp Hmk. unfold decontaminate.
  rewrite zip_with_fmap_l, zip_with_fmap_r.
  set (fns := np.astype_float32 frame).
  assert (rect h w fns) as Hfns by by apply rect_map2d.
  assert (at2 fns i j = Some (px_map np.float32 p)) as Hq.
  { unfold fns, np.astype_float32. by rewrite at2_map2d, Hp. }
  assert (rect h w (channel ch1 fns)) as Hg by by apply rect_map2d.
  assert (at2 (channel ch1 fns) i j = Some (np.float32 (ch1 p))) as Hgat.
  { unfold channel. by rewrite at2_map2d, Hq. }
  set (rb := map2d _ (zip2d Qplus _ _)).
  assert (rect h w rb) as Hrb.
  { apply rect_map2d, rect_zip2d; by apply rect_map2d. }
  assert (at2 rb i j
          = Some ((np.float32 (ch0 p) + np.float32 (ch2 p)) / 2)%Q) as Hrbat.
  { unfold rb. rewrite at2_map2d.
    erewrite at2_zip2d; [done|unfold channel; by rewrite at2_map2d, Hq..]. }
  set (sm := spill_mask_of (channel ch1 fns) rb mask).
  assert (rect h w sm) as Hsm.
  { unfold sm, spill_mask_of. repeat apply rect_zip2d; try done.
    by apply rect_map2d. }
  assert (at2 sm i j = Some (spill_px (px_map np.float32 p) m)) as Hsmat.
  { unfold sm, spill_mask_of.
    erewrite at2_zip2d; [done| |by rewrite at2_map2d, Hmk].
    by erewrite at2_zip2d. }
  unfold with_ch1.
  erewrite at2_zip2d; [|done|by eapply setitem_bool_spec].
  unfold decontaminate_px. simpl. by destruct (spill_px _ _).
Qed.

(** *** The blend, pixel by pixel *)

Lemma alpha_blend_same_shape h w (fns m3 b : image (px Q)) :
  rect h w fns → rect h w m3 → rect h w b →
  alpha_blend fns m3 b
  = inr (zip2d (px_zip Qplus)
           (zip2d (px_zip Qmult) fns (map2d (px_map (λ m, 1 - m)%Q) m3))
           (zip2d (px_zip Qmult) b m3)).
Proof.
  intros Hf Hm Hb. unfold alpha_blend.
  assert (rect h w (map2d (px_map (λ m, 1 - m)%Q) m3)) as Hm'
    by by apply rect_map2d.
  rewrite (binop_same_shape _ h w fns _ Hf Hm'). simpl.
  rewrite (binop_same_shape _ h w b m3 Hb Hm). simpl.
  apply (binop_same_shape _ h w); by apply rect_zip2d.
Qed.

Lemma alpha_blend_at h w (fns : image (px Q)) (mask : image Q)
    (b : image (px Q)) res i j f m x :
  rect h w fns → rect h w mask → rect h w b →
  alpha_blend fns (np.stack3 mask) b = inr res →
  at2 fns i j = Some f → at2 mask i j = Some m → at2 b i j = Some x →
  at2 res i j = Some (blend_px f m x).
Proof.
  intros Hf Hm Hb Hres Hfat Hmat Hbat.
  assert (rect h w (np.stack3 mask)) as Hm3 by by apply rect_map2d.
  rewrite (alpha_blend_same_shape h w) in Hres by done.
  injection Hres as <-.
  assert (at2 (np.stack3 mask) i j = Some (Px m m m)) as Hm3at.
  { unfold np.stack3. by rewrite at2_map2d, Hmat. }
  erewrite at2_zip2d; [done| |by erewrite at2_zip2d].
  erewrite at2_zip2d; [done|done|]. by rewrite at2_map2d, Hm3at.
Qed.

(** *** The whole transform on frames of one shape *)

Lemma advanced_chroma_key_same_shape h w frame bg lo hi k s :
  rect h w frame → rect h w bg → (0 < h)%nat → (0 < w)%nat →
  ∃ mask out,
    soft_mask BGR2HSV GaussianBlur_at frame lo hi k = inr mask
    ∧ rect h w mask
    ∧ advanced_chroma_key BGR2HSV GaussianBlur_at frame bg lo hi k s = inr out
    ∧ rect h w out
    ∧ ∀ i j p b m, at2 frame i j = Some p → at2 bg i j = Some b →
        at2 mask i j = Some m →
        at2 out i j
        = Some (px_map np.uint8
                  (blend_px (decontaminate_px s p m) m (px_map np.float32 b))).
Proof.
  intros Hf Hb Hh Hw.
  destruct (soft_mask_total h w frame lo hi k Hf Hh Hw) as (mask & Hmask & Hm).
  assert (rect h w (decontaminate frame mask s)) as Hd
    by by apply decontaminate_rect.
  assert (rect h w (np.stack3 mask)) as Hm3 by by apply rect_map2d.
  assert (rect h w (np.astype_float32 bg)) as Hb32 by by apply rect_map2d.
  exists mask. eexists. split; [done|]. split; [done|].
  unfold advanced_chroma_key. rewrite Hmask. simpl.
  rewrite (alpha_blend_same_shape h w) by done. simpl.
  split; [done|]. split.
  { apply rect_map2d, rect_zip2d; apply rect_zip2d; try done.
    by apply rect_map2d. }
  intros i j p b m Hp Hbat Hmat.
  unfold np.astype_uint8. rewrite at2_map2d.
  assert (at2 (np.astype_float32 bg) i j = Some (px_map np.float32 b)) as Hb32at.
  { unfold np.astype_float32. by rewrite at2_map2d, Hbat. }
  pose proof (decontaminate_at h w frame mask s i j p m Hf Hm Hp Hmat) as Hdat.
  by rewrite (alpha_blend_at h w _ mask _ _ i j _ m _ Hd Hm Hb32
                (alpha_blend_same_shape h w _ _ _ Hd Hm3 Hb32) Hdat Hmat Hb32at).
Qed.

(** *** The heap computation against the value computation *)

Lemma fresh_lookup (σ : gmap positive ndarray) : σ !! fresh (dom σ) = None.
Proof. apply not_elem_of_dom, is_fresh. Qed.

Lemma lookup_insert_old (σ : gmap positive ndarray) l l' n :
  σ !! l = None → is_Some (σ !! l') → <[l := n]> σ !! l' = σ !! l'.
Proof.
  intros Hl [n' Hl']. apply lookup_insert_ne. congruence.
Qed.

Lemma bind_bind {A B C} (m : M A) (f : A → M B) (k : B → M C) σ :
  bind (bind m f) k σ = bind m (λ x, bind (f x) k) σ.
Proof. unfold bind. by destruct (m σ) as [[[e|a] σ']|]. Qed.

Lemma bind_ret {A B} (a : A) (k : A → M B) σ : bind (ret a) k σ = k a σ.
Proof. done. Qed.

Lemma bind_lift_inr {A B} (a : A) (k : A → M B) σ :
  bind (lift (inr a)) k σ = k a σ.
Proof. done. Qed.

Lemma bind_lift_inl {A B} e (k : A → M B) σ :
  bind (lift (inl e)) k σ = Some (inl e, σ).
Proof. done. Qed.

Lemma bind_load {B} l n (k : ndarray → M B) σ :
  σ !! l = Some n → bind (load l) k σ = k n σ.
Proof. intros H. unfold bind, load. by rewrite H. Qed.

Lemma bind_load_u8 {B} l a (k : image (px Z) → M B) σ :
  σ !! l = Some (U8x3 a) → bind (load_u8 l) k σ = k a σ.
Proof. intros H. unfold bind, load_u8. by rewrite H. Qed.

Lemma bind_alloc {B} n (k : positive → M B) σ :
  bind (alloc n) k σ = k (fresh (dom σ)) (<[fresh (dom σ) := n]> σ).
Proof. done. Qed.

Lemma bind_store {B} l n (k : unit → M B) σ :
  bind (store l n) k σ = k tt (<[l := n]> σ).
Proof. done. Qed.

Lemma advanced_chroma_key_heap_run σ frame bg fv bv lo hi k s :
  σ !! frame = Some (U8x3 fv) → σ !! bg = Some (U8x3 bv) →
  ∃ r σ',
    advanced_chroma_key_heap BGR2HSV GaussianBlur_at frame bg lo hi k s σ
    = Some (r, σ')
    ∧ (∀ l, is_Some (σ !! l) → σ' !! l = σ !! l)
    ∧ match advanced_chroma_key BGR2HSV GaussianBlur_at fv bv lo hi k s, r with
      | inl e, inl e' => e = e'
      | inr out, inr l => σ !! l = None ∧ σ' !! l = Some (U8x3 out)
      | _, _ => False
      end.
Proof.
  intros Hf Hb.
  unfold advanced_chroma_key_heap, advanced_chroma_key.
  rewrite (bind_load_u8 _ _ _ _ Hf).
  destruct (soft_mask BGR2HSV GaussianBlur_at fv lo hi k) as [e|mask].
  { rewrite bind_lift_inl. exists (inl e), σ. by repeat split. }
  rewrite bind_lift_inr. unfold mbind, result_bind.
  unfold copy. rewrite bind_bind, (bind_load _ _ _ _ Hf), bind_alloc.
  set (l1 := fresh (dom σ)). set (σ1 := <[l1 := U8x3 fv]> σ).
  assert (σ !! l1 = None) as Hl1 by apply fresh_lookup.
  unfold astype_float32 at 1.
  rewrite bind_bind, (bind_load _ (U8x3 fv)) by apply lookup_insert_eq.
  rewrite bind_alloc.
  set (l2 := fresh (dom σ1)).
  set (σ2 := <[l2 := F32x3 (values (U8x3 fv))]> σ1).
  assert (σ1 !! l2 = None) as Hl2 by apply fresh_lookup.
  assert (σ2 !! l2 = Some (F32x3 (values (U8x3 fv)))) as Hl2'
    by apply lookup_insert_eq.
  unfold getitem_channel.
  rewrite bind_bind, (bind_load _ _ _ _ Hl2'), bind_ret.
  rewrite bind_bind, (bind_load _ _ _ _ Hl2'), bind_ret.
  rewrite bind_bind, (bind_load _ _ _ _ Hl2'), bind_ret.
  rewrite bind_bind, (bind_load _ _ _ _ Hl2'), bind_ret.
  unfold setitem_ch1_bool.
  rewrite bind_bind, (bind_load _ _ _ _ Hl2'), bind_store.
  simpl values.
  change (F32x3 (with_ch1 _ _))
    with (F32x3 (decontaminate fv mask s)).
  set (σ3 := <[l2 := F32x3 (decontaminate fv mask s)]> σ2).
  rewrite (bind_load _ (F32x3 (decontaminate fv mask s)))
    by apply lookup_insert_eq.
  assert (∀ l, is_Some (σ !! l) → σ3 !! l = σ !! l) as H3.
  { assert (∀ l, is_Some (σ !! l) → σ1 !! l = σ !! l) as H1
      by (intros l Hl; by apply lookup_insert_old).
    intros l Hl. unfold σ3, σ2. rewrite insert_insert_eq.
    rewrite (lookup_insert_old σ1); [by apply H1|done|by rewrite H1]. }
  unfold astype_float32.
  rewrite bind_bind, (bind_load _ (U8x3 bv))
    by (rewrite H3; [done|by rewrite Hb]).
  rewrite bind_alloc.
  set (l3 := fresh (dom σ3)).
  set (σ4 := <[l3 := F32x3 (values (U8x3 bv))]> σ3).
  assert (σ3 !! l3 = None) as Hl3 by apply fresh_lookup.
  rewrite (bind_load _ (F32x3 (values (U8x3 bv))))
    by apply lookup_insert_eq.
  simpl values.
  assert (∀ l, is_Some (σ !! l) → σ4 !! l = σ !! l) as H4.
  { intros l Hl. unfold σ4. rewrite (lookup_insert_old σ3); [by apply H3|done|].
    by rewrite H3. }
  destruct (alpha_blend (decontaminate fv mask s) (np.stack3 mask)
              (np.astype_float32 bv)) as [e|res].
  { rewrite bind_lift_inl. exists (inl e), σ4. by repeat split. }
  rewrite bind_lift_inr. unfold alloc.
  set (l4 := fresh (dom σ4)).
  assert (σ4 !! l4 = None) as Hl4 by apply fresh_lookup.
  exists (inr l4), (<[l4 := U8x3 (np.astype_uint8 res)]> σ4).
  split; [done|]. split.
  { intros l Hl. rewrite (lookup_insert_old σ4); [by apply H4|done|].
    by rewrite H4. }
  simpl. split; [|apply lookup_insert_eq].
  destruct (σ !! l4) as [n|] eqn:Hn; [|done].
  rewrite <- (H4 l4) in Hn by (by rewrite Hn). congruence.
Qed.

(** ** Arithmetic of one pixel *)

Lemma in_range_within lo hi p : cv2.in_range lo hi p = true ↔ within lo hi p.
Proof.
  unfold cv2.in_range, within. rewrite !andb_true_iff, !Z.leb_le. tauto.
Qed.

Lemma gt_true x y : np.gt x y = true ↔ (y < x)%Q.
Proof.
  unfold np.gt. rewrite negb_true_iff, <- not_true_iff_false, Qle_bool_iff.
  split; [apply Qnot_le_lt|apply Qlt_not_le].
Qed.

Lemma gt_false x y : np.gt x y = false ↔ (x <= y)%Q.
Proof. unfold np.gt. by rewrite negb_false_iff, Qle_bool_iff. Qed.

Lemma spill_px_true p m :
  spill_px p m = true ↔ ((ch0 p + ch2 p) / 2 < ch1 p ∧ 0.05 < m)%Q.
Proof. unfold spill_px. by rewrite andb_true_iff, !gt_true. Qed.

Lemma spill_px_zero_mask p m : (m == 0)%Q → spill_px p m = false.
Proof.
  intros Hm. unfold spill_px. apply andb_false_iff. right.
  apply gt_false. rewrite Hm. by unfold Qle.
Qed.

Lemma Qhalf x : (x / 2 == x * (1 # 2))%Q.
Proof. field. Qed.

Lemma decontaminate_px_byte_range s p m :
  (0 <= s <= 1)%Q → px_all is_uint8 p →
  px_all byte_range (decontaminate_px s p m).
Proof.
  intros [Hs0 Hs1] (H0 & H1 & H2).
  apply float32_byte_range in H0 as [? ?].
  apply float32_byte_range in H1 as [? ?].
  apply float32_byte_range in H2 as [? ?].
  unfold decontaminate_px, px_all, byte_range. simpl.
  repeat split; try done; destruct (spill_px _ _); try done.
  - set (rb := ((np.float32 (ch0 p) + np.float32 (ch2 p)) / 2)%Q).
    assert (0 <= rb)%Q by (unfold rb; rewrite Qhalf; lra).
    assert (0 <= rb * (1 - s))%Q by (apply Qmult_le_0_compat; lra).
    assert (0 <= np.float32 (ch1 p) * s)%Q
      by (apply Qmult_le_0_compat; lra).
    lra.
  - set (rb := ((np.float32 (ch0 p) + np.float32 (ch2 p)) / 2)%Q).
    assert (rb <= 255)%Q by (unfold rb; rewrite Qhalf; lra).
    assert (0 <= (255 - rb) * (1 - s))%Q by (apply Qmult_le_0_compat; lra).
    assert (0 <= (255 - np.float32 (ch1 p)) * s)%Q
      by (apply Qmult_le_0_compat; lra).
    lra.
Qed.

Lemma blend_byte_range f m b :
  byte_range f → byte_range b → unit_interval m →
  byte_range (f * (1 - m) + b * m)%Q.
Proof.
  intros [Hf0 Hf1] [Hb0 Hb1] [Hm0 Hm1]. split.
  - assert (0 <= f * (1 - m))%Q by (apply Qmult_le_0_compat; lra).
    assert (0 <= b * m)%Q by (apply Qmult_le_0_compat; lra).
    lra.
  - assert (0 <= (255 - f) * (1 - m))%Q by (apply Qmult_le_0_compat; lra).
    assert (0 <= (255 - b) * m)%Q by (apply Qmult_le_0_compat; lra).
    lra.
Qed.

Lemma blend_px_byte_range f m b :
  px_all byte_range f → px_all byte_range b → unit_interval m →
  px_all byte_range (blend_px f m b).
Proof.
  intros (? & ? & ?) (? & ? & ?) Hm. unfold blend_px, px_all. simpl.
  repeat split; by apply blend_byte_range.
Qed.

Lemma blend_zero_mask f m b : (m == 0)%Q → (f * (1 - m) + b * m == f)%Q.
Proof. intros ->. ring. Qed.

(** ** The threshold (lines 37-39) *)

Lemma threshold_mask_at h w frame lo hi :
  rect h w frame → (0 < h)%nat → (0 < w)%nat →
  ∃ mask,
    threshold_mask BGR2HSV frame lo hi = inr mask
    ∧ rect h w mask
    ∧ ∀ i j p, at2 frame i j = Some p →
        at2 mask i j
        = Some (np.float32 (if cv2.in_range lo hi (BGR2HSV p)
                            then 255 else 0) / 255)%Q.
Proof.
  intros Hf Hh Hw.
  unfold threshold_mask. rewrite (cvtColor_rect h w) by done. simpl.
  eexists. split; [done|]. split.
  { unfold cv2.inRange. by repeat apply rect_map2d. }
  intros i j p Hp. unfold cv2.inRange. by rewrite !at2_map2d, Hp.
Qed.

Lemma normalised_zero_one (b : bool) :
  let v := (np.float32 (if b then 255 else 0) / 255)%Q in
  (b = true → v == 1)%Q ∧ (b = false → v == 0)%Q ∧ unit_interval v.
Proof.
  destruct b; simpl; (split; [done|]); (split; [done|]); split; discriminate.
Qed.

(** C7.  For a non-empty frame the thresholded, normalised mask exists,
    has the shape of the frame, and at every pixel its value is exactly 1
    when the three HSV components of the converted pixel lie in the
    inclusive range [green_lower, green_upper], exactly 0 otherwise; so
    every entry is 0 or 1 and lies in [0, 1] before the feathering. *)
Theorem threshold_mask_zero_one h w frame green_lower green_upper :
  rect h w frame → (0 < h)%nat → (0 < w)%nat →
  ∃ mask,
    threshold_mask BGR2HSV frame green_lower green_upper = inr mask
    ∧ rect h w mask
    ∧ ∀ i j p, at2 frame i j = Some p →
        ∃ v, at2 mask i j = Some v
           ∧ (within green_lower green_upper (BGR2HSV p) → v == 1)%Q
           ∧ (¬ within green_lower green_upper (BGR2HSV p) → v == 0)%Q
           ∧ (v == 0 ∨ v == 1)%Q
           ∧ unit_interval v.
Proof.
  intros Hf Hh Hw.
  destruct (threshold_mask_at h w frame green_lower green_upper Hf Hh Hw)
    as (mask & Hmask & Hm & Hat).
  exists mask. split; [done|]. split; [done|].
  intros i j p Hp. eexists. split; [by apply Hat|].
  destruct (normalised_zero_one
              (cv2.in_range green_lower green_upper (BGR2HSV p)))
    as (H1 & H0 & Hu).
  destruct (cv2.in_range green_lower green_upper (BGR2HSV p)) eqn:Hin.
  - apply in_range_within in Hin.
    split; [by intros _; apply H1|]. split; [done|].
    split; [right; by apply H1|done].
  - assert (¬ within green_lower green_upper (BGR2HSV p)) as Hout.
    { intros Hwi. apply in_range_within in Hwi. congruence. }
    split; [done|]. split; [by intros _; apply H0|].
    split; [left; by apply H0|done].
Qed.

(** C6.  For a frame and a background of one non-empty shape, at every
    pixel where the final mask is 0 the output is the conversion to
    uint8 of the decontaminated pixel, the decontamination leaves that
    pixel as it is, and the output pixel is the input pixel, byte for
    byte (in particular when its green does not exceed the average of
    its red and blue). *)
Theorem zero_mask_keeps_pixel h w frame bg green_lower green_upper
    feather_radius spill_suppress :
  rect h w frame → rect h w bg → (0 < h)%nat → (0 < w)%nat →
  all2d (px_all is_uint8) frame →
  ∃ mask out,
    soft_mask BGR2HSV GaussianBlur_at frame green_lower green_upper
      feather_radius = inr mask
    ∧ advanced_chroma_key BGR2HSV GaussianBlur_at frame bg
        green_lower green_upper feather_radius spill_suppress = inr out
    ∧ ∀ i j p m, at2 frame i j = Some p → at2 mask i j = Some m →
        (m == 0)%Q →
        decontaminate_px spill_suppress p m = px_map np.float32 p
        ∧ at2 out i j
          = Some (px_map np.uint8 (decontaminate_px spill_suppress p m))
        ∧ at2 out i j = Some p.
Proof.
  intros Hf Hb Hh Hw H8.
  destruct (advanced_chroma_key_same_shape h w frame bg green_lower
              green_upper feather_radius spill_suppress Hf Hb Hh Hw)
    as (mask & out & Hmask & Hm & Hout & Ho & Hat).
  exists mask, out. split; [done|]. split; [done|].
  intros i j p m Hp Hmat Hm0.
  destruct (at2_bounds h w frame i j p Hf Hp) as [Hi Hj].
  destruct (rect_at2 h w bg i j Hb Hi Hj) as [b Hbat].
  rewrite (Hat i j p b m Hp Hbat Hmat).
  unfold decontaminate_px. rewrite spill_px_zero_mask by done.
  unfold blend_px, px_map, px_zip. simpl.
  rewrite !(uint8_proper _ _ (blend_zero_mask _ m _ Hm0)).
  split; [done|]. split; [done|].
  rewrite all2d_at2 in H8. destruct (H8 i j p Hp) as (? & ? & ?).
  rewrite !uint8_float32 by done. by destruct p.
Qed.

(** ** Ranges *)

Lemma clip_unit_interval (a : image Q) : all2d unit_interval (np.clip a 0 1).
Proof.
  unfold np.clip. apply (all2d_map2d (λ _, True)).
  - intros x _. split.
    + apply Q.min_glb; [apply Q.le_max_r|lra].
    + apply Q.le_min_r.
  - apply all2d_at2. done.
Qed.

Lemma cleanup_mask_unit_interval (m : image Q) :
  all2d unit_interval m → all2d unit_interval (cleanup_mask m).
Proof.
  intros Hm. unfold cleanup_mask, cv2.dilate, cv2.erode. simpl.
  pose proof centre_in_ones3 as Hc.
  by apply dilate1_unit_interval, dilate1_unit_interval, erode1_unit_interval.
Qed.

(** ** The call on the heap *)

(** C9.  For a frame and a background of one non-empty shape and an odd
    (so positive) feather radius, the kernel sizes [cv2.GaussianBlur]
    accepts, the call returns a reference that did not exist before,
    holding a uint8 frame of that shape, and every array that existed
    before the call (the frame and the background among them) holds the
    same values after it. *)
Theorem inputs_not_mutated σ frame bg fv bv h w green_lower green_upper
    feather_radius spill_suppress :
  σ !! frame = Some (U8x3 fv) → σ !! bg = Some (U8x3 bv) →
  rect h w fv → rect h w bv → (0 < h)%nat → (0 < w)%nat →
  Nat.odd feather_radius = true →
  ∃ l out σ',
    advanced_chroma_key_heap BGR2HSV GaussianBlur_at frame bg
      green_lower green_upper feather_radius spill_suppress σ
    = Some (inr l, σ')
    ∧ σ !! l = None
    ∧ σ' !! l = Some (U8x3 out)
    ∧ rect h w out
    ∧ σ' !! frame = Some (U8x3 fv)
    ∧ σ' !! bg = Some (U8x3 bv)
    ∧ ∀ l', is_Some (σ !! l') → σ' !! l' = σ !! l'.
Proof.
  intros Hf Hb Hfr Hbr Hh Hw Hodd.
  destruct (advanced_chroma_key_heap_run σ frame bg fv bv green_lower
              green_upper feather_radius spill_suppress Hf Hb)
    as (r & σ' & Hrun & Hkeep & Hval).
  destruct (advanced_chroma_key_same_shape h w fv bv green_lower green_upper
              feather_radius spill_suppress Hfr Hbr Hh Hw)
    as (mask & out & _ & _ & Hout & Ho & _).
  rewrite Hout in Hval. destruct r as [e|l]; [done|].
  destruct Hval as [Hnew Hl].
  exists l, out, σ'. split; [done|]. split; [done|]. split; [done|].
  split; [done|].
  split; [rewrite Hkeep; [done|by rewrite Hf]|].
  split; [rewrite Hkeep; [done|by rewrite Hb]|]. done.
Qed.

(** C5.  Two calls whose frame arguments hold the same values and whose
    background arguments hold the same values, with the same key
    parameters, in any two heaps and at any references, both raise the
    same exception or both return a frame, and the two frames are
    equal. *)
Theorem same_inputs_same_output σ1 σ2 frame1 bg1 frame2 bg2 fv bv
    green_lower green_upper feather_radius spill_suppress :
  σ1 !! frame1 = Some (U8x3 fv) → σ1 !! bg1 = Some (U8x3 bv) →
  σ2 !! frame2 = Some (U8x3 fv) → σ2 !! bg2 = Some (U8x3 bv) →
  ∃ r1 σ1' r2 σ2',
    advanced_chroma_key_heap BGR2HSV GaussianBlur_at frame1 bg1
      green_lower green_upper feather_radius spill_suppress σ1
    = Some (r1, σ1')
    ∧ advanced_chroma_key_heap BGR2HSV GaussianBlur_at frame2 bg2
        green_lower green_upper feather_radius spill_suppress σ2
      = Some (r2, σ2')
    ∧ match r1, r2 with
      | inl e1, inl e2 => e1 = e2
      | inr l1, inr l2 =>
          ∃ out, σ1' !! l1 = Some (U8x3 out) ∧ σ2' !! l2 = Some (U8x3 out)
      | _, _ => False
      end.
Proof.
  intros Hf1 Hb1 Hf2 Hb2.
  destruct (advanced_chroma_key_heap_run σ1 frame1 bg1 fv bv green_lower
              green_upper feather_radius spill_suppress Hf1 Hb1)
    as (r1 & σ1' & Hrun1 & _ & Hval1).
  destruct (advanced_chroma_key_heap_run σ2 frame2 bg2 fv bv green_lower
              green_upper feather_radius spill_suppress Hf2 Hb2)
    as (r2 & σ2' & Hrun2 & _ & Hval2).
  exists r1, σ1', r2, σ2'. split; [done|]. split; [done|].
  destruct (advanced_chroma_key BGR2HSV GaussianBlur_at fv bv green_lower
              green_upper feather_radius spill_suppress) as [e|out];
    destruct r1 as [e1|l1]; destruct r2 as [e2|l2]; try done.
  - congruence.
  - exists out. by destruct Hval1, Hval2.
Qed.

(** ** Shapes that differ *)












(** ** Spill suppression as the code computes it *)

(** At a pixel in the spill condition line 51 weights the red/blue
    average by [1 - spill_suppress] and the old green by
    [spill_suppress]. *)
Lemma decontaminate_px_spill s p m :
  spill_px (px_map np.float32 p) m = true →
  ch1 (decontaminate_px s p m)
  = ((np.float32 (ch0 p) + np.float32 (ch2 p)) / 2 * (1 - s)
     + np.float32 (ch1 p) * s)%Q.
Proof. intros H. unfold decontaminate_px. simpl in *. by rewrite H. Qed.

Lemma decontaminate_px_no_spill s p m :
  spill_px (px_map np.float32 p) m = false →
  decontaminate_px s p m = px_map np.float32 p.
Proof. intros H. unfold decontaminate_px. simpl in *. by rewrite H. Qed.

(** Hence the blended green does not decrease when [spill_suppress]
    grows. *)
Lemma blended_green_nondecreasing s1 s2 p m b :
  (s1 <= s2)%Q → (m <= 1)%Q →
  spill_px (px_map np.float32 p) m = true →
  (ch1 (blend_px (decontaminate_px s1 p m) m b)
   <= ch1 (blend_px (decontaminate_px s2 p m) m b))%Q.
Proof.
  intros Hs Hm Hsp. unfold blend_px. simpl.
  pose proof (decontaminate_px_spill s1 p m Hsp) as H1.
  pose proof (decontaminate_px_spill s2 p m Hsp) as H2.
  simpl in H1, H2. rewrite H1, H2.
  apply spill_px_true in Hsp as [Hg _]. simpl in Hg.
  set (rb := ((np.float32 (ch0 p) + np.float32 (ch2 p)) / 2)%Q) in *.
  set (g := np.float32 (ch1 p)) in *.
  assert (0 <= (g - rb) * (s2 - s1))%Q by (apply Qmult_le_0_compat; lra).
  assert (0 <= (g - rb) * (s2 - s1) * (1 - m))%Q
    by (apply Qmult_le_0_compat; lra).
  lra.
Qed.

End Stages.

(** ** The transform on the sample frames *)

Ltac concrete :=
  repeat first [ reflexivity | lia | split | constructor | progress simpl ].

(** C1 at a failing input: a single key-green pixel, the default range,
    a 1x1 blur and full suppression strength.  The pixel is in the spill
    condition (green 255 above the average 0, mask 1), line 51 leaves its
    green at 255, and the formula of the specification gives 0. *)
Theorem spill_weights_at_full_strength :
  ∃ mask m d,
    soft_mask ref.BGR2HSV ref.GaussianBlur_at [[sample.green]]
      ref.GREEN_LOWER ref.GREEN_UPPER 1 = inr mask
    ∧ at2 mask 0 0 = Some m
    ∧ (m == 1)%Q
    ∧ spill_px (px_map np.float32 sample.green) m = true
    ∧ at2 (decontaminate [[sample.green]] mask 1) 0 0 = Some d
    ∧ (ch1 d == 255)%Q
    ∧ (spec_new_green 1 ((0 + 0) / 2) 255 == 0)%Q
    ∧ ¬ (ch1 d == spec_new_green 1 ((0 + 0) / 2) 255)%Q.
Proof.
  eexists. eexists. eexists.
  split; [vm_compute; reflexivity|].
  split; [vm_compute; reflexivity|].
  split; [vm_compute; reflexivity|].
  split; [vm_compute; reflexivity|].
  split; [vm_compute; reflexivity|].
  split; [vm_compute; reflexivity|].
  split; [vm_compute; reflexivity|].
  vm_compute. discriminate.
Qed.

(** C2 at a failing input: the strip of three key pixels and three dark
    green ones over a black background, a 3x3 blur.  The fourth pixel is
    in the spill condition with mask 3/4; its output green is 0 with
    spill suppression 0 and 10 with spill suppression 1. *)
Theorem stronger_suppression_raises_green :
  ∃ mask m,
    soft_mask ref.BGR2HSV ref.GaussianBlur_at sample.strip
      ref.GREEN_LOWER ref.GREEN_UPPER 3 = inr mask
    ∧ at2 mask 0 3 = Some m
    ∧ (m == 3 # 4)%Q
    ∧ spill_px (px_map np.float32 sample.dark) m = true
    ∧ advanced_chroma_key ref.BGR2HSV ref.GaussianBlur_at
        sample.strip sample.black_strip ref.GREEN_LOWER ref.GREEN_UPPER 3 0
      = inr [[Px 0 0 0; Px 0 0 0; Px 0 0 0; Px 0 0 0; Px 0 0 0; Px 0 40 0]]
    ∧ advanced_chroma_key ref.BGR2HSV ref.GaussianBlur_at
        sample.strip sample.black_strip ref.GREEN_LOWER ref.GREEN_UPPER 3 1
      = inr [[Px 0 0 0; Px 0 0 0; Px 0 0 0; Px 0 10 0; Px 0 30 0; Px 0 40 0]].
Proof.
  eexists. eexists.
  split; [vm_compute; reflexivity|].
  split; [vm_compute; reflexivity|].
  split; [vm_compute; reflexivity|].
  split; [vm_compute; reflexivity|].
  split; vm_compute; reflexivity.
Qed.


(** On the strip the last pixel has mask 0, is in no spill condition and
    comes out as it went in. *)
Example zero_mask_on_strip :
  ∃ mask m out,
    soft_mask ref.BGR2HSV ref.GaussianBlur_at sample.strip
      ref.GREEN_LOWER ref.GREEN_UPPER 3 = inr mask
    ∧ at2 mask 0 5 = Some m ∧ (m == 0)%Q
    ∧ advanced_chroma_key ref.BGR2HSV ref.GaussianBlur_at
        sample.strip sample.black_strip ref.GREEN_LOWER ref.GREEN_UPPER 3
        (7 # 10) = inr out
    ∧ at2 out 0 5 = at2 sample.strip 0 5.
Proof.
  eexists. eexists. eexists.
  split; [vm_compute; reflexivity|].
  split; [vm_compute; reflexivity|].
  split; [vm_compute; reflexivity|].
  split; vm_compute; reflexivity.
Qed.

(** ** The theorems at concrete inputs *)

Lemma threshold_mask_zero_one_witness :
  rect 1 6 sample.strip ∧ (0 < 1)%nat ∧ (0 < 6)%nat
  ∧ ∃ mask,
      threshold_mask ref.BGR2HSV sample.strip ref.GREEN_LOWER ref.GREEN_UPPER
      = inr mask
      ∧ rect 1 6 mask
      ∧ ∀ i j p, at2 sample.strip i j = Some p →
          ∃ v, at2 mask i j = Some v
             ∧ (within ref.GREEN_LOWER ref.GREEN_UPPER (ref.BGR2HSV p)
                → v == 1)%Q
             ∧ (¬ within ref.GREEN_LOWER ref.GREEN_UPPER (ref.BGR2HSV p)
                → v == 0)%Q
             ∧ (v == 0 ∨ v == 1)%Q
             ∧ unit_interval v.
Proof.
  split; [concrete|]. split; [lia|]. split; [lia|].
  apply (threshold_mask_zero_one ref.BGR2HSV 1 6 sample.strip
           ref.GREEN_LOWER ref.GREEN_UPPER); concrete.
Defined.

Lemma zero_mask_keeps_pixel_witness :
  rect 1 6 sample.strip ∧ rect 1 6 sample.black_strip
  ∧ (0 < 1)%nat ∧ (0 < 6)%nat
  ∧ all2d (px_all is_uint8) sample.strip
  ∧ ∃ mask out,
      soft_mask ref.BGR2HSV ref.GaussianBlur_at sample.strip
        ref.GREEN_LOWER ref.GREEN_UPPER 3 = inr mask
      ∧ advanced_chroma_key ref.BGR2HSV ref.GaussianBlur_at
          sample.strip sample.black_strip ref.GREEN_LOWER ref.GREEN_UPPER
          3 (7 # 10) = inr out
      ∧ ∀ i j p m, at2 sample.strip i j = Some p → at2 mask i j = Some m →
          (m == 0)%Q →
          decontaminate_px (7 # 10) p m = px_map np.float32 p
          ∧ at2 out i j
            = Some (px_map np.uint8 (decontaminate_px (7 # 10) p m))
          ∧ at2 out i j = Some p.
Proof.
  split; [concrete|]. split; [concrete|]. split; [lia|]. split; [lia|].
  split; [concrete|].
  apply (zero_mask_keeps_pixel ref.BGR2HSV ref.GaussianBlur_at 1 6
           sample.strip sample.black_strip ref.GREEN_LOWER ref.GREEN_UPPER
           3 (7 # 10)); concrete.
Defined.

Lemma inputs_not_mutated_witness :
  sample.heap sample.strip sample.black_strip !! 1%positive
  = Some (U8x3 sample.strip)
  ∧ sample.heap sample.strip sample.black_strip !! 2%positive
    = Some (U8x3 sample.black_strip)
  ∧ rect 1 6 sample.strip ∧ rect 1 6 sample.black_strip
  ∧ (0 < 1)%nat ∧ (0 < 6)%nat ∧ Nat.odd 3 = true
  ∧ ∃ l out σ',
      advanced_chroma_key_heap ref.BGR2HSV ref.GaussianBlur_at 1 2
        ref.GREEN_LOWER ref.GREEN_UPPER 3 (7 # 10)
        (sample.heap sample.strip sample.black_strip)
      = Some (inr l, σ')
      ∧ sample.heap sample.strip sample.black_strip !! l = None
      ∧ σ' !! l = Some (U8x3 out)
      ∧ rect 1 6 out
      ∧ σ' !! 1%positive = Some (U8x3 sample.strip)
      ∧ σ' !! 2%positive = Some (U8x3 sample.black_strip)
      ∧ ∀ l', is_Some (sample.heap sample.strip sample.black_strip !! l') →
          σ' !! l' = sample.heap sample.strip sample.black_strip !! l'.
Proof.
  split; [reflexivity|]. split; [reflexivity|].
  split; [concrete|]. split; [concrete|]. split; [lia|]. split; [lia|].
  split; [reflexivity|].
  apply (inputs_not_mutated ref.BGR2HSV ref.GaussianBlur_at
           (sample.heap sample.strip sample.black_strip) 1 2
           sample.strip sample.black_strip 1 6
           ref.GREEN_LOWER ref.GREEN_UPPER 3 (7 # 10)); concrete.
Defined.

Lemma same_inputs_same_output_witness :
  sample.heap sample.strip sample.black_strip !! 1%positive
  = Some (U8x3 sample.strip)
  ∧ sample.heap sample.strip sample.black_strip !! 2%positive
    = Some (U8x3 sample.black_strip)
  ∧ sample.heap sample.black_strip sample.strip !! 2%positive
    = Some (U8x3 sample.strip)
  ∧ sample.heap sample.black_strip sample.strip !! 1%positive
    = Some (U8x3 sample.black_strip)
  ∧ ∃ r1 σ1' r2 σ2',
      advanced_chroma_key_heap ref.BGR2HSV ref.GaussianBlur_at 1 2
        ref.GREEN_LOWER ref.GREEN_UPPER 3 (7 # 10)
        (sample.heap sample.strip sample.black_strip)
      = Some (r1, σ1')
      ∧ advanced_chroma_key_heap ref.BGR2HSV ref.GaussianBlur_at 2 1
          ref.GREEN_LOWER ref.GREEN_UPPER 3 (7 # 10)
          (sample.heap sample.black_strip sample.strip)
        = Some (r2, σ2')
      ∧ match r1, r2 with
        | inl e1, inl e2 => e1 = e2
        | inr l1, inr l2 =>
            ∃ out, σ1' !! l1 = Some (U8x3 out) ∧ σ2' !! l2 = Some (U8x3 out)
        | _, _ => False
        end.
Proof.
  split; [reflexivity|]. split; [reflexivity|].
  split; [reflexivity|]. split; [reflexivity|].
  apply (same_inputs_same_output ref.BGR2HSV ref.GaussianBlur_at
           (sample.heap sample.strip sample.black_strip)
           (sample.heap sample.black_strip sample.strip) 1 2 2 1
           sample.strip sample.black_strip
           ref.GREEN_LOWER ref.GREEN_UPPER 3 (7 # 10)); reflexivity.
Defined.


(** * Further properties of the script *)

(** ** Arrays are determined by their shape and their entries *)

Lemma image_ext {A} h w (a b : image A) :
  rect h w a → rect h w b → (∀ i j, at2 a i j = at2 b i j) → a = b.
Proof.
  intros Ha Hb Hat. apply list_eq. intros i.
  destruct (a !! i) as [ra|] eqn:Hra.
  - assert (i < h)%nat as Hi.
    { destruct Ha as [<- _]. by eapply lookup_lt_Some. }
    destruct (lookup_lt_is_Some_2 b i) as [rb Hrb];
      [destruct Hb as [-> _]; lia|].
    rewrite Hrb. f_equal. apply list_eq. intros j.
    specialize (Hat i j). unfold at2 in Hat. by rewrite Hra, Hrb in Hat.
  - symmetry. apply lookup_ge_None. apply lookup_ge_None in Hra.
    destruct Ha as [Ha _], Hb as [Hb _]. lia.
Qed.

(** ** Erosion and dilation between two bounds *)

Lemma erode1_between lo hi kernel (src : image Q) :
  (0, 0) ∈ cv2.offsets kernel → (lo <= cv2.FLT_MAX)%Q →
  all2d (λ v, lo <= v <= hi)%Q src →
  all2d (λ v, lo <= v <= hi)%Q (cv2.erode1 kernel src).
Proof.
  intros Hc Hlo Hsrc. apply all2d_at2. intros i j y.
  unfold cv2.erode1. rewrite at2_imap2d.
  destruct (at2 src i j) as [x|] eqn:Hx; simpl; [|done]. intros [= <-].
  assert (lo <= x <= hi)%Q as [Hx0 Hx1].
  { rewrite all2d_at2 in Hsrc. by eapply Hsrc. }
  split.
  - apply foldr_Qmin_lower; [done|].
    apply (neighbours_cases (λ v, lo <= v)%Q); [done|].
    eapply Forall_impl; [exact Hsrc|]. intros r Hr.
    eapply Forall_impl; [exact Hr|]. by intros v [Hv _].
  - eapply Qle_trans; [|exact Hx1].
    apply foldr_Qmin_le. by eapply neighbours_centre.
Qed.

Lemma dilate1_between lo hi kernel (src : image Q) :
  (0, 0) ∈ cv2.offsets kernel → (- cv2.FLT_MAX <= hi)%Q →
  all2d (λ v, lo <= v <= hi)%Q src →
  all2d (λ v, lo <= v <= hi)%Q (cv2.dilate1 kernel src).
Proof.
  intros Hc Hhi Hsrc. apply all2d_at2. intros i j y.
  unfold cv2.dilate1. rewrite at2_imap2d.
  destruct (at2 src i j) as [x|] eqn:Hx; simpl; [|done]. intros [= <-].
  assert (lo <= x <= hi)%Q as [Hx0 Hx1].
  { rewrite all2d_at2 in Hsrc. by eapply Hsrc. }
  split.
  - eapply Qle_trans; [exact Hx0|].
    apply foldr_Qmax_ge. by eapply neighbours_centre.
  - apply foldr_Qmax_upper; [done|].
    apply (neighbours_cases (λ v, v <= hi)%Q); [done|].
    eapply Forall_impl; [exact Hsrc|]. intros r Hr.
    eapply Forall_impl; [exact Hr|]. by intros v [_ Hv].
Qed.

Lemma cleanup_mask_between lo hi (m : image Q) :
  (-1 <= lo)%Q → (lo <= 1)%Q → (-1 <= hi)%Q →
  all2d (λ v, lo <= v <= hi)%Q m →
  all2d (λ v, lo <= v <= hi)%Q (cleanup_mask m).
Proof.
  intros Hlo Hlo' Hhi Hm. unfold cleanup_mask, cv2.dilate, cv2.erode. simpl.
  pose proof centre_in_ones3 as Hc. pose proof FLT_MAX_ge_1 as Hmax.
  apply dilate1_between; [done|lra|].
  apply dilate1_between; [done|lra|].
  apply erode1_between; [done|lra|done].
Qed.

Lemma clip_ge_one (a : image Q) :
  all2d (λ v, 1 <= v)%Q a → all2d (λ v, 1 <= v <= 1)%Q (np.clip a 0 1).
Proof.
  intros Ha. apply all2d_at2. intros i j y.
  unfold np.clip. rewrite at2_map2d.
  destruct (at2 a i j) as [x|] eqn:Hx; simpl; [|done]. intros [= <-].
  rewrite all2d_at2 in Ha. specialize (Ha i j x Hx). simpl in Ha.
  split; [|apply Q.le_min_r].
  apply Q.min_glb; [|lra].
  eapply Qle_trans; [exact Ha|apply Q.le_max_l].
Qed.

Lemma clip_le_zero (a : image Q) :
  all2d (λ v, v <= 0)%Q a → all2d (λ v, 0 <= v <= 0)%Q (np.clip a 0 1).
Proof.
  intros Ha. apply all2d_at2. intros i j y.
  unfold np.clip. rewrite at2_map2d.
  destruct (at2 a i j) as [x|] eqn:Hx; simpl; [|done]. intros [= <-].
  rewrite all2d_at2 in Ha. specialize (Ha i j x Hx). simpl in Ha.
  split.
  - apply Q.min_glb; [apply Q.le_max_r|lra].
  - eapply Qle_trans; [apply Q.le_min_l|]. apply Q.max_lub; [done|lra].
Qed.

Lemma blend_one_mask f m b : (m == 1)%Q → (f * (1 - m) + b * m == b)%Q.
Proof. intros ->. ring. Qed.

(** ** More on the compositing function *)

Section Keying.

Variable BGR2HSV : px Z → px Z.
Variable GaussianBlur_at : nat → image Q → nat → nat → Q.

Lemma soft_mask_unit_interval frame lo hi k mask :
  soft_mask BGR2HSV GaussianBlur_at frame lo hi k = inr mask →
  all2d unit_interval mask.
Proof.
  intros Hm. apply soft_mask_inv in Hm as (t & _ & ->).
  apply cleanup_mask_unit_interval, clip_unit_interval.
Qed.

(** The output pixel where the mask is 1 and where it is 0. *)
Lemma out_px_mask_one s p m b :
  px_all is_uint8 b → (m == 1)%Q →
  px_map np.uint8 (blend_px (decontaminate_px s p m) m (px_map np.float32 b))
  = b.
Proof.
  intros (? & ? & ?) Hm. unfold blend_px, px_map, px_zip. simpl.
  rewrite !(uint8_proper _ _ (blend_one_mask _ m _ Hm)).
  rewrite !uint8_float32 by done. by destruct b.
Qed.

Lemma out_px_mask_zero s p m b :
  px_all is_uint8 p → (m == 0)%Q →
  px_map np.uint8 (blend_px (decontaminate_px s p m) m (px_map np.float32 b))
  = p.
Proof.
  intros (? & ? & ?) Hm. unfold decontaminate_px.
  rewrite spill_px_zero_mask by done.
  unfold blend_px, px_map, px_zip. simpl.
  rewrite !(uint8_proper _ _ (blend_zero_mask _ m _ Hm)).
  rewrite !uint8_float32 by done. by destruct p.
Qed.

(** X1.  Where the final mask is 1 the output pixel is the background
    pixel, byte for byte, whatever the frame holds there. *)
Theorem mask_one_gives_background h w frame bg green_lower green_upper
    feather_radius spill_suppress :
  rect h w frame → rect h w bg → (0 < h)%nat → (0 < w)%nat →
  all2d (px_all is_uint8) bg →
  ∃ mask out,
    soft_mask BGR2HSV GaussianBlur_at frame green_lower green_upper
      feather_radius = inr mask
    ∧ advanced_chroma_key BGR2HSV GaussianBlur_at frame bg
        green_lower green_upper feather_radius spill_suppress = inr out
    ∧ ∀ i j b m, at2 bg i j = Some b → at2 mask i j = Some m →
        (m == 1)%Q → at2 out i j = Some b.
Proof.
  intros Hf Hb Hh Hw Hb8.
  destruct (advanced_chroma_key_same_shape BGR2HSV GaussianBlur_at h w frame
              bg green_lower green_upper feather_radius spill_suppress
              Hf Hb Hh Hw)
    as (mask & out & Hmask & Hm & Hout & Ho & Hat).
  exists mask, out. split; [done|]. split; [done|].
  intros i j b m Hbat Hmat Hm1.
  destruct (at2_bounds h w bg i j b Hb Hbat) as [Hi Hj].
  destruct (rect_at2 h w frame i j Hf Hi Hj) as [p Hp].
  rewrite (Hat i j p b m Hp Hbat Hmat). f_equal.
  apply out_px_mask_one; [|done].
  rewrite all2d_at2 in Hb8. by eapply Hb8.
Qed.

(** X2.  When every pixel of the frame converts into the key range and
    the blur takes an all-ones mask to values of at least 1 (as a
    normalised kernel does), the call returns the background itself. *)
Theorem keyed_frame_becomes_background h w frame bg green_lower green_upper
    feather_radius spill_suppress :
  rect h w frame → rect h w bg → (0 < h)%nat → (0 < w)%nat →
  all2d (px_all is_uint8) bg →
  all2d (λ p, within green_lower green_upper (BGR2HSV p)) frame →
  (∀ m, rect h w m → all2d (λ v, v == 1)%Q m →
        all2d (λ v, 1 <= v)%Q (GaussianBlur GaussianBlur_at m feather_radius)) →
  advanced_chroma_key BGR2HSV GaussianBlur_at frame bg
    green_lower green_upper feather_radius spill_suppress = inr bg.
Proof.
  intros Hf Hb Hh Hw Hb8 Hkey Hblur.
  destruct (advanced_chroma_key_same_shape BGR2HSV GaussianBlur_at h w frame
              bg green_lower green_upper feather_radius spill_suppress
              Hf Hb Hh Hw)
    as (mask & out & Hmask & Hm & Hout & Ho & Hat).
  rewrite Hout. f_equal.
  destruct (soft_mask_inv _ _ _ _ _ _ _ Hmask) as (t & Ht & Hmt).
  assert (all2d (λ v, 1 <= v <= 1)%Q mask) as Hone.
  { rewrite Hmt. apply cleanup_mask_between; [lra..|].
    apply clip_ge_one.
    destruct (threshold_mask_at BGR2HSV h w frame green_lower green_upper
                Hf Hh Hw) as (t' & Ht' & Htr & Htat).
    assert (t' = t) as -> by congruence.
    apply Hblur; [done|]. apply all2d_at2. intros i j v Hv.
    destruct (at2_bounds h w t i j v Htr Hv) as [Hi Hj].
    destruct (rect_at2 h w frame i j Hf Hi Hj) as [p Hp].
    rewrite (Htat i j p Hp) in Hv. injection Hv as <-.
    rewrite all2d_at2 in Hkey. specialize (Hkey i j p Hp). simpl in Hkey.
    apply (in_range_within BGR2HSV) in Hkey. rewrite Hkey.
    by apply (normalised_zero_one true). }
  apply (image_ext h w); [done|done|]. intros i j.
  destruct (at2 bg i j) as [b|] eqn:Hbat.
  - destruct (at2_bounds h w bg i j b Hb Hbat) as [Hi Hj].
    destruct (rect_at2 h w frame i j Hf Hi Hj) as [p Hp].
    destruct (rect_at2 h w mask i j Hm Hi Hj) as [m Hmat].
    rewrite (Hat i j p b m Hp Hbat Hmat). f_equal.
    apply out_px_mask_one.
    + rewrite all2d_at2 in Hb8. by eapply Hb8.
    + rewrite all2d_at2 in Hone. specialize (Hone i j m Hmat). simpl in Hone.
      apply Qle_antisym; tauto.
  - destruct (at2 out i j) as [o|] eqn:Hoat; [|done].
    destruct (at2_bounds h w out i j o Ho Hoat) as [Hi Hj].
    destruct (rect_at2 h w bg i j Hb Hi Hj) as [b Hb']. congruence.
Qed.

(** X3.  When no pixel of the frame converts into the key range and the
    blur takes an all-zero mask to values that are nowhere positive,
    the call returns the frame itself: nothing of the background shows
    and no green is touched. *)
Theorem unkeyed_frame_is_returned h w frame bg green_lower green_upper
    feather_radius spill_suppress :
  rect h w frame → rect h w bg → (0 < h)%nat → (0 < w)%nat →
  all2d (px_all is_uint8) frame →
  all2d (λ p, ¬ within green_lower green_upper (BGR2HSV p)) frame →
  (∀ m, rect h w m → all2d (λ v, v == 0)%Q m →
        all2d (λ v, v <= 0)%Q (GaussianBlur GaussianBlur_at m feather_radius)) →
  advanced_chroma_key BGR2HSV GaussianBlur_at frame bg
    green_lower green_upper feather_radius spill_suppress = inr frame.
Proof.
  intros Hf Hb Hh Hw Hf8 Hkey Hblur.
  destruct (advanced_chroma_key_same_shape BGR2HSV GaussianBlur_at h w frame
              bg green_lower green_upper feather_radius spill_suppress
              Hf Hb Hh Hw)
    as (mask & out & Hmask & Hm & Hout & Ho & Hat).
  rewrite Hout. f_equal.
  destruct (soft_mask_inv _ _ _ _ _ _ _ Hmask) as (t & Ht & Hmt).
  assert (all2d (λ v, 0 <= v <= 0)%Q mask) as Hzero.
  { rewrite Hmt. apply cleanup_mask_between; [lra..|].
    apply clip_le_zero.
    destruct (threshold_mask_at BGR2HSV h w frame green_lower green_upper
                Hf Hh Hw) as (t' & Ht' & Htr & Htat).
    assert (t' = t) as -> by congruence.
    apply Hblur; [done|]. apply all2d_at2. intros i j v Hv.
    destruct (at2_bounds h w t i j v Htr Hv) as [Hi Hj].
    destruct (rect_at2 h w frame i j Hf Hi Hj) as [p Hp].
    rewrite (Htat i j p Hp) in Hv. injection Hv as <-.
    rewrite all2d_at2 in Hkey. specialize (Hkey i j p Hp). simpl in Hkey.
    destruct (cv2.in_range green_lower green_upper (BGR2HSV p)) eqn:Hin.
    + by apply (in_range_within BGR2HSV) in Hin.
    + by apply (normalised_zero_one false). }
  apply (image_ext h w); [done|done|]. intros i j.
  destruct (at2 frame i j) as [p|] eqn:Hp.
  - destruct (at2_bounds h w frame i j p Hf Hp) as [Hi Hj].
    destruct (rect_at2 h w bg i j Hb Hi Hj) as [b Hbat].
    destruct (rect_at2 h w mask i j Hm Hi Hj) as [m Hmat].
    rewrite (Hat i j p b m Hp Hbat Hmat). f_equal.
    apply out_px_mask_zero.
    + rewrite all2d_at2 in Hf8. by eapply Hf8.
    + rewrite all2d_at2 in Hzero. specialize (Hzero i j m Hmat).
      simpl in Hzero. apply Qle_antisym; tauto.
  - destruct (at2 out i j) as [o|] eqn:Hoat; [|done].
    destruct (at2_bounds h w out i j o Ho Hoat) as [Hi Hj].
    destruct (rect_at2 h w frame i j Hf Hi Hj) as [p' Hp']. congruence.
Qed.

Lemma trunc_between lo hi q :
  0 ≤ lo → (inject_Z lo <= q <= inject_Z hi)%Q → lo ≤ np.trunc q ≤ hi.
Proof.
  unfold np.trunc, Qle. destruct q as [n d]. simpl. intros Hlo [H0 H1].
  rewrite Z.quot_div_nonneg by lia. split.
  - apply Z.div_le_lower_bound; lia.
  - apply Z.div_le_upper_bound; lia.
Qed.

Lemma inject_Z_min_max a b :
  (inject_Z (Z.min a b) <= inject_Z a <= inject_Z (Z.max a b))%Q
  ∧ (inject_Z (Z.min a b) <= inject_Z b <= inject_Z (Z.max a b))%Q.
Proof. rewrite <- !Zle_Qle. lia. Qed.

(** X6.  With the 3x3 kernel of the script, one erosion pass never
    raises a mask value and one dilation pass never lowers one. *)
Theorem erosion_shrinks_dilation_grows (m : image Q) i j x :
  at2 m i j = Some x →
  ∃ e d,
    at2 (cv2.erode1 (np.ones 3 3) m) i j = Some e
    ∧ at2 (cv2.dilate1 (np.ones 3 3) m) i j = Some d
    ∧ (e <= x <= d)%Q.
Proof.
  intros Hx. pose proof centre_in_ones3 as Hc.
  unfold cv2.erode1, cv2.dilate1. rewrite !at2_imap2d, Hx.
  eexists. eexists. split; [reflexivity|]. split; [reflexivity|]. split.
  - apply foldr_Qmin_le. by eapply neighbours_centre.
  - apply foldr_Qmax_ge. by eapply neighbours_centre.
Qed.

(** X7.  On an empty frame the call raises [cv2.error] at the colour
    conversion, before anything is allocated: the heap is left exactly
    as it was. *)
Theorem empty_frame_raises σ frame bg fv green_lower green_upper
    feather_radius spill_suppress :
  σ !! frame = Some (U8x3 fv) → cv2.empty fv = true →
  advanced_chroma_key_heap BGR2HSV GaussianBlur_at frame bg
    green_lower green_upper feather_radius spill_suppress σ
  = Some (inl cv2_error, σ).
Proof.
  intros Hf He. unfold advanced_chroma_key_heap.
  rewrite (bind_load_u8 _ _ _ _ Hf).
  unfold soft_mask, threshold_mask, cvtColor. by rewrite He.
Qed.

End Keying.

(** ** Background loading and the main loop *)

Lemma written_app l1 l2 : written (l1 ++ l2) = written l1 ++ written l2.
Proof. apply omap_app. Qed.

Lemma shown_app l1 l2 : shown (l1 ++ l2) = shown l1 ++ shown l2.
Proof. apply omap_app. Qed.

Lemma snapshots_app l1 l2 :
  snapshots (l1 ++ l2) = snapshots l1 ++ snapshots l2.
Proof. apply omap_app. Qed.

Lemma zeros_like_rect h w (a : image (px Z)) :
  rect h w a → rect h w (zeros_like a).
Proof. apply rect_map2d. Qed.

Lemma land_255 k : Z.land k 255 = k mod 256.
Proof. apply (Z.land_ones k 8). lia. Qed.

Section ScriptProperties.

Variable BGR2HSV : px Z → px Z.
Variable GaussianBlur_at : nat → image Q → nat → nat → Q.
Variable PIL_resize : image (px Z) → nat → nat → image (px Z).
Variable cv2_resize : image (px Z) → nat → nat → image (px Z).
Variable waitKey : nat → Z.
Variable strftime : nat → string.

(** What the selection prints sends no frame anywhere. *)
Lemma select_background_warning mode bg_img vid frame shape bg vid' warning :
  select_background cv2_resize mode bg_img vid frame shape
  = (bg, vid', warning) →
  written warning = [] ∧ shown warning = [] ∧ snapshots warning = [].
Proof.
  unfold select_background.
  destruct (mode =? 0)%nat; [by intros [= <- <- <-]|].
  destruct (mode =? 1)%nat; [|by intros [= <- <- <-]].
  destruct (read vid) as [[f|] v1].
  - by intros [= <- <- <-].
  - destruct (read (rewind v1)) as [[f|] v2]; by intros [= <- <- <-].
Qed.

(** The background has the shape of the frame in every mode. *)
Lemma select_background_rect h w mode bg_img vid frame bg vid' warning :
  (∀ img cols rows, rect rows cols (cv2_resize img cols rows)) →
  rect h w bg_img → rect h w frame →
  select_background cv2_resize mode bg_img vid frame (h, w)
  = (bg, vid', warning) →
  rect h w bg.
Proof.
  intros Hcv Hbg Hf. unfold select_background.
  destruct (mode =? 0)%nat; [by intros [= <- <- <-]|].
  destruct (mode =? 1)%nat;
    [|intros [= <- <- <-]; by apply zeros_like_rect].
  destruct (read vid) as [[f|] v1].
  - intros [= <- <- <-]. apply Hcv.
  - destruct (read (rewind v1)) as [[f|] v2]; intros [= <- <- <-];
      [apply Hcv|by apply zeros_like_rect].
Qed.

(** One iteration: its control outcome, the new mode and what it sends
    to the writer, the window and the snapshot files. *)
Lemma iteration_events bg_img shape n frame st c st' :
  iteration BGR2HSV GaussianBlur_at cv2_resize waitKey strftime
    bg_img shape n frame st = (c, st') →
  let sel :=
    select_background cv2_resize (bg_mode st) bg_img (bg_vid_cap st)
      frame shape in
  let key := Z.land (waitKey n) 255 in
  bg_vid_cap st' = sel.1.2
  ∧ match advanced_chroma_key BGR2HSV GaussianBlur_at frame sel.1.1
            ref.GREEN_LOWER ref.GREEN_UPPER FEATHER_RADIUS SPILL_SUPPRESS with
    | inl e =>
        c = Raise e
        ∧ bg_mode st' = bg_mode st
        ∧ written (log st') = written (log st)
        ∧ shown (log st') = shown (log st)
        ∧ snapshots (log st') = snapshots (log st)
    | inr result =>
        c = (if key =? ord "q" then Break else Continue)
        ∧ bg_mode st'
          = (if key =? ord "q" then bg_mode st
             else if key =? ord "b" then ((bg_mode st + 1) mod 3)%nat
             else bg_mode st)
        ∧ written (log st') = written (log st) ++ [result]
        ∧ shown (log st') = shown (log st) ++ [result]
        ∧ snapshots (log st')
          = snapshots (log st)
            ++ (if key =? ord "s" then [result] else [])
    end.
Proof.
  unfold iteration. intros Hit. cbv zeta.
  destruct (select_background cv2_resize (bg_mode st) bg_img (bg_vid_cap st)
              frame shape) as [[bg vid] warning] eqn:Hsel.
  destruct (select_background_warning _ _ _ _ _ _ _ _ Hsel)
    as (Hw & Hs & Hp).
  simpl.
  destruct (advanced_chroma_key BGR2HSV GaussianBlur_at frame bg
              ref.GREEN_LOWER ref.GREEN_UPPER FEATHER_RADIUS SPILL_SUPPRESS)
    as [e|result].
  { injection Hit as <- <-. simpl.
    rewrite written_app, shown_app, snapshots_app, Hw, Hs, Hp, !app_nil_r.
    done. }
  destruct (Z.land (waitKey n) 255 =? ord "q") eqn:Hq.
  { injection Hit as <- <-. simpl.
    apply Z.eqb_eq in Hq.
    assert ((Z.land (waitKey n) 255 =? ord "s") = false) as ->
      by (rewrite Hq; reflexivity).
    rewrite !written_app, !shown_app, !snapshots_app, Hw, Hs, Hp.
    by rewrite !app_nil_r. }
  destruct (Z.land (waitKey n) 255 =? ord "b") eqn:Hb.
  { injection Hit as <- <-. simpl.
    apply Z.eqb_eq in Hb.
    assert ((Z.land (waitKey n) 255 =? ord "s") = false) as ->
      by (rewrite Hb; reflexivity).
    rewrite !written_app, !shown_app, !snapshots_app, Hw, Hs, Hp.
    by rewrite !app_nil_r. }
  destruct (Z.land (waitKey n) 255 =? ord "s") eqn:Hs'.
  - injection Hit as <- <-. simpl.
    rewrite !written_app, !shown_app, !snapshots_app, Hw, Hs, Hp.
    simpl. by rewrite !app_nil_r.
  - injection Hit as <- <-. simpl.
    rewrite !written_app, !shown_app, !snapshots_app, Hw, Hs, Hp.
    by rewrite !app_nil_r.
Qed.

(** *** Loading the background *)

(** X8.  With a resizing function that delivers the requested size, the
    background loaded for the shape of a non-empty frame has that
    shape, holds the resized image with blue and red exchanged, and,
    with an odd (so positive) feather radius, the compositing of the
    frame over it returns a frame of the same shape (it cannot fail on
    the shapes). *)
Theorem load_background_fits_frame h w frame img green_lower green_upper
    feather_radius spill_suppress :
  (∀ img cols rows, rect rows cols (PIL_resize img cols rows)) →
  rect h w frame → (0 < h)%nat → (0 < w)%nat →
  Nat.odd feather_radius = true →
  ∃ bg out,
    load_background PIL_resize (Some img) (height frame, width frame) = inr bg
    ∧ rect h w bg
    ∧ (∀ i j p, at2 (PIL_resize img w h) i j = Some p →
         at2 bg i j = Some (Px (ch2 p) (ch1 p) (ch0 p)))
    ∧ advanced_chroma_key BGR2HSV GaussianBlur_at frame bg
        green_lower green_upper feather_radius spill_suppress = inr out
    ∧ rect h w out.
Proof.
  intros Hpil Hf Hh Hw Hodd.
  assert (height frame = h) as Hhe by (by destruct Hf).
  pose proof (width_rect h w frame Hf Hh) as Hwi.
  unfold load_background. simpl. rewrite Hhe, Hwi.
  assert (rect h w (map2d reverse_channels (PIL_resize img w h))) as Hbg
    by apply rect_map2d, Hpil.
  destruct (advanced_chroma_key_same_shape BGR2HSV GaussianBlur_at h w frame
              _ green_lower green_upper feather_radius spill_suppress
              Hf Hbg Hh Hw)
    as (mask & out & _ & _ & Hout & Ho & _).
  eexists. exists out. split; [done|]. split; [done|].
  split; [|done]. intros i j p Hp. by rewrite at2_map2d, Hp.
Qed.

(** X9.  Reversing the channel axis twice gives the array back: the
    conversion from RGB to BGR is its own inverse. *)
Theorem reverse_channels_twice (a : image (px Z)) :
  map2d reverse_channels (map2d reverse_channels a) = a.
Proof.
  unfold map2d. rewrite <- list_fmap_compose.
  rewrite <- (list_fmap_id a) at 2. apply list_fmap_ext. intros _ r _.
  simpl. rewrite <- list_fmap_compose.
  rewrite <- (list_fmap_id r) at 2. apply list_fmap_ext. intros _ p _.
  by destruct p.
Qed.

(** *** The background video *)

Lemma select_video bg_img vid frame shape f :
  (pos vid ≤ length (frames vid))%nat →
  frames vid !! (pos vid mod length (frames vid))%nat = Some f →
  select_background cv2_resize 1 bg_img vid frame shape
  = (cv2_resize f shape.2 shape.1,
     {| frames := frames vid;
        pos := S (pos vid mod length (frames vid)) |}, []).
Proof.
  intros Hpos Hf. unfold select_background. simpl. unfold read.
  assert (0 < length (frames vid))%nat as HL.
  { apply lookup_lt_Some in Hf. lia. }
  destruct (decide (pos vid < length (frames vid))%nat) as [Hlt|Hge].
  - rewrite Nat.mod_small in Hf by done. rewrite Hf.
    by rewrite Nat.mod_small.
  - assert (pos vid = length (frames vid)) as Heq by lia.
    rewrite Heq in Hf. rewrite Nat.Div0.mod_same in Hf.
    rewrite (lookup_ge_None_2 (frames vid) (pos vid)) by lia.
    simpl. rewrite Hf. by rewrite Heq, Nat.Div0.mod_same.
Qed.

Lemma video_backgrounds_lookup bg_img frame shape n :
  ∀ vid k f,
    (pos vid ≤ length (frames vid))%nat → (k < n)%nat →
    frames vid !! ((pos vid + k) mod length (frames vid))%nat = Some f →
    video_backgrounds cv2_resize n bg_img vid frame shape !! k
    = Some (cv2_resize f shape.2 shape.1).
Proof.
  induction n as [|n IH]; intros vid k f Hpos Hk Hf; [lia|].
  assert (0 < length (frames vid))%nat as HL.
  { apply lookup_lt_Some in Hf. lia. }
  destruct (lookup_lt_is_Some_2 (frames vid)
              (pos vid mod length (frames vid))%nat) as [f0 Hf0].
  { by apply Nat.mod_upper_bound, Nat.neq_0_lt_0. }
  simpl. rewrite (select_video bg_img vid frame shape f0 Hpos Hf0).
  destruct k as [|k]; simpl.
  - rewrite Nat.add_0_r in Hf. congruence.
  - apply IH; simpl.
    + pose proof (Nat.mod_upper_bound (pos vid) (length (frames vid))). lia.
    + lia.
    + rewrite <- Hf. f_equal.
      replace (S (pos vid mod length (frames vid) + k))%nat
        with (pos vid mod length (frames vid) + S k)%nat by lia.
      by rewrite Nat.Div0.add_mod_idemp_l.
Qed.

(** X10.  In video mode a background video that delivers frames is
    played in a loop: the background of the k-th successive iteration is
    the resized frame number [k mod length] of the video, and the black
    fallback is never used. *)
Theorem video_background_loops bg_img video frame shape n k f :
  (k < n)%nat → video !! (k mod length video)%nat = Some f →
  video_backgrounds cv2_resize n bg_img {| frames := video; pos := 0 |}
    frame shape !! k
  = Some (cv2_resize f shape.2 shape.1).
Proof.
  intros Hk Hf. apply video_backgrounds_lookup; simpl; [lia|done|done].
Qed.

(** X11.  In video mode a background video that delivers no frame
    (a file that does not open) gives a black background of the shape
    of the frame in every iteration, with the warning printed, and the
    capture stays as it is. *)
Theorem missing_video_gives_black h w bg_img vid frame shape :
  frames vid = [] → rect h w frame →
  select_background cv2_resize 1 bg_img vid frame shape
  = (zeros_like frame, rewind vid,
     [Print "Warning: Could not read background video frame. Using black background."])
  ∧ frames (rewind vid) = []
  ∧ rect h w (zeros_like frame)
  ∧ all2d (λ p, p = Px 0 0 0) (zeros_like frame).
Proof.
  intros Hv Hf. destruct vid as [fr p]. simpl in Hv. subst fr.
  unfold select_background, read, rewind. simpl.
  repeat first [rewrite lookup_nil | progress simpl].
  split; [done|]. split; [done|].
  split; [by apply zeros_like_rect|].
  apply (all2d_map2d (λ _, True)); [done|]. by apply all2d_at2.
Qed.

(** *** The loop *)

Lemma loop_events bg_img shape remaining :
  ∀ n st r st',
    loop BGR2HSV GaussianBlur_at cv2_resize waitKey strftime
      bg_img shape remaining n st = (r, st') →
    shown (log st) = written (log st) →
    snapshots (log st) `sublist_of` written (log st) →
    shown (log st') = written (log st')
    ∧ snapshots (log st') `sublist_of` written (log st').
Proof.
  induction remaining as [|frame remaining IH]; intros n st r st' Hloop Hs Hp.
  { simpl in Hloop. by injection Hloop as <- <-. }
  simpl in Hloop.
  destruct (iteration BGR2HSV GaussianBlur_at cv2_resize waitKey strftime
              bg_img shape n frame st) as [c st1] eqn:Hit.
  apply iteration_events in Hit as [_ Hev]. cbv zeta in Hev.
  destruct (advanced_chroma_key _ _ _ _ _ _ _ _) as [e|result].
  - destruct Hev as (-> & _ & Hw1 & Hs1 & Hp1).
    injection Hloop as <- <-. rewrite Hw1, Hs1, Hp1. done.
  - destruct Hev as (Hc & _ & Hw1 & Hs1 & Hp1).
    assert (shown (log st1) = written (log st1)) as Hs'
      by (rewrite Hw1, Hs1; congruence).
    assert (snapshots (log st1) `sublist_of` written (log st1)) as Hp'.
    { rewrite Hw1, Hp1. apply sublist_app; [done|].
      destruct (_ =? ord "s"); [done|apply sublist_nil_l]. }
    destruct c as [| |e]; [by eapply IH| |].
    + by injection Hloop as <- <-.
    + by destruct (_ =? ord "q").
Qed.

(** X12.  Whatever the capture, the files and the keys, [main] shows
    exactly the frames it writes, in the same order, and every snapshot
    it saves is one of the written frames, in order. *)
Theorem shown_frames_are_written cap file video :
  let l := (main BGR2HSV GaussianBlur_at PIL_resize cv2_resize waitKey
              strftime cap file video).2 in
  shown l = written l ∧ snapshots l `sublist_of` written l.
Proof.
  unfold main. destruct cap as [[|frame remaining]|]; simpl; [done| |done].
  destruct (load_background PIL_resize file _) as [e|bg_img]; simpl; [done|].
  destruct (loop _ _ _ _ _ _ _ _ _) as [r st'] eqn:Hloop. simpl.
  by apply (loop_events _ _ _ _ _ _ _ Hloop).
Qed.

(** The frames of one shape, with a background image of that shape. *)
Lemma iteration_uniform h w bg_img frame st :
  (∀ img cols rows, rect rows cols (cv2_resize img cols rows)) →
  rect h w bg_img → rect h w frame → (0 < h)%nat → (0 < w)%nat →
  ∃ result,
    advanced_chroma_key BGR2HSV GaussianBlur_at frame
      (select_background cv2_resize (bg_mode st) bg_img (bg_vid_cap st)
         frame (h, w)).1.1
      ref.GREEN_LOWER ref.GREEN_UPPER FEATHER_RADIUS SPILL_SUPPRESS
    = inr result
    ∧ rect h w result.
Proof.
  intros Hcv Hbg Hf Hh Hw.
  destruct (select_background cv2_resize (bg_mode st) bg_img (bg_vid_cap st)
              frame (h, w)) as [[bg vid] warning] eqn:Hsel.
  pose proof (select_background_rect h w _ _ _ _ _ _ _ Hcv Hbg Hf Hsel) as Hb.
  destruct (advanced_chroma_key_same_shape BGR2HSV GaussianBlur_at h w frame
              bg ref.GREEN_LOWER ref.GREEN_UPPER FEATHER_RADIUS SPILL_SUPPRESS
              Hf Hb Hh Hw)
    as (mask & out & _ & _ & Hout & Ho & _).
  by exists out.
Qed.

Lemma loop_uniform h w bg_img remaining :
  (∀ img cols rows, rect rows cols (cv2_resize img cols rows)) →
  rect h w bg_img → (0 < h)%nat → (0 < w)%nat →
  Forall (rect h w) remaining →
  ∀ n st r st',
    loop BGR2HSV GaussianBlur_at cv2_resize waitKey strftime
      bg_img (h, w) remaining n st = (r, st') →
    Forall (rect h w) (written (log st)) →
    r = None ∧ Forall (rect h w) (written (log st')).
Proof.
  intros Hcv Hbg Hh Hw Hall.
  induction Hall as [|frame remaining Hf Hall IH]; intros n st r st' Hloop Hwr.
  { simpl in Hloop. by injection Hloop as <- <-. }
  simpl in Hloop.
  destruct (iteration BGR2HSV GaussianBlur_at cv2_resize waitKey strftime
              bg_img (h, w) n frame st) as [c st1] eqn:Hit.
  apply iteration_events in Hit as [_ Hev]. cbv zeta in Hev.
  destruct (iteration_uniform h w bg_img frame st Hcv Hbg Hf Hh Hw)
    as (result & Hres & Hrr).
  rewrite Hres in Hev. destruct Hev as (Hc & _ & Hw1 & _).
  assert (Forall (rect h w) (written (log st1))) as Hwr1.
  { rewrite Hw1. apply Forall_app. split; [done|]. by constructor. }
  destruct (Z.land (waitKey n) 255 =? ord "q"); subst c.
  - by injection Hloop as <- <-.
  - by eapply IH.
Qed.

(** X13.  When the capture delivers non-empty frames of one shape, the
    background image file opens and both resizing functions deliver the
    requested size, [main] returns without an exception, in every
    background mode and whatever the keys, and every frame it writes
    has the shape of the captured frames. *)
Theorem main_never_raises h w frame remaining img video :
  (∀ img cols rows, rect rows cols (PIL_resize img cols rows)) →
  (∀ img cols rows, rect rows cols (cv2_resize img cols rows)) →
  Forall (rect h w) (frame :: remaining) → (0 < h)%nat → (0 < w)%nat →
  ∃ l,
    main BGR2HSV GaussianBlur_at PIL_resize cv2_resize waitKey strftime
      (Some (frame :: remaining)) (Some img) video = (None, l)
    ∧ Forall (rect h w) (written l).
Proof.
  intros Hpil Hcv Hall Hh Hw. apply Forall_cons in Hall as [Hf Hall].
  assert (height frame = h) as Hhe by (by destruct Hf).
  pose proof (width_rect h w frame Hf Hh) as Hwi.
  unfold main, load_background. simpl. rewrite Hhe, Hwi.
  destruct (loop _ _ _ _ _ _ _ _ _) as [r st'] eqn:Hloop.
  apply (loop_uniform h w) in Hloop as [-> Hwr]; try done.
  - by eexists.
  - apply rect_map2d, Hpil.
Qed.

Lemma loop_count h w bg_img remaining :
  (∀ img cols rows, rect rows cols (cv2_resize img cols rows)) →
  rect h w bg_img → (0 < h)%nat → (0 < w)%nat →
  Forall (rect h w) remaining →
  ∀ n st r st',
    loop BGR2HSV GaussianBlur_at cv2_resize waitKey strftime
      bg_img (h, w) remaining n st = (r, st') →
    ((∀ i, (n ≤ i < n + length remaining)%nat →
           Z.land (waitKey i) 255 ≠ ord "q") →
     length (written (log st'))
     = (length (written (log st)) + length remaining)%nat)
    ∧ (∀ k, (k < length remaining)%nat →
            (∀ i, (i < k)%nat → Z.land (waitKey (n + i)) 255 ≠ ord "q") →
            Z.land (waitKey (n + k)) 255 = ord "q" →
            length (written (log st'))
            = (length (written (log st)) + S k)%nat).
Proof.
  intros Hcv Hbg Hh Hw Hall.
  induction Hall as [|frame remaining Hf Hall IH]; intros n st r st' Hloop.
  { simpl in Hloop. injection Hloop as <- <-. simpl.
    split; [intros _; lia|]. intros k Hk. lia. }
  simpl in Hloop.
  destruct (iteration BGR2HSV GaussianBlur_at cv2_resize waitKey strftime
              bg_img (h, w) n frame st) as [c st1] eqn:Hit.
  apply iteration_events in Hit as [_ Hev]. cbv zeta in Hev.
  destruct (iteration_uniform h w bg_img frame st Hcv Hbg Hf Hh Hw)
    as (result & Hres & Hrr).
  rewrite Hres in Hev. destruct Hev as (Hc & _ & Hw1 & _).
  assert (length (written (log st1)) = S (length (written (log st)))) as Hlen.
  { rewrite Hw1, length_app. simpl. lia. }
  destruct (Z.eqb_spec (Z.land (waitKey n) 255) (ord "q")) as [Hq|Hq];
    subst c.
  - injection Hloop as <- <-. split.
    + intros Hno. exfalso. apply (Hno n); [simpl; lia|done].
    + intros [|k] Hk Hbefore Hat.
      * lia.
      * exfalso. apply (Hbefore 0%nat); [lia|by rewrite Nat.add_0_r].
  - destruct (IH (S n) st1 r st' Hloop) as [IHno IHq]. split.
    + intros Hno. rewrite IHno; [simpl; lia|].
      intros i Hi. apply Hno. simpl. lia.
    + intros [|k] Hk Hbefore Hat.
      * by rewrite Nat.add_0_r in Hat.
      * rewrite (IHq k); [lia|simpl in Hk; lia| |].
        -- intros i Hi. replace (S n + i)%nat with (n + S i)%nat by lia.
           apply Hbefore. lia.
        -- by replace (S n + k)%nat with (n + S k)%nat by lia.
Qed.

(** X14.  Under the conditions of X13 and with 'q' never pressed, the
    number of frames written is the number of frames the capture
    delivers minus one: the first frame only gives the shape and is
    never composited. *)
Theorem first_frame_is_not_written h w frame remaining img video :
  (∀ img cols rows, rect rows cols (PIL_resize img cols rows)) →
  (∀ img cols rows, rect rows cols (cv2_resize img cols rows)) →
  Forall (rect h w) (frame :: remaining) → (0 < h)%nat → (0 < w)%nat →
  (∀ i, (i < length remaining)%nat → Z.land (waitKey i) 255 ≠ ord "q") →
  length (written
            (main BGR2HSV GaussianBlur_at PIL_resize cv2_resize waitKey
               strftime (Some (frame :: remaining)) (Some img) video).2)
  = length remaining.
Proof.
  intros Hpil Hcv Hall Hh Hw Hno. apply Forall_cons in Hall as [Hf Hall].
  assert (height frame = h) as Hhe by (by destruct Hf).
  pose proof (width_rect h w frame Hf Hh) as Hwi.
  unfold main, load_background. simpl. rewrite Hhe, Hwi.
  destruct (loop _ _ _ _ _ _ _ _ _) as [r st'] eqn:Hloop. simpl.
  apply (loop_count h w) in Hloop as [Hcount _]; try done.
  - rewrite Hcount; [done|]. intros i Hi. apply Hno. lia.
  - apply rect_map2d, Hpil.
Qed.

(** X15.  Under the conditions of X13, when 'q' is first seen in
    iteration [k] the loop stops there, after that iteration's frame
    has been shown and written: [k + 1] frames are written. *)
Theorem quit_stops_after_writing h w frame remaining img video k :
  (∀ img cols rows, rect rows cols (PIL_resize img cols rows)) →
  (∀ img cols rows, rect rows cols (cv2_resize img cols rows)) →
  Forall (rect h w) (frame :: remaining) → (0 < h)%nat → (0 < w)%nat →
  (k < length remaining)%nat →
  (∀ i, (i < k)%nat → Z.land (waitKey i) 255 ≠ ord "q") →
  Z.land (waitKey k) 255 = ord "q" →
  length (written
            (main BGR2HSV GaussianBlur_at PIL_resize cv2_resize waitKey
               strftime (Some (frame :: remaining)) (Some img) video).2)
  = S k.
Proof.
  intros Hpil Hcv Hall Hh Hw Hk Hbefore Hat.
  apply Forall_cons in Hall as [Hf Hall].
  assert (height frame = h) as Hhe by (by destruct Hf).
  pose proof (width_rect h w frame Hf Hh) as Hwi.
  unfold main, load_background. simpl. rewrite Hhe, Hwi.
  destruct (loop _ _ _ _ _ _ _ _ _) as [r st'] eqn:Hloop. simpl.
  apply (loop_count h w) in Hloop as [_ Hcount]; try done.
  - by rewrite (Hcount k).
  - apply rect_map2d, Hpil.
Qed.

Lemma presses_step c n len :
  presses waitKey c n (S len)
  = Nat.add (if Z.land (waitKey n) 255 =? ord c then 1%nat else 0%nat)
      (presses waitKey c (S n) len).
Proof.
  unfold presses. simpl. rewrite filter_cons.
  destruct (Z.eqb_spec (Z.land (waitKey n) 255) (ord c));
    destruct (decide _); try done.
Qed.

(** X16.  In a run of the loop that ends by the capture running out
    (no exception, 'q' never pressed), the background mode at the end
    is the mode at the start advanced by the number of iterations that
    saw 'b', modulo 3: the key cycles image, video, black. *)
Theorem background_mode_cycles bg_img shape remaining n st st' :
  loop BGR2HSV GaussianBlur_at cv2_resize waitKey strftime
    bg_img shape remaining n st = (None, st') →
  (∀ i, (n ≤ i < n + length remaining)%nat →
        Z.land (waitKey i) 255 ≠ ord "q") →
  (bg_mode st < 3)%nat →
  bg_mode st'
  = ((bg_mode st + presses waitKey "b" n (length remaining)) mod 3)%nat.
Proof.
  revert n st. induction remaining as [|frame remaining IH];
    intros n st Hloop Hno Hmode.
  { simpl in Hloop. injection Hloop as <-.
    change (presses waitKey "b" n (length [])) with 0%nat.
    rewrite Nat.add_0_r. by rewrite Nat.mod_small. }
  simpl in Hloop.
  destruct (iteration BGR2HSV GaussianBlur_at cv2_resize waitKey strftime
              bg_img shape n frame st) as [c st1] eqn:Hit.
  apply iteration_events in Hit as [_ Hev]. cbv zeta in Hev.
  destruct (advanced_chroma_key _ _ _ _ _ _ _ _) as [e|result].
  { by destruct Hev as (-> & _). }
  destruct Hev as (Hc & Hm & _).
  destruct (Z.eqb_spec (Z.land (waitKey n) 255) (ord "q")) as [Hq|Hq].
  { exfalso. apply (Hno n); [simpl; lia|done]. }
  subst c.
  change (length (frame :: remaining)) with (S (length remaining)).
  rewrite presses_step.
  rewrite (IH (S n) st1 Hloop).
  - rewrite Hm.
    destruct (Z.land (waitKey n) 255 =? ord "b").
    + rewrite Nat.Div0.add_mod_idemp_l. f_equal. lia.
    + f_equal.
  - intros i Hi. apply Hno. simpl. lia.
  - rewrite Hm. destruct (Z.land (waitKey n) 255 =? ord "b"); [|done].
    by apply Nat.mod_upper_bound.
Qed.

End ScriptProperties.

(** X17.  An iteration looks only at the low byte of what [cv2.waitKey]
    returns: two keyboards whose values in that iteration agree modulo
    256 give the same iteration.  In particular -1 (no key) acts as 255:
    the iteration does not stop the loop, keeps the background mode and
    saves no snapshot. *)
Theorem key_low_byte BGR2HSV GaussianBlur_at cv2_resize strftime
    (keys keys' : nat → Z) bg_img shape n frame st :
  keys n mod 256 = keys' n mod 256 →
  iteration BGR2HSV GaussianBlur_at cv2_resize keys strftime
    bg_img shape n frame st
  = iteration BGR2HSV GaussianBlur_at cv2_resize keys' strftime
      bg_img shape n frame st
  ∧ (keys n = -1 →
     ∀ c st',
       iteration BGR2HSV GaussianBlur_at cv2_resize keys strftime
         bg_img shape n frame st = (c, st') →
       c ≠ Break
       ∧ bg_mode st' = bg_mode st
       ∧ snapshots (log st') = snapshots (log st)).
Proof.
  intros H. split.
  { unfold iteration. by rewrite !land_255, H. }
  intros Hkey c st' Hit.
  apply iteration_events in Hit as [_ Hev]. cbv zeta in Hev.
  rewrite Hkey in Hev. change (Z.land (-1) 255) with 255 in Hev.
  change (255 =? ord "q") with false in Hev.
  change (255 =? ord "b") with false in Hev.
  change (255 =? ord "s") with false in Hev.
  destruct (advanced_chroma_key _ _ _ _ _ _ _ _) as [e|result].
  - destruct Hev as (-> & Hm & _ & _ & Hp). done.
  - destruct Hev as (-> & Hm & _ & _ & Hp). rewrite app_nil_r in Hp. done.
Qed.

(** X18.  A capture that does not open, or delivers no frame, or
    delivers a single frame, leads to no frame shown, written or saved:
    the first frame is read for its shape only. *)
Theorem no_output_without_second_frame BGR2HSV GaussianBlur_at PIL_resize
    cv2_resize waitKey strftime cap file video :
  (length (default [] cap) ≤ 1)%nat →
  let l := (main BGR2HSV GaussianBlur_at PIL_resize cv2_resize waitKey
              strftime cap file video).2 in
  written l = [] ∧ shown l = [] ∧ snapshots l = [].
Proof.
  intros Hlen. unfold main.
  destruct cap as [[|frame [|frame' remaining]]|]; simpl in *; try done.
  - by destruct (load_background PIL_resize file _).
  - lia.
Qed.

(** ** The further properties at concrete inputs *)

Lemma world_resize_rect img cols rows : rect rows cols (world.resize img cols rows).
Proof.
  unfold world.resize. split.
  - by rewrite length_fmap, length_seq.
  - rewrite Forall_fmap. apply Forall_forall. intros i _. simpl.
    by rewrite length_fmap, length_seq.
Qed.

Lemma no_blur_keeps (P : Q → Prop) (m : image Q) k :
  all2d P m → all2d P (GaussianBlur world.no_blur m k).
Proof.
  intros Hm. apply all2d_at2. intros i j y. unfold GaussianBlur.
  rewrite at2_imap2d. unfold world.no_blur.
  destruct (at2 m i j) as [x|] eqn:Hx; simpl; [|done]. intros [= <-].
  rewrite all2d_at2 in Hm. by eapply Hm.
Qed.

Lemma mask_one_gives_background_witness :
  rect 1 6 sample.strip ∧ rect 1 6 sample.black_strip
  ∧ (0 < 1)%nat ∧ (0 < 6)%nat
  ∧ all2d (px_all is_uint8) sample.black_strip
  ∧ ∃ mask out,
      soft_mask ref.BGR2HSV ref.GaussianBlur_at sample.strip
        ref.GREEN_LOWER ref.GREEN_UPPER 3 = inr mask
      ∧ advanced_chroma_key ref.BGR2HSV ref.GaussianBlur_at
          sample.strip sample.black_strip ref.GREEN_LOWER ref.GREEN_UPPER
          3 (7 # 10) = inr out
      ∧ ∀ i j b m, at2 sample.black_strip i j = Some b →
          at2 mask i j = Some m → (m == 1)%Q → at2 out i j = Some b.
Proof.
  split; [concrete|]. split; [concrete|]. split; [lia|]. split; [lia|].
  split; [concrete|].
  apply (mask_one_gives_background ref.BGR2HSV ref.GaussianBlur_at 1 6
           sample.strip sample.black_strip ref.GREEN_LOWER ref.GREEN_UPPER
           3 (7 # 10)); concrete.
Defined.

Lemma keyed_frame_becomes_background_witness :
  rect 2 2 sample.square ∧ rect 2 2 [[sample.grey; sample.black];
                                      [sample.dark; sample.grey]]
  ∧ all2d (λ p, within ref.GREEN_LOWER ref.GREEN_UPPER (ref.BGR2HSV p))
      sample.square
  ∧ advanced_chroma_key ref.BGR2HSV world.no_blur sample.square
      [[sample.grey; sample.black]; [sample.dark; sample.grey]]
      ref.GREEN_LOWER ref.GREEN_UPPER 1 (7 # 10)
    = inr [[sample.grey; sample.black]; [sample.dark; sample.grey]].
Proof.
  split; [concrete|]. split; [concrete|].
  split; [repeat constructor; vm_compute; intros; discriminate|].
  apply (keyed_frame_becomes_background ref.BGR2HSV world.no_blur 2 2).
  - concrete.
  - concrete.
  - lia.
  - lia.
  - concrete.
  - repeat constructor; vm_compute; intros; discriminate.
  - intros m _ Hm. apply no_blur_keeps.
    eapply Forall_impl; [exact Hm|]. intros r Hr.
    eapply Forall_impl; [exact Hr|]. intros v Hv. simpl in *. rewrite Hv.
    apply Qle_refl.
Defined.

Lemma unkeyed_frame_is_returned_witness :
  rect 1 2 world.red_frame ∧ rect 1 2 [[sample.grey; sample.black]]
  ∧ all2d (px_all is_uint8) world.red_frame
  ∧ all2d (λ p, ¬ within ref.GREEN_LOWER ref.GREEN_UPPER (ref.BGR2HSV p))
      world.red_frame
  ∧ advanced_chroma_key ref.BGR2HSV world.no_blur world.red_frame
      [[sample.grey; sample.black]]
      ref.GREEN_LOWER ref.GREEN_UPPER 1 (7 # 10)
    = inr world.red_frame.
Proof.
  assert (all2d (λ p, ¬ within ref.GREEN_LOWER ref.GREEN_UPPER
                        (ref.BGR2HSV p)) world.red_frame) as Hout.
  { repeat constructor; vm_compute; intros (H & _); destruct H as [H _];
      by apply H. }
  split; [concrete|]. split; [concrete|]. split; [concrete|].
  split; [exact Hout|].
  apply (unkeyed_frame_is_returned ref.BGR2HSV world.no_blur 1 2).
  - concrete.
  - concrete.
  - lia.
  - lia.
  - concrete.
  - exact Hout.
  - intros m _ Hm. apply no_blur_keeps.
    eapply Forall_impl; [exact Hm|]. intros r Hr.
    eapply Forall_impl; [exact Hr|]. intros v Hv. simpl in *. rewrite Hv.
    apply Qle_refl.
Defined.

Lemma erosion_shrinks_dilation_grows_witness :
  at2 [[1; 3 # 4; 0]]%Q 0 1 = Some (3 # 4)%Q
  ∧ ∃ e d,
      at2 (cv2.erode1 (np.ones 3 3) [[1; 3 # 4; 0]]%Q) 0 1 = Some e
      ∧ at2 (cv2.dilate1 (np.ones 3 3) [[1; 3 # 4; 0]]%Q) 0 1 = Some d
      ∧ (e <= 3 # 4 <= d)%Q.
Proof.
  split; [reflexivity|].
  apply (erosion_shrinks_dilation_grows [[1; 3 # 4; 0]]%Q 0 1 (3 # 4)%Q).
  reflexivity.
Defined.

Lemma empty_frame_raises_witness :
  sample.heap [] sample.dot !! 1%positive = Some (U8x3 [])
  ∧ cv2.empty (A:=px Z) [] = true
  ∧ advanced_chroma_key_heap ref.BGR2HSV ref.GaussianBlur_at 1 2
      ref.GREEN_LOWER ref.GREEN_UPPER 15 (7 # 10) (sample.heap [] sample.dot)
    = Some (inl cv2_error, sample.heap [] sample.dot).
Proof.
  split; [reflexivity|]. split; [reflexivity|].
  apply (empty_frame_raises ref.BGR2HSV ref.GaussianBlur_at
           (sample.heap [] sample.dot) 1 2 []); reflexivity.
Defined.

Lemma load_background_fits_frame_witness :
  (∀ img cols rows, rect rows cols (world.resize img cols rows))
  ∧ rect 1 2 world.green_frame ∧ Nat.odd FEATHER_RADIUS = true
  ∧ ∃ bg out,
      load_background world.resize (Some world.file)
        (height world.green_frame, width world.green_frame) = inr bg
      ∧ rect 1 2 bg
      ∧ (∀ i j p, at2 (world.resize world.file 2 1) i j = Some p →
           at2 bg i j = Some (Px (ch2 p) (ch1 p) (ch0 p)))
      ∧ advanced_chroma_key ref.BGR2HSV ref.GaussianBlur_at
          world.green_frame bg ref.GREEN_LOWER ref.GREEN_UPPER
          FEATHER_RADIUS SPILL_SUPPRESS = inr out
      ∧ rect 1 2 out.
Proof.
  split; [apply world_resize_rect|]. split; [concrete|].
  split; [reflexivity|].
  apply (load_background_fits_frame ref.BGR2HSV ref.GaussianBlur_at
           world.resize 1 2 world.green_frame world.file);
    first [apply world_resize_rect | concrete].
Defined.

Lemma video_background_loops_witness :
  (5 < 6)%nat ∧ world.video !! (5 mod length world.video)%nat
                = Some [[Px 2 2 2]]
  ∧ video_backgrounds world.resize 6 world.file
      {| frames := world.video; pos := 0 |} world.green_frame (1, 2)%nat !! 5%nat
    = Some (world.resize [[Px 2 2 2]] 2 1).
Proof.
  split; [lia|]. split; [reflexivity|].
  apply (video_background_loops world.resize world.file world.video
           world.green_frame (1, 2)%nat 6 5 [[Px 2 2 2]]);
    [lia|reflexivity].
Defined.

Lemma missing_video_gives_black_witness :
  frames {| frames := []; pos := 0 |} = [] ∧ rect 1 2 world.green_frame
  ∧ select_background world.resize 1 world.file {| frames := []; pos := 0 |}
      world.green_frame (1, 2)%nat
    = (zeros_like world.green_frame, rewind {| frames := []; pos := 0 |},
       [Print "Warning: Could not read background video frame. Using black background."])
  ∧ frames (rewind {| frames := []; pos := 0 |}) = []
  ∧ rect 1 2 (zeros_like world.green_frame)
  ∧ all2d (λ p, p = Px 0 0 0) (zeros_like world.green_frame).
Proof.
  split; [reflexivity|]. split; [concrete|].
  apply (missing_video_gives_black world.resize 1 2 world.file
           {| frames := []; pos := 0 |} world.green_frame (1, 2)%nat);
    concrete.
Defined.

Lemma main_never_raises_witness :
  Forall (rect 1 2) [world.green_frame; world.green_frame; world.red_frame]
  ∧ ∃ l,
      main ref.BGR2HSV ref.GaussianBlur_at world.resize world.resize
        world.always_b world.clock
        (Some [world.green_frame; world.green_frame; world.red_frame])
        (Some world.file) world.video = (None, l)
      ∧ Forall (rect 1 2) (written l).
Proof.
  split; [concrete|].
  apply (main_never_raises ref.BGR2HSV ref.GaussianBlur_at world.resize
           world.resize world.always_b world.clock 1 2 world.green_frame
           [world.green_frame; world.red_frame] world.file world.video);
    first [apply world_resize_rect | concrete].
Defined.

Lemma first_frame_is_not_written_witness :
  Forall (rect 1 2) [world.green_frame; world.green_frame; world.red_frame]
  ∧ (∀ i, (i < 2)%nat → Z.land (world.no_key i) 255 ≠ ord "q")
  ∧ length (written
              (main ref.BGR2HSV ref.GaussianBlur_at world.resize world.resize
                 world.no_key world.clock
                 (Some [world.green_frame; world.green_frame; world.red_frame])
                 (Some world.file) world.video).2)
    = 2%nat.
Proof.
  split; [concrete|]. split; [intros i _; discriminate|].
  apply (first_frame_is_not_written ref.BGR2HSV ref.GaussianBlur_at
           world.resize world.resize world.no_key world.clock 1 2
           world.green_frame [world.green_frame; world.red_frame]
           world.file world.video);
    first [apply world_resize_rect | intros i _; discriminate | concrete].
Defined.

Lemma quit_stops_after_writing_witness :
  Forall (rect 1 2)
    [world.green_frame; world.green_frame; world.red_frame; world.red_frame]
  ∧ (1 < 3)%nat
  ∧ Z.land (world.q_at_1 1) 255 = ord "q"
  ∧ length (written
              (main ref.BGR2HSV ref.GaussianBlur_at world.resize world.resize
                 world.q_at_1 world.clock
                 (Some [world.green_frame; world.green_frame;
                        world.red_frame; world.red_frame])
                 (Some world.file) world.video).2)
    = 2%nat.
Proof.
  split; [concrete|]. split; [lia|]. split; [reflexivity|].
  apply (quit_stops_after_writing ref.BGR2HSV ref.GaussianBlur_at
           world.resize world.resize world.q_at_1 world.clock 1 2
           world.green_frame
           [world.green_frame; world.red_frame; world.red_frame]
           world.file world.video 1).
  - apply world_resize_rect.
  - apply world_resize_rect.
  - concrete.
  - lia.
  - lia.
  - simpl. lia.
  - intros i Hi. assert (i = 0%nat) as -> by lia. discriminate.
  - reflexivity.
Defined.

Lemma background_mode_cycles_witness :
  ∃ st',
    loop ref.BGR2HSV ref.GaussianBlur_at world.resize world.always_b
      world.clock (map2d reverse_channels (world.resize world.file 2 1))
      (1, 2)%nat
      [world.green_frame; world.green_frame; world.green_frame;
       world.green_frame] 0
      {| bg_mode := 0; bg_vid_cap := {| frames := world.video; pos := 0 |};
         log := [] |}
    = (None, st')
    ∧ bg_mode st' = ((0 + presses world.always_b "b" 0 4) mod 3)%nat
    ∧ bg_mode st' = 1%nat.
Proof.
  eexists. split; [vm_compute; reflexivity|].
  split; [|reflexivity].
  apply (background_mode_cycles ref.BGR2HSV ref.GaussianBlur_at world.resize
           world.always_b world.clock
           (map2d reverse_channels (world.resize world.file 2 1)) (1, 2)%nat
           [world.green_frame; world.green_frame; world.green_frame;
            world.green_frame] 0
           {| bg_mode := 0;
              bg_vid_cap := {| frames := world.video; pos := 0 |};
              log := [] |}).
  - vm_compute. reflexivity.
  - intros i _. discriminate.
  - simpl. lia.
Defined.

Lemma key_low_byte_witness :
  world.always_b 0 mod 256 = (λ _, ord "b" + 256) 0%nat mod 256
  ∧ iteration ref.BGR2HSV ref.GaussianBlur_at world.resize world.always_b
      world.clock world.file (1, 1)%nat 0 [[Px 0 255 0]]
      {| bg_mode := 0; bg_vid_cap := {| frames := []; pos := 0 |}; log := [] |}
    = iteration ref.BGR2HSV ref.GaussianBlur_at world.resize
        (λ _, ord "b" + 256) world.clock world.file (1, 1)%nat 0
        [[Px 0 255 0]]
        {| bg_mode := 0; bg_vid_cap := {| frames := []; pos := 0 |};
           log := [] |}.
Proof.
  split; [reflexivity|].
  apply (key_low_byte ref.BGR2HSV ref.GaussianBlur_at world.resize world.clock
           world.always_b (λ _, ord "b" + 256) world.file (1, 1)%nat 0
           [[Px 0 255 0]]
           {| bg_mode := 0; bg_vid_cap := {| frames := []; pos := 0 |};
              log := [] |}).
  reflexivity.
Defined.

Lemma no_output_without_second_frame_witness :
  (length (default [] (Some [world.green_frame])) ≤ 1)%nat
  ∧ written
      (main ref.BGR2HSV ref.GaussianBlur_at world.resize world.resize
         world.no_key world.clock (Some [world.green_frame])
         (Some world.file) world.video).2 = []
  ∧ shown
      (main ref.BGR2HSV ref.GaussianBlur_at world.resize world.resize
         world.no_key world.clock (Some [world.green_frame])
         (Some world.file) world.video).2 = []
  ∧ snapshots
      (main ref.BGR2HSV ref.GaussianBlur_at world.resize world.resize
         world.no_key world.clock (Some [world.green_frame])
         (Some world.file) world.video).2 = [].
Proof.
  split; [simpl; lia|].
  apply (no_output_without_second_frame ref.BGR2HSV ref.GaussianBlur_at
           world.resize world.resize world.no_key world.clock
           (Some [world.green_frame]) (Some world.file) world.video).
  simpl. lia.
Defined.

(** * The transform with float32 rounding *)

(** ** The rounding of a binary format *)












Lemma rounding_weaken u η u' η' rnd :
  (u <= u')%Q → (η <= η')%Q → rounding u η rnd → rounding u' η' rnd.
Proof.
  intros Hu He [H0 H1 H2]. split; [done|..]; intros x Hx.
  - specialize (H1 x Hx). nra.
  - specialize (H2 x Hx). nra.
Qed.

(** ** The stages with rounding *)

Section RoundedStages.

Variable BGR2HSV : px Z → px Z.
Variable GaussianBlur_at : nat → image Q → nat → nat → Q.
Variable rnd : Q → Q.
Variable rnd64 : Q → Q.

(** With a kernel size OpenCV accepts, the mask is the one of the first
    reading. *)
Lemma f32_soft_mask_odd frame lo hi k :
  Nat.odd k = true →
  f32.soft_mask BGR2HSV GaussianBlur_at frame lo hi k
  = soft_mask BGR2HSV GaussianBlur_at frame lo hi k.
Proof.
  intros Hk. unfold f32.soft_mask, soft_mask, f32.GaussianBlur. rewrite Hk.
  by destruct (threshold_mask BGR2HSV frame lo hi).
Qed.

(** With another one, line 40 raises, unless line 37 already did. *)
Lemma f32_soft_mask_even frame lo hi k :
  Nat.odd k = false →
  f32.soft_mask BGR2HSV GaussianBlur_at frame lo hi k = inl cv2_error.
Proof.
  intros Hk. unfold f32.soft_mask, f32.GaussianBlur. rewrite Hk.
  unfold threshold_mask, cvtColor. by destruct (cv2.empty frame).
Qed.

Lemma f32_decontaminate_rect h w frame mask s :
  rect h w frame → rect h w mask →
  rect h w (f32.decontaminate rnd rnd64 frame mask s).
Proof.
  intros Hf Hm. unfold f32.decontaminate.
  rewrite zip_with_fmap_l, zip_with_fmap_r.
  set (fns := np.astype_float32 frame).
  assert (rect h w fns) as Hfns by by apply rect_map2d.
  assert (rect h w (channel ch1 fns)) as Hg by by apply rect_map2d.
  set (rb := map2d _ (zip2d (f32.add rnd) _ _)).
  assert (rect h w rb) as Hrb.
  { apply rect_map2d, rect_zip2d; by apply rect_map2d. }
  assert (rect h w (f32.spill_mask_of rnd (channel ch1 fns) rb mask)) as Hsm.
  { unfold f32.spill_mask_of. repeat apply rect_zip2d; try done.
    by apply rect_map2d. }
  unfold with_ch1. apply rect_zip2d; [done|].
  by apply setitem_bool_spec.
Qed.

Lemma f32_decontaminate_at h w frame mask s i j p m :
  rect h w frame → rect h w mask →
  at2 frame i j = Some p → at2 mask i j = Some m →
  at2 (f32.decontaminate rnd rnd64 frame mask s) i j
  = Some (f32.decontaminate_px rnd rnd64 s p m).
Proof.
  intros Hf Hm Hp Hmk. unfold f32.decontaminate.
  rewrite zip_with_fmap_l, zip_with_fmap_r.
  set (fns := np.astype_float32 frame).
  assert (rect h w fns) as Hfns by by apply rect_map2d.
  assert (at2 fns i j = Some (px_map np.float32 p)) as Hq.
  { unfold fns, np.astype_float32. by rewrite at2_map2d, Hp. }
  assert (rect h w (channel ch1 fns)) as Hg by by apply rect_map2d.
  assert (at2 (channel ch1 fns) i j = Some (np.float32 (ch1 p))) as Hgat.
  { unfold channel. by rewrite at2_map2d, Hq. }
  set (rb := map2d _ (zip2d (f32.add rnd) _ _)).
  assert (rect h w rb) as Hrb.
  { apply rect_map2d, rect_zip2d; by apply rect_map2d. }
  assert (at2 rb i j
          = Some (f32.div rnd
                    (f32.add rnd (np.float32 (ch0 p)) (np.float32 (ch2 p))) 2))
    as Hrbat.
  { unfold rb. rewrite at2_map2d.
    erewrite at2_zip2d; [done|unfold channel; by rewrite at2_map2d, Hq..]. }
  set (sm := f32.spill_mask_of rnd (channel ch1 fns) rb mask).
  assert (rect h w sm) as Hsm.
  { unfold sm, f32.spill_mask_of. repeat apply rect_zip2d; try done.
    by apply rect_map2d. }
  assert (at2 sm i j = Some (f32.spill_px rnd (px_map np.float32 p) m))
    as Hsmat.
  { unfold sm, f32.spill_mask_of.
    erewrite at2_zip2d; [done| |by rewrite at2_map2d, Hmk].
    by erewrite at2_zip2d. }
  unfold with_ch1.
  erewrite at2_zip2d; [|done|by eapply setitem_bool_spec].
  unfold f32.decontaminate_px. simpl. by destruct (f32.spill_px _ _ _).
Qed.

Lemma f32_alpha_blend_same_shape h w (fns m3 b : image (px Q)) :
  rect h w fns → rect h w m3 → rect h w b →
  f32.alpha_blend rnd fns m3 b
  = inr (zip2d (px_zip (f32.add rnd))
           (zip2d (px_zip (f32.mul rnd)) fns
              (map2d (px_map (λ m, f32.sub rnd 1 m)) m3))
           (zip2d (px_zip (f32.mul rnd)) b m3)).
Proof.
  intros Hf Hm Hb. unfold f32.alpha_blend.
  assert (rect h w (map2d (px_map (λ m, f32.sub rnd 1 m)) m3)) as Hm'
    by by apply rect_map2d.
  rewrite (binop_same_shape _ h w fns _ Hf Hm'). simpl.
  rewrite (binop_same_shape _ h w b m3 Hb Hm). simpl.
  apply (binop_same_shape _ h w); by apply rect_zip2d.
Qed.

Lemma f32_alpha_blend_at h w (fns : image (px Q)) (mask : image Q)
    (b : image (px Q)) res i j f m x :
  rect h w fns → rect h w mask → rect h w b →
  f32.alpha_blend rnd fns (np.stack3 mask) b = inr res →
  at2 fns i j = Some f → at2 mask i j = Some m → at2 b i j = Some x →
  at2 res i j = Some (f32.blend_px rnd f m x).
Proof.
  intros Hf Hm Hb Hres Hfat Hmat Hbat.
  assert (rect h w (np.stack3 mask)) as Hm3 by by apply rect_map2d.
  rewrite (f32_alpha_blend_same_shape h w) in Hres by done.
  injection Hres as <-.
  assert (at2 (np.stack3 mask) i j = Some (Px m m m)) as Hm3at.
  { unfold np.stack3. by rewrite at2_map2d, Hmat. }
  rewrite (at2_zip2d _ _ _ i j
             (px_zip (f32.mul rnd) f (px_map (λ m, f32.sub rnd 1 m) (Px m m m)))
             (px_zip (f32.mul rnd) x (Px m m m))); [done|..].
  - rewrite (at2_zip2d _ _ _ i j f (px_map (λ m, f32.sub rnd 1 m) (Px m m m)));
      [done|done|]. by rewrite at2_map2d, Hm3at.
  - by rewrite (at2_zip2d _ _ _ i j x (Px m m m)).
Qed.

Lemma f32_alpha_blend_rect h w (fns : image (px Q)) (mask : image Q)
    (b : image (px Q)) :
  rect h w fns → rect h w mask → rect h w b →
  ∃ res, f32.alpha_blend rnd fns (np.stack3 mask) b = inr res ∧ rect h w res.
Proof.
  intros Hf Hm Hb.
  assert (rect h w (np.stack3 mask)) as Hm3 by by apply rect_map2d.
  rewrite (f32_alpha_blend_same_shape h w) by done.
  eexists. split; [done|].
  apply rect_zip2d; apply rect_zip2d; try done. by apply rect_map2d.
Qed.

(** The whole transform on a frame and a background of one shape. *)
Lemma f32_advanced_chroma_key_same_shape h w frame bg lo hi k s :
  rect h w frame → rect h w bg → (0 < h)%nat → (0 < w)%nat →
  Nat.odd k = true →
  ∃ mask res out,
    f32.soft_mask BGR2HSV GaussianBlur_at frame lo hi k = inr mask
    ∧ soft_mask BGR2HSV GaussianBlur_at frame lo hi k = inr mask
    ∧ rect h w mask
    ∧ f32.alpha_blend rnd (f32.decontaminate rnd rnd64 frame mask s)
        (np.stack3 mask) (np.astype_float32 bg) = inr res
    ∧ rect h w res
    ∧ f32.advanced_chroma_key BGR2HSV GaussianBlur_at rnd rnd64
        frame bg lo hi k s = inr out
    ∧ out = f32.astype_uint8 res
    ∧ rect h w out
    ∧ ∀ i j p b m, at2 frame i j = Some p → at2 bg i j = Some b →
        at2 mask i j = Some m →
        at2 res i j
        = Some (f32.blend_px rnd (f32.decontaminate_px rnd rnd64 s p m) m
                  (px_map np.float32 b)).
Proof.
  intros Hf Hb Hh Hw Hk.
  destruct (soft_mask_total BGR2HSV GaussianBlur_at h w frame lo hi k Hf Hh Hw)
    as (mask & Hmask & Hm).
  assert (rect h w (f32.decontaminate rnd rnd64 frame mask s)) as Hd
    by by apply f32_decontaminate_rect.
  assert (rect h w (np.astype_float32 bg)) as Hb32 by by apply rect_map2d.
  destruct (f32_alpha_blend_rect h w _ mask _ Hd Hm Hb32) as (res & Hres & Hr).
  exists mask, res, (f32.astype_uint8 res).
  split; [by rewrite f32_soft_mask_odd|]. split; [done|]. split; [done|].
  split; [done|]. split; [done|]. split.
  { unfold f32.advanced_chroma_key. rewrite f32_soft_mask_odd, Hmask by done.
    simpl. by rewrite Hres. }
  split; [done|]. split; [by apply rect_map2d|].
  intros i j p b m Hp Hbat Hmat.
  assert (at2 (np.astype_float32 bg) i j = Some (px_map np.float32 b)) as Hb32at.
  { unfold np.astype_float32. by rewrite at2_map2d, Hbat. }
  pose proof (f32_decontaminate_at h w frame mask s i j p m Hf Hm Hp Hmat)
    as Hdat.
  by apply (f32_alpha_blend_at h w _ mask _ res i j _ m _ Hd Hm Hb32 Hres).
Qed.

End RoundedStages.

(** ** Ranges under rounding *)

Lemma trunc_below_256 q : below_256 q → is_uint8 (np.trunc q).
Proof.
  unfold below_256, is_uint8, np.trunc, Qle, Qlt. destruct q as [n d]. simpl.
  intros [H0 H256]. rewrite Z.quot_div_nonneg by lia. split.
  - apply Z.div_pos; lia.
  - assert (n / Z.pos d < 256); [|lia].
    apply Z.div_lt_upper_bound; lia.
Qed.

(** Below 256 the conversion to uint8 is the truncation. *)
Lemma f32_uint8_below_256 q : below_256 q → f32.uint8 q = np.trunc q.
Proof.
  intros Hq. apply trunc_below_256 in Hq. unfold is_uint8 in Hq.
  unfold f32.uint8. simpl.
  destruct (Z.leb_spec (- 2 ^ 31) (np.trunc q)); [|lia].
  destruct (Z.ltb_spec (np.trunc q) (2 ^ 31)); [|lia].
  simpl. apply Z.mod_small. lia.
Qed.

Section RoundedRanges.

Variable rnd : Q → Q.
Variable rnd64 : Q → Q.
Hypothesis Hrnd : float32_rounding rnd.
Hypothesis Hrnd64 : float64_rounding rnd64.

(** Coarser error terms, with which the bounds below are computed. *)
Lemma rnd_coarse : rounding (1 # 1000000) (1 # 1000000000) rnd.
Proof.
  eapply rounding_weaken; [| |exact Hrnd];
    apply Qle_bool_iff; vm_compute; reflexivity.
Qed.

Lemma rnd64_coarse : rounding (1 # 1000000) (1 # 1000000000) rnd64.
Proof.
  eapply rounding_weaken; [| |exact Hrnd64];
    apply Qle_bool_iff; vm_compute; reflexivity.
Qed.

Lemma rnd_pos x : (0 <= x → 0 <= rnd x)%Q.
Proof. apply (rounding_nonneg _ _ _ rnd_coarse). Qed.

Lemma rnd_le x X :
  (0 <= x <= X → rnd x <= X * (1 + (1 # 1000000)) + (1 # 1000000000))%Q.
Proof.
  intros [H0 H1]. pose proof (rounding_upper _ _ _ rnd_coarse x H0). lra.
Qed.

Lemma rnd_ge x X :
  (0 <= x → X <= x →
   X * (1 - (1 # 1000000)) - (1 # 1000000000) <= rnd x)%Q.
Proof.
  intros H0 H1. pose proof (rounding_lower _ _ _ rnd_coarse x H0). lra.
Qed.

Lemma rnd64_pos x : (0 <= x → 0 <= rnd64 x)%Q.
Proof. apply (rounding_nonneg _ _ _ rnd64_coarse). Qed.

Lemma rnd64_le x X :
  (0 <= x <= X → rnd64 x <= X * (1 + (1 # 1000000)) + (1 # 1000000000))%Q.
Proof.
  intros [H0 H1]. pose proof (rounding_upper _ _ _ rnd64_coarse x H0). lra.
Qed.

Lemma rnd64_ge x X :
  (0 <= x → X <= x →
   X * (1 - (1 # 1000000)) - (1 # 1000000000) <= rnd64 x)%Q.
Proof.
  intros H0 H1. pose proof (rounding_lower _ _ _ rnd64_coarse x H0). lra.
Qed.

(** Line 49: the red/blue average. *)
Lemma f32_red_blue_range b r :
  (0 <= b <= 255 → 0 <= r <= 255 →
   0 <= f32.div rnd (f32.add rnd b r) 2 <= 255 + (1 # 1000))%Q.
Proof.
  intros [Hb0 Hb1] [Hr0 Hr1]. unfold f32.div, f32.add.
  assert (0 <= b + r <= 510)%Q as Hsum by lra.
  pose proof (rnd_pos _ (proj1 Hsum)) as Ha. pose proof (rnd_le _ _ Hsum) as Ha'.
  set (a := rnd (b + r)) in *.
  assert (0 <= a / 2
          <= (510 * (1 + (1 # 1000000)) + (1 # 1000000000)) / 2)%Q as Hhalf
    by (rewrite !Qhalf; lra).
  split; [apply rnd_pos; tauto|].
  eapply Qle_trans; [apply (rnd_le _ _ Hhalf)|]. rewrite Qhalf. lra.
Qed.

(** Line 51: the new green at a pixel in the spill condition. *)
Lemma f32_new_green_range s rb g :
  (0 <= s <= 1 → 0 <= rb <= 255 + (1 # 1000) → 0 <= g <= 255 →
   0 <= f32.add rnd (f32.mul rnd rb (rnd (rnd64 (1 - s))))
          (f32.mul rnd g (rnd s))
     <= 255 + (1 # 100))%Q.
Proof.
  intros [Hs0 Hs1] [Hrb0 Hrb1] [Hg0 Hg1]. unfold f32.add, f32.mul.
  assert (0 <= 1 - s)%Q as H1s by lra.
  pose proof (rnd64_pos _ H1s) as Ht64.
  pose proof (rnd64_le (1 - s) (1 - s) (conj H1s (Qle_refl _))) as Ht64'.
  pose proof (rnd_pos _ Ht64) as Ht.
  pose proof (rnd_le _ _ (conj Ht64 Ht64')) as Ht'.
  pose proof (rnd_pos _ Hs0) as Hs32.
  pose proof (rnd_le s s (conj Hs0 (Qle_refl _))) as Hs32'.
  set (t := rnd (rnd64 (1 - s))) in *. set (s32 := rnd s) in *.
  assert (0 <= rb * t)%Q as Hp1 by (by apply Qmult_le_0_compat).
  assert (0 <= g * s32)%Q as Hp2 by (by apply Qmult_le_0_compat).
  pose proof (Qmult_le_compat_nonneg rb _ t _ (conj Hrb0 Hrb1) (conj Ht Ht'))
    as Hp1'.
  pose proof (Qmult_le_compat_nonneg g _ s32 _ (conj Hg0 Hg1)
                (conj Hs32 Hs32')) as Hp2'.
  pose proof (rnd_pos _ Hp1) as Hq1. pose proof (rnd_pos _ Hp2) as Hq2.
  pose proof (rnd_le _ _ (conj Hp1 Hp1')) as Hq1'.
  pose proof (rnd_le _ _ (conj Hp2 Hp2')) as Hq2'.
  set (q1 := rnd (rb * t)) in *. set (q2 := rnd (g * s32)) in *.
  assert (0 <= q1 + q2)%Q as Hsum by lra.
  split; [by apply rnd_pos|].
  pose proof (rnd_le (q1 + q2) _
                (conj Hsum (Qplus_le_compat _ _ _ _ Hq1' Hq2'))) as Hd.
  eapply Qle_trans; [exact Hd|]. clear -Hs0 Hs1. lra.
Qed.

(** Lines 47-51 at one pixel. *)
Lemma f32_decontaminate_px_range s p m :
  (0 <= s <= 1)%Q → px_all is_uint8 p →
  px_all (λ v, 0 <= v <= 255 + (1 # 100))%Q
    (f32.decontaminate_px rnd rnd64 s p m).
Proof.
  intros Hs (H0 & H1 & H2).
  apply float32_byte_range in H0 as [? ?].
  apply float32_byte_range in H1 as [? ?].
  apply float32_byte_range in H2 as [? ?].
  unfold f32.decontaminate_px, px_all. simpl.
  split; [lra|]. split; [|lra].
  destruct (f32.spill_px _ _ _); [|lra].
  apply f32_new_green_range; [done| |done].
  by apply f32_red_blue_range.
Qed.

(** Line 54 at one channel. *)
Lemma f32_blend_range f m b :
  (0 <= f <= 255 + (1 # 100))%Q → byte_range b → unit_interval m →
  (0 <= f32.blend rnd f m b <= 255 + (1 # 10))%Q.
Proof.
  intros [Hf0 Hf1] [Hb0 Hb1] [Hm0 Hm1].
  unfold f32.blend, f32.add, f32.mul, f32.sub.
  assert (0 <= 1 - m)%Q as H1m by lra.
  pose proof (rnd_pos _ H1m) as Hk.
  pose proof (rnd_le (1 - m) (1 - m) (conj H1m (Qle_refl _))) as Hk'.
  set (k := rnd (1 - m)) in *.
  assert (0 <= f * k)%Q as Hp1 by (by apply Qmult_le_0_compat).
  assert (0 <= b * m)%Q as Hp2 by (by apply Qmult_le_0_compat).
  pose proof (Qmult_le_compat_nonneg f _ k _ (conj Hf0 Hf1) (conj Hk Hk'))
    as Hp1'.
  pose proof (Qmult_le_compat_nonneg b _ m _ (conj Hb0 Hb1)
                (conj Hm0 (Qle_refl _))) as Hp2'.
  pose proof (rnd_pos _ Hp1) as Hq1. pose proof (rnd_pos _ Hp2) as Hq2.
  pose proof (rnd_le _ _ (conj Hp1 Hp1')) as Hq1'.
  pose proof (rnd_le _ _ (conj Hp2 Hp2')) as Hq2'.
  set (q1 := rnd (f * k)) in *. set (q2 := rnd (b * m)) in *.
  assert (0 <= q1 + q2)%Q as Hsum by lra.
  split; [by apply rnd_pos|].
  pose proof (rnd_le (q1 + q2) _
                (conj Hsum (Qplus_le_compat _ _ _ _ Hq1' Hq2'))) as Hd.
  eapply Qle_trans; [exact Hd|]. clear -Hm0 Hm1. lra.
Qed.

Lemma f32_blend_px_below_256 f m b :
  px_all (λ v, 0 <= v <= 255 + (1 # 100))%Q f → px_all byte_range b →
  unit_interval m →
  px_all below_256 (f32.blend_px rnd f m b).
Proof.
  intros (? & ? & ?) (? & ? & ?) Hm. unfold f32.blend_px, px_all, below_256.
  simpl.
  repeat split;
    try (by apply f32_blend_range);
    (eapply Qle_lt_trans; [by apply f32_blend_range|reflexivity]).
Qed.

(** The two weights of line 51 add up to 1, nearly. *)
Lemma f32_weights_sum s :
  (0 <= s <= 1)%Q →
  let t := rnd (rnd64 (1 - s)) in
  let s32 := rnd s in
  (0 <= t ∧ 0 <= s32
   ∧ 1 - (1 # 100000) <= t + s32 <= 1 + (1 # 100000))%Q.
Proof.
  intros [Hs0 Hs1] t s32.
  assert (0 <= 1 - s)%Q as H1s by lra.
  pose proof (rnd64_pos _ H1s) as Ht64.
  pose proof (rnd64_le (1 - s) (1 - s) (conj H1s (Qle_refl _))) as Ht64'.
  pose proof (rnd64_ge (1 - s) (1 - s) H1s (Qle_refl _)) as Ht64''.
  pose proof (rnd_pos _ Ht64) as Ht.
  pose proof (rnd_le _ _ (conj Ht64 Ht64')) as Ht'.
  pose proof (rnd_ge _ _ Ht64 Ht64'') as Ht''.
  pose proof (rnd_pos _ Hs0) as Hs32.
  pose proof (rnd_le s s (conj Hs0 (Qle_refl _))) as Hs32'.
  pose proof (rnd_ge s s Hs0 (Qle_refl _)) as Hs32''.
  fold t in Ht, Ht', Ht''. fold s32 in Hs32, Hs32', Hs32''.
  split; [done|]. split; [done|]. split; lra.
Qed.

(** Line 51 at a pixel whose green [g] is above the red/blue average
    [rb]: the new green lies between the two, up to rounding. *)
Lemma f32_new_green_between s rb g :
  (0 <= s <= 1 → 0 <= rb → rb <= g → g <= 255 →
   rb - (1 # 100)
   <= f32.add rnd (f32.mul rnd rb (rnd (rnd64 (1 - s))))
        (f32.mul rnd g (rnd s))
   <= g + (1 # 100))%Q.
Proof.
  intros Hs Hrb0 Hrbg Hg. unfold f32.add, f32.mul.
  destruct (f32_weights_sum s Hs) as (Ht & Hs32 & Hlo & Hhi).
  set (t := rnd (rnd64 (1 - s))) in *. set (s32 := rnd s) in *.
  assert (0 <= g)%Q as Hg0 by lra.
  assert (0 <= rb * t)%Q as Hp1 by (by apply Qmult_le_0_compat).
  assert (0 <= g * s32)%Q as Hp2 by (by apply Qmult_le_0_compat).
  assert (rb * t <= g * t)%Q as Hm1 by (by apply Qmult_le_compat_r).
  assert (rb * s32 <= g * s32)%Q as Hm2 by (by apply Qmult_le_compat_r).
  assert (g * (t + s32) <= g * (1 + (1 # 100000)))%Q as Hu
    by (apply Qmult_le_compat_nonneg; lra).
  assert (rb * (1 - (1 # 100000)) <= rb * (t + s32))%Q as Hl
    by (apply Qmult_le_compat_nonneg; lra).
  pose proof (rnd_pos _ Hp1) as Hq1. pose proof (rnd_pos _ Hp2) as Hq2.
  pose proof (rnd_le _ _ (conj Hp1 (Qle_refl _))) as Hq1'.
  pose proof (rnd_le _ _ (conj Hp2 (Qle_refl _))) as Hq2'.
  pose proof (rnd_ge _ _ Hp1 (Qle_refl _)) as Hq1''.
  pose proof (rnd_ge _ _ Hp2 (Qle_refl _)) as Hq2''.
  set (q1 := rnd (rb * t)) in *. set (q2 := rnd (g * s32)) in *.
  assert (0 <= q1 + q2)%Q as Hsum by lra.
  pose proof (rnd_le _ _ (conj Hsum (Qle_refl _))) as Hd'.
  pose proof (rnd_ge _ _ Hsum (Qle_refl _)) as Hd''.
  split; lra.
Qed.

(** Line 54 at one channel: the composite lies between the two values
    it blends, up to rounding. *)
Lemma f32_blend_between lo hi f m b :
  (0 <= lo → hi <= 256 → lo <= f <= hi → lo <= b <= hi → unit_interval m →
   lo - (1 # 100) <= f32.blend rnd f m b <= hi + (1 # 100))%Q.
Proof.
  intros Hlo Hhi [Hf0 Hf1] [Hb0 Hb1] [Hm0 Hm1].
  unfold f32.blend, f32.add, f32.mul, f32.sub.
  assert (0 <= 1 - m)%Q as H1m by lra.
  pose proof (rnd_pos _ H1m) as Hk.
  pose proof (rnd_le (1 - m) (1 - m) (conj H1m (Qle_refl _))) as Hk'.
  pose proof (rnd_ge (1 - m) (1 - m) H1m (Qle_refl _)) as Hk''.
  set (k := rnd (1 - m)) in *.
  assert (0 <= f)%Q as Hfpos by lra. assert (0 <= b)%Q as Hbpos by lra.
  assert (0 <= f * k)%Q as Hp1 by (by apply Qmult_le_0_compat).
  assert (0 <= b * m)%Q as Hp2 by (by apply Qmult_le_0_compat).
  assert (f * k <= hi * k)%Q by (by apply Qmult_le_compat_r).
  assert (b * m <= hi * m)%Q by (by apply Qmult_le_compat_r).
  assert (lo * k <= f * k)%Q by (by apply Qmult_le_compat_r).
  assert (lo * m <= b * m)%Q by (by apply Qmult_le_compat_r).
  assert (hi * (k + m) <= hi * (1 + (1 # 100000)))%Q
    by (apply Qmult_le_compat_nonneg; lra).
  assert (lo * (1 - (1 # 100000)) <= lo * (k + m))%Q
    by (apply Qmult_le_compat_nonneg; lra).
  pose proof (rnd_pos _ Hp1) as Hq1. pose proof (rnd_pos _ Hp2) as Hq2.
  pose proof (rnd_le _ _ (conj Hp1 (Qle_refl _))) as Hq1'.
  pose proof (rnd_le _ _ (conj Hp2 (Qle_refl _))) as Hq2'.
  pose proof (rnd_ge _ _ Hp1 (Qle_refl _)) as Hq1''.
  pose proof (rnd_ge _ _ Hp2 (Qle_refl _)) as Hq2''.
  set (q1 := rnd (f * k)) in *. set (q2 := rnd (b * m)) in *.
  assert (0 <= q1 + q2)%Q as Hsum by lra.
  pose proof (rnd_le _ _ (conj Hsum (Qle_refl _))) as Hd'.
  pose proof (rnd_ge _ _ Hsum (Qle_refl _)) as Hd''.
  split; lra.
Qed.

End RoundedRanges.

(** ** The composite and its range *)

Section RoundedClaims.

Variable BGR2HSV : px Z → px Z.
Variable GaussianBlur_at : nat → image Q → nat → nat → Q.
Variable rnd : Q → Q.
Variable rnd64 : Q → Q.

(** One output pixel: the mask value, the decontaminated pixel and the
    composite with their ranges. *)
Lemma f32_out_px s p m b :
  float32_rounding rnd → float64_rounding rnd64 →
  (0 <= s <= 1)%Q → px_all is_uint8 p → px_all is_uint8 b →
  unit_interval m →
  let d := f32.decontaminate_px rnd rnd64 s p m in
  let c := f32.blend_px rnd d m (px_map np.float32 b) in
  px_all (λ v, 0 <= v <= 255 + (1 # 100))%Q d
  ∧ px_all below_256 c
  ∧ px_map f32.uint8 c = px_map np.trunc c
  ∧ px_all is_uint8 (px_map np.trunc c).
Proof.
  intros Hr Hr64 Hs Hp (Hb0 & Hb1 & Hb2) Hm d c.
  assert (px_all (λ v, 0 <= v <= 255 + (1 # 100))%Q d) as Hd
    by by apply f32_decontaminate_px_range.
  assert (px_all below_256 c) as (Hc0 & Hc1 & Hc2).
  { apply f32_blend_px_below_256; [done..| |done].
    repeat split; by apply float32_byte_range. }
  split; [done|]. split; [done|]. split.
  - unfold px_map. by rewrite !f32_uint8_below_256.
  - repeat split; by apply trunc_below_256.
Qed.



End RoundedClaims.

(** ** The transform with the float32 rounding on sample frames *)


Lemma s_near_1_range : (0 <= sample32.s_near_1 <= 1)%Q.
Proof. split; apply Qle_bool_iff; vm_compute; reflexivity. Qed.

(** Where the two readings part: three key pixels, then three pixels
    (3, 13, 3), over a background of green 2, with a 3x3 blur and the
    script's spill suppression.  The masks of pixels 3 and 4 are 3/4 and
    1/4; their decontaminated green is 9.999999 in float32, 10 exactly,
    and the output greens are 3 and 7 in float32, 4 and 8 exactly. *)
Example rounding_changes_bytes :
  f32.advanced_chroma_key ref.BGR2HSV ref.GaussianBlur_at
    ieee.binary32 ieee.binary64
    (sample32.row sample32.dim) (sample32.flat (Px 0 2 0))
    ref.GREEN_LOWER ref.GREEN_UPPER 3 sample32.s_0_7
  = inr [[Px 0 2 0; Px 0 2 0; Px 0 2 0; Px 0 3 0; Px 2 7 2; Px 3 13 3]]
  ∧ advanced_chroma_key ref.BGR2HSV ref.GaussianBlur_at
      (sample32.row sample32.dim) (sample32.flat (Px 0 2 0))
      ref.GREEN_LOWER ref.GREEN_UPPER 3 (7 # 10)
    = inr [[Px 0 2 0; Px 0 2 0; Px 0 2 0; Px 0 4 0; Px 2 8 2; Px 3 13 3]].
Proof. split; vm_compute; reflexivity. Qed.

(** C10 fails as stated: three key pixels, then three pixels
    (254, 255, 255), over a white background, with a 3x3 blur and the
    spill suppression 0.9999914472513989.  Pixel 4 has mask 1/4 and is
    in the spill condition (green 255 above the average 254.5); in
    float32 its decontaminated green and the green of its composite are
    255.0000153, above 255.  The call returns. *)
Lemma composite_exceeds_255 :
  rect 1 6 (sample32.row sample32.pale)
  ∧ rect 1 6 (sample32.flat (Px 255 255 255))
  ∧ all2d (px_all is_uint8) (sample32.row sample32.pale)
  ∧ all2d (px_all is_uint8) (sample32.flat (Px 255 255 255))
  ∧ Nat.odd 3 = true
  ∧ (0 <= sample32.s_near_1 <= 1)%Q
  ∧ ∃ mask m d res c out,
      f32.soft_mask ref.BGR2HSV ref.GaussianBlur_at
        (sample32.row sample32.pale) ref.GREEN_LOWER ref.GREEN_UPPER 3
      = inr mask
      ∧ at2 mask 0 4 = Some m
      ∧ (m == 1 # 4)%Q
      ∧ at2 (f32.decontaminate ieee.binary32 ieee.binary64
               (sample32.row sample32.pale) mask sample32.s_near_1) 0 4
        = Some d
      ∧ (255 < ch1 d)%Q
      ∧ f32.alpha_blend ieee.binary32
          (f32.decontaminate ieee.binary32 ieee.binary64
             (sample32.row sample32.pale) mask sample32.s_near_1)
          (np.stack3 mask)
          (np.astype_float32 (sample32.flat (Px 255 255 255)))
        = inr res
      ∧ at2 res 0 4 = Some c
      ∧ (255 < ch1 c)%Q
      ∧ ¬ byte_range (ch1 c)
      ∧ f32.advanced_chroma_key ref.BGR2HSV ref.GaussianBlur_at
          ieee.binary32 ieee.binary64
          (sample32.row sample32.pale) (sample32.flat (Px 255 255 255))
          ref.GREEN_LOWER ref.GREEN_UPPER 3 sample32.s_near_1
        = inr out.
Proof.
  split; [concrete|]. split; [concrete|].
  split; [unfold is_uint8; concrete|]. split; [unfold is_uint8; concrete|].
  split; [reflexivity|]. split; [apply s_near_1_range|].
  eexists. eexists. eexists. eexists. eexists. eexists.
  split; [vm_compute; reflexivity|].
  split; [vm_compute; reflexivity|].
  split; [vm_compute; reflexivity|].
  split; [vm_compute; reflexivity|].
  split; [vm_compute; reflexivity|].
  split; [vm_compute; reflexivity|].
  split; [vm_compute; reflexivity|].
  split; [vm_compute; reflexivity|].
  split; [|vm_compute; reflexivity].
  intros [_ H]. revert H. vm_compute. intros H. by apply H.
Qed.



(** * The morphological cleanup (lines 43-45) *)

(** ** One pass is a minimum (maximum) over the 3x3 window *)

Lemma Qmin_cases x y : Qmin x y = x ∨ Qmin x y = y.
Proof.
  unfold Qmin, GenericMinMax.gmin. destruct (x ?= y)%Q; auto.
Qed.

Lemma Qmax_cases x y : Qmax x y = x ∨ Qmax x y = y.
Proof.
  unfold Qmax, GenericMinMax.gmax. destruct (x ?= y)%Q; auto.
Qed.

Lemma foldr_Qmin_cases b (l : list Q) : foldr Qmin b l = b ∨ foldr Qmin b l ∈ l.
Proof.
  induction l as [|x l IH]; simpl; [by left|].
  destruct (Qmin_cases x (foldr Qmin b l)) as [-> | ->].
  - right. left.
  - destruct IH as [->|Hin]; [by left|]. right. by right.
Qed.

Lemma foldr_Qmax_cases b (l : list Q) : foldr Qmax b l = b ∨ foldr Qmax b l ∈ l.
Proof.
  induction l as [|x l IH]; simpl; [by left|].
  destruct (Qmax_cases x (foldr Qmax b l)) as [-> | ->].
  - right. left.
  - destruct IH as [->|Hin]; [by left|]. right. by right.
Qed.

Lemma near_refl i : near i i.
Proof. unfold near. lia. Qed.

(** Every position of the window is one of the nine offsets away. *)
Lemma neighbours_window (src : image Q) border i j i' j' y :
  near i i' → near j j' → at2 src i' j' = Some y →
  y ∈ cv2.neighbours src border (cv2.offsets (np.ones 3 3)) i j.
Proof.
  intros [Hi1 Hi2] [Hj1 Hj2] Hy. unfold cv2.neighbours.
  apply list_elem_of_fmap.
  exists (Z.of_nat i' - Z.of_nat i, Z.of_nat j' - Z.of_nat j). split.
  - simpl. unfold cv2.at_border.
    replace (Z.of_nat i + (Z.of_nat i' - Z.of_nat i)) with (Z.of_nat i') by lia.
    replace (Z.of_nat j + (Z.of_nat j' - Z.of_nat j)) with (Z.of_nat j') by lia.
    destruct (Z.ltb_spec (Z.of_nat i') 0); [lia|].
    destruct (Z.ltb_spec (Z.of_nat j') 0); [lia|].
    simpl. by rewrite !Nat2Z.id, Hy.
  - rewrite offsets_ones3.
    assert (Z.of_nat i' - Z.of_nat i = -1 ∨ Z.of_nat i' - Z.of_nat i = 0
            ∨ Z.of_nat i' - Z.of_nat i = 1) as Hdi by lia.
    assert (Z.of_nat j' - Z.of_nat j = -1 ∨ Z.of_nat j' - Z.of_nat j = 0
            ∨ Z.of_nat j' - Z.of_nat j = 1) as Hdj by lia.
    destruct Hdi as [-> | [-> | ->]]; destruct Hdj as [-> | [-> | ->]];
      repeat first [ apply list_elem_of_here | apply list_elem_of_further ].
Qed.

(** And every offset leads to the border value or into the window. *)
Lemma neighbours_inv (src : image Q) border i j v :
  v ∈ cv2.neighbours src border (cv2.offsets (np.ones 3 3)) i j →
  v = border
  ∨ ∃ i' j', near i i' ∧ near j j' ∧ at2 src i' j' = Some v.
Proof.
  unfold cv2.neighbours. intros Hin.
  apply list_elem_of_fmap in Hin as ([d1 d2] & -> & Hd). simpl.
  unfold cv2.at_border.
  destruct (Z.ltb_spec (Z.of_nat i + d1) 0); [by left|].
  destruct (Z.ltb_spec (Z.of_nat j + d2) 0); [by left|]. simpl.
  destruct (at2 src (Z.to_nat (Z.of_nat i + d1)) (Z.to_nat (Z.of_nat j + d2)))
    as [y|] eqn:Hy; simpl; [|by left].
  right. exists (Z.to_nat (Z.of_nat i + d1)), (Z.to_nat (Z.of_nat j + d2)).
  assert ((d1 = -1 ∨ d1 = 0 ∨ d1 = 1) ∧ (d2 = -1 ∨ d2 = 0 ∨ d2 = 1))
    as [Hd1 Hd2].
  { rewrite offsets_ones3 in Hd.
    repeat (apply elem_of_cons in Hd as [[= -> ->]|Hd]; [lia|]).
    by apply elem_of_nil in Hd. }
  unfold near. repeat split; [lia..|done].
Qed.

Lemma erode1_window (src : image Q) i j x :
  all2d finite src → at2 src i j = Some x →
  ∃ v, at2 (cv2.erode1 (np.ones 3 3) src) i j = Some v ∧ window_min src i j v.
Proof.
  intros Hfin Hx. unfold cv2.erode1. rewrite at2_imap2d, Hx.
  eexists. split; [reflexivity|]. cbv beta.
  set (b := cv2.FLT_MAX).
  set (l := cv2.neighbours src b (cv2.offsets (np.ones 3 3)) i j).
  assert (∀ i' j' y, near i i' → near j j' → at2 src i' j' = Some y →
            (foldr Qmin b l <= y)%Q) as Hle.
  { intros i' j' y Hi Hj Hy. apply foldr_Qmin_le.
    by eapply neighbours_window. }
  split; [done|].
  assert (foldr Qmin b l = b →
          ∃ i' j' y, near i i' ∧ near j j' ∧ at2 src i' j' = Some y
                     ∧ (foldr Qmin b l == y)%Q) as Hborder.
  { intros Hb. exists i, j, x.
    split; [apply near_refl|]. split; [apply near_refl|].
    split; [done|]. apply Qle_antisym.
    - apply (Hle i j); [apply near_refl..|done].
    - rewrite Hb. rewrite all2d_at2 in Hfin. by destruct (Hfin i j x Hx). }
  destruct (foldr_Qmin_cases b l) as [Hb|Hin]; [by apply Hborder|].
  apply neighbours_inv in Hin as [Hb|(i2 & j2 & Hi2 & Hj2 & Hy2)];
    [by apply Hborder|].
  exists i2, j2, (foldr Qmin b l).
  split; [done|]. split; [done|]. split; [done|reflexivity].
Qed.

Lemma dilate1_window (src : image Q) i j x :
  all2d finite src → at2 src i j = Some x →
  ∃ v, at2 (cv2.dilate1 (np.ones 3 3) src) i j = Some v ∧ window_max src i j v.
Proof.
  intros Hfin Hx. unfold cv2.dilate1. rewrite at2_imap2d, Hx.
  eexists. split; [reflexivity|]. cbv beta.
  set (b := (- cv2.FLT_MAX)%Q).
  set (l := cv2.neighbours src b (cv2.offsets (np.ones 3 3)) i j).
  assert (∀ i' j' y, near i i' → near j j' → at2 src i' j' = Some y →
            (y <= foldr Qmax b l)%Q) as Hge.
  { intros i' j' y Hi Hj Hy. apply foldr_Qmax_ge.
    by eapply neighbours_window. }
  split; [done|].
  assert (foldr Qmax b l = b →
          ∃ i' j' y, near i i' ∧ near j j' ∧ at2 src i' j' = Some y
                     ∧ (foldr Qmax b l == y)%Q) as Hborder.
  { intros Hb. exists i, j, x.
    split; [apply near_refl|]. split; [apply near_refl|].
    split; [done|]. apply Qle_antisym.
    - rewrite Hb. rewrite all2d_at2 in Hfin. by destruct (Hfin i j x Hx).
    - apply (Hge i j); [apply near_refl..|done]. }
  destruct (foldr_Qmax_cases b l) as [Hb|Hin]; [by apply Hborder|].
  apply neighbours_inv in Hin as [Hb|(i2 & j2 & Hi2 & Hj2 & Hy2)];
    [by apply Hborder|].
  exists i2, j2, (foldr Qmax b l).
  split; [done|]. split; [done|]. split; [done|reflexivity].
Qed.

Lemma unit_interval_finite (m : image Q) : all2d unit_interval m → all2d finite m.
Proof.
  pose proof FLT_MAX_ge_1 as Hmax. intros Hm.
  eapply Forall_impl; [exact Hm|]. intros r Hr.
  eapply Forall_impl; [exact Hr|]. intros v [H0 H1]. unfold finite. lra.
Qed.

Lemma erode_once (m : image Q) kernel :
  cv2.erode m kernel 1 = cv2.erode1 kernel m.
Proof. reflexivity. Qed.

Lemma dilate_once (m : image Q) kernel :
  cv2.dilate m kernel 1 = cv2.dilate1 kernel m.
Proof. reflexivity. Qed.

Lemma dilate_twice (m : image Q) kernel :
  cv2.dilate m kernel 2 = cv2.dilate (cv2.dilate m kernel 1) kernel 1.
Proof. reflexivity. Qed.

Lemma erode1_is_Some kernel (m : image Q) i j :
  is_Some (at2 (cv2.erode1 kernel m) i j) ↔ is_Some (at2 m i j).
Proof.
  unfold cv2.erode1. rewrite at2_imap2d. apply fmap_is_Some.
Qed.

Lemma dilate1_is_Some kernel (m : image Q) i j :
  is_Some (at2 (cv2.dilate1 kernel m) i j) ↔ is_Some (at2 m i j).
Proof.
  unfold cv2.dilate1. rewrite at2_imap2d. apply fmap_is_Some.
Qed.

Section Cleanup.

Variable BGR2HSV : px Z → px Z.
Variable GaussianBlur_at : nat → image Q → nat → nat → Q.

(** C8.  The cleanup of the feathered mask (the blurred and clipped
    one, not the thresholded one) is [cv2.erode] with one iteration
    followed by [cv2.dilate] with two, one more.  The three passes keep
    the positions of the mask, and their values are, in this order: at
    every position the minimum of the feathered mask over the 3x3 window
    around it (the position and its neighbours inside the array); then
    the maximum of the eroded mask over that window; then the maximum of
    the once dilated mask over that window. *)
Theorem cleanup_erodes_once_dilates_twice frame green_lower green_upper
    feather_radius (t : image Q) :
  let m := feather_mask GaussianBlur_at t feather_radius in
  let eroded := cv2.erode m (np.ones 3 3) 1 in
  let dilated := cv2.dilate eroded (np.ones 3 3) 1 in
  cleanup_mask m = cv2.dilate eroded (np.ones 3 3) 2
  ∧ cv2.dilate eroded (np.ones 3 3) 2 = cv2.dilate dilated (np.ones 3 3) 1
  ∧ (∀ i j, (is_Some (at2 eroded i j) ↔ is_Some (at2 m i j))
            ∧ (is_Some (at2 dilated i j) ↔ is_Some (at2 m i j))
            ∧ (is_Some (at2 (cleanup_mask m) i j) ↔ is_Some (at2 m i j)))
  ∧ (∀ i j x, at2 m i j = Some x →
       ∃ v, at2 eroded i j = Some v ∧ window_min m i j v)
  ∧ (∀ i j x, at2 eroded i j = Some x →
       ∃ v, at2 dilated i j = Some v ∧ window_max eroded i j v)
  ∧ (∀ i j x, at2 dilated i j = Some x →
       ∃ v, at2 (cleanup_mask m) i j = Some v ∧ window_max dilated i j v)
  ∧ soft_mask BGR2HSV GaussianBlur_at frame green_lower green_upper
      feather_radius
    = (t ← threshold_mask BGR2HSV frame green_lower green_upper;
       inr (cleanup_mask
              (np.clip (GaussianBlur GaussianBlur_at t feather_radius) 0 1))).
Proof.
  intros m eroded dilated.
  assert (all2d unit_interval m) as Hm by apply clip_unit_interval.
  assert (all2d unit_interval eroded) as He.
  { unfold eroded. rewrite erode_once.
    by apply erode1_unit_interval; [apply centre_in_ones3|]. }
  assert (all2d unit_interval dilated) as Hd.
  { unfold dilated. rewrite dilate_once.
    by apply dilate1_unit_interval; [apply centre_in_ones3|]. }
  assert (cleanup_mask m = cv2.dilate1 (np.ones 3 3) dilated) as Hc
    by reflexivity.
  split; [reflexivity|]. split; [reflexivity|]. split.
  { intros i j. rewrite Hc. unfold dilated, eroded.
    rewrite dilate_once, erode_once.
    rewrite !dilate1_is_Some, !erode1_is_Some. done. }
  split.
  { intros i j x Hx. unfold eroded. rewrite erode_once.
    by eapply erode1_window; [apply unit_interval_finite|]. }
  split.
  { intros i j x Hx. unfold dilated. rewrite dilate_once.
    by eapply dilate1_window; [apply unit_interval_finite|]. }
  split; [|reflexivity].
  intros i j x Hx. rewrite Hc.
  by eapply dilate1_window; [apply unit_interval_finite|].
Qed.

End Cleanup.

(** On the blurred strip: the erosion moves the edge one pixel to the
    left, the two dilations two pixels to the right. *)
Example cleanup_on_strip :
  let m := [[1; 1; 3 # 4; 1 # 4; 0; 0]]%Q in
  cv2.erode m (np.ones 3 3) 1 = [[1; 3 # 4; 1 # 4; 0; 0; 0]]%Q
  ∧ cv2.dilate (cv2.erode m (np.ones 3 3) 1) (np.ones 3 3) 1
    = [[1; 1; 3 # 4; 1 # 4; 0; 0]]%Q
  ∧ cleanup_mask m = [[1; 1; 1; 3 # 4; 1 # 4; 0]]%Q.
Proof. repeat split; vm_compute; reflexivity. Qed.

(** * Further properties under rounding *)

Lemma trunc_range lo hi q :
  (0 <= q)%Q → (inject_Z lo <= q)%Q → (q < inject_Z hi + 1)%Q →
  lo ≤ np.trunc q ≤ hi.
Proof.
  intros H0 Hlo Hhi'.
  assert (q < inject_Z (hi + 1))%Q as Hhi
    by (rewrite inject_Z_plus; exact Hhi').
  clear Hhi'. revert H0 Hlo Hhi.
  unfold np.trunc, Qle, Qlt, inject_Z. destruct q as [n d]. simpl.
  intros H0 Hlo Hhi. rewrite Z.quot_div_nonneg by lia. split.
  - apply Z.div_le_lower_bound; lia.
  - assert (n / Z.pos d < hi + 1); [|lia].
    apply Z.div_lt_upper_bound; lia.
Qed.

Section RoundedKeying.

Variable BGR2HSV : px Z → px Z.
Variable GaussianBlur_at : nat → image Q → nat → nat → Q.
Variable rnd : Q → Q.
Variable rnd64 : Q → Q.

Lemma f32_spill_px_true p m :
  f32.spill_px rnd p m = true →
  (f32.div rnd (f32.add rnd (ch0 p) (ch2 p)) 2 < ch1 p)%Q.
Proof.
  unfold f32.spill_px. rewrite andb_true_iff, !gt_true. tauto.
Qed.

(** One channel of an output pixel: the byte lies between the two
    values blended, one below the smaller at most. *)
Lemma f32_out_channel lo hi f m b :
  float32_rounding rnd →
  0 ≤ lo → hi ≤ 255 →
  (inject_Z lo <= f <= inject_Z hi + (1 # 100))%Q →
  (inject_Z lo <= b <= inject_Z hi)%Q →
  unit_interval m →
  lo - 1 ≤ np.trunc (f32.blend rnd f m b) ≤ hi.
Proof.
  intros Hr Hlo Hhi Hf Hb Hm.
  assert (0 <= inject_Z lo)%Q as Hlo' by (unfold Qle; simpl; lia).
  assert (inject_Z hi <= 255)%Q as Hhi' by (unfold Qle; simpl; lia).
  destruct (f32_blend_between rnd Hr (inject_Z lo) (inject_Z hi + (1 # 100))
              f m b) as [Hc0 Hc1]; [done|lra|done|lra|done|].
  destruct (f32_blend_range rnd Hr f m b) as [Hpos _];
    [lra|split; lra|done|].
  apply trunc_range; [done| |lra].
  unfold Z.sub. rewrite inject_Z_plus. change (inject_Z (- (1))) with (- (1))%Q.
  lra.
Qed.

(** X4.  With a spill suppression in [0, 1] the decontamination of a
    uint8 frame never changes the blue or the red channel; outside the
    spill condition it leaves the green as it is; at a pixel in the
    spill condition the new green lies between the red/blue average and
    the old green, up to the rounding of the float32 operations (0.01
    covers it). *)
Theorem decontamination_green_between h w frame mask spill_suppress :
  float32_rounding rnd → float64_rounding rnd64 →
  rect h w frame → rect h w mask → all2d (px_all is_uint8) frame →
  (0 <= spill_suppress <= 1)%Q →
  ∀ i j p m, at2 frame i j = Some p → at2 mask i j = Some m →
    ∃ d, at2 (f32.decontaminate rnd rnd64 frame mask spill_suppress) i j
         = Some d
       ∧ ch0 d = np.float32 (ch0 p)
       ∧ ch2 d = np.float32 (ch2 p)
       ∧ (f32.spill_px rnd (px_map np.float32 p) m = false →
          ch1 d = np.float32 (ch1 p))
       ∧ (f32.spill_px rnd (px_map np.float32 p) m = true →
          f32.div rnd (f32.add rnd (np.float32 (ch0 p)) (np.float32 (ch2 p))) 2
          - (1 # 100) <= ch1 d <= np.float32 (ch1 p) + (1 # 100))%Q.
Proof.
  intros Hr Hr64 Hf Hm Hf8 Hs i j p m Hp Hmat.
  exists (f32.decontaminate_px rnd rnd64 spill_suppress p m).
  split; [by eapply f32_decontaminate_at|].
  rewrite all2d_at2 in Hf8. destruct (Hf8 i j p Hp) as (H0 & H1 & H2).
  apply float32_byte_range in H0 as [? ?].
  apply float32_byte_range in H1 as [? ?].
  apply float32_byte_range in H2 as [? ?].
  unfold f32.decontaminate_px. simpl.
  split; [done|]. split; [done|].
  destruct (f32.spill_px rnd (px_map np.float32 p) m) eqn:Hsp.
  - split; [done|]. intros _.
    apply f32_spill_px_true in Hsp. simpl in Hsp.
    apply (f32_new_green_between rnd rnd64 Hr Hr64); [done| |lra|done].
    by apply (f32_red_blue_range rnd Hr).
  - split; [done|]. done.
Qed.

(** X5.  For uint8 frames of one non-empty shape, an odd feather radius
    and a spill suppression in [0, 1], no channel of an output pixel is
    above the larger of the frame's and the background's value of that
    channel, and its blue and its red are below the smaller of the two
    by one at most (the float32 blend of two equal bytes can fall just
    short of them). *)
Theorem output_between_frame_and_background h w frame bg
    green_lower green_upper feather_radius spill_suppress :
  float32_rounding rnd → float64_rounding rnd64 →
  rect h w frame → rect h w bg → (0 < h)%nat → (0 < w)%nat →
  all2d (px_all is_uint8) frame → all2d (px_all is_uint8) bg →
  Nat.odd feather_radius = true → (0 <= spill_suppress <= 1)%Q →
  ∃ out,
    f32.advanced_chroma_key BGR2HSV GaussianBlur_at rnd rnd64 frame bg
      green_lower green_upper feather_radius spill_suppress = inr out
    ∧ ∀ i j p b, at2 frame i j = Some p → at2 bg i j = Some b →
        ∃ o, at2 out i j = Some o
           ∧ Z.min (ch0 p) (ch0 b) - 1 ≤ ch0 o ≤ Z.max (ch0 p) (ch0 b)
           ∧ Z.min (ch2 p) (ch2 b) - 1 ≤ ch2 o ≤ Z.max (ch2 p) (ch2 b)
           ∧ 0 ≤ ch1 o ≤ Z.max (ch1 p) (ch1 b).
Proof.
  intros Hr Hr64 Hf Hb Hh Hw Hf8 Hb8 Hodd Hs.
  destruct (f32_advanced_chroma_key_same_shape BGR2HSV GaussianBlur_at rnd
              rnd64 h w frame bg green_lower green_upper feather_radius
              spill_suppress Hf Hb Hh Hw Hodd)
    as (mask & res & out & _ & Hmask & Hm & _ & _ & Hout & -> & _ & Hat).
  exists (f32.astype_uint8 res). split; [done|]. intros i j p b Hp Hbat.
  destruct (at2_bounds h w frame i j p Hf Hp) as [Hi Hj].
  destruct (rect_at2 h w mask i j Hm Hi Hj) as [m Hmat].
  assert (unit_interval m) as Hmu.
  { pose proof (soft_mask_unit_interval _ _ _ _ _ _ _ Hmask) as Hu.
    rewrite all2d_at2 in Hu. by eapply Hu. }
  rewrite all2d_at2 in Hf8. rewrite all2d_at2 in Hb8.
  pose proof (Hf8 i j p Hp) as Hp8. pose proof (Hb8 i j b Hbat) as Hb8'.
  destruct (f32_out_px rnd rnd64 spill_suppress p m b Hr Hr64 Hs Hp8 Hb8' Hmu)
    as (_ & _ & Hcast & (_ & [Hg0 _] & _)).
  eexists. split.
  { unfold f32.astype_uint8. rewrite at2_map2d, (Hat i j p b m Hp Hbat Hmat).
    simpl. by rewrite Hcast. }
  destruct Hp8 as (Hp0 & Hp1 & Hp2). destruct Hb8' as (Hb0 & Hb1 & Hb2).
  assert (0 <= ch1 (f32.decontaminate_px rnd rnd64 spill_suppress p m)
          <= np.float32 (ch1 p) + (1 # 100))%Q as [Hd0 Hd1].
  { destruct (f32_decontaminate_px_range rnd rnd64 Hr Hr64 spill_suppress
                p m Hs (conj Hp0 (conj Hp1 Hp2))) as (_ & [Hd0 _] & _).
    split; [done|].
    apply float32_byte_range in Hp0 as [? ?].
    apply float32_byte_range in Hp1 as [? ?].
    apply float32_byte_range in Hp2 as [? ?].
    unfold f32.decontaminate_px. simpl.
    destruct (f32.spill_px rnd (px_map np.float32 p) m) eqn:Hsp; [|lra].
    apply f32_spill_px_true in Hsp. simpl in Hsp.
    apply (f32_new_green_between rnd rnd64 Hr Hr64); [done| |lra|done].
    by apply (f32_red_blue_range rnd Hr). }
  assert (ch0 (f32.decontaminate_px rnd rnd64 spill_suppress p m)
          = np.float32 (ch0 p)) as Hdb by reflexivity.
  assert (ch2 (f32.decontaminate_px rnd rnd64 spill_suppress p m)
          = np.float32 (ch2 p)) as Hdr by reflexivity.
  set (d := f32.decontaminate_px rnd rnd64 spill_suppress p m) in *.
  clearbody d.
  unfold is_uint8 in *.
  pose proof (inject_Z_min_max (ch0 p) (ch0 b)) as [[? ?] [? ?]].
  pose proof (inject_Z_min_max (ch2 p) (ch2 b)) as [[? ?] [? ?]].
  pose proof (inject_Z_min_max (ch1 p) (ch1 b)) as [[? ?] [? ?]].
  unfold np.float32 in *. simpl. split; [|split].
  - apply f32_out_channel; [done|lia|lia| |done|done].
    rewrite Hdb. split; lra.
  - apply f32_out_channel; [done|lia|lia| |done|done].
    rewrite Hdr. split; lra.
  - split; [exact Hg0|].
    apply (f32_out_channel 0); [done|lia|lia| | |done].
    + change (inject_Z 0) with 0%Q. split; lra.
    + change (inject_Z 0) with 0%Q.
      split; [|lra]. unfold Qle. simpl. lia.
Qed.

End RoundedKeying.
